(** * Heads-up postflop poker engine: codec, betting state machine,
      payouts, rollout cache, bandit selection and belief update.

    Shallow embedding of
      - poker/helpers/abstraction.py   (Action codec, GameState)
      - poker/engine/simple_hu_postflop.py (betting state machine)
      - poker/ai/ismcts.py, scripts/selfplay_collect.py (terminal payouts)
      - poker/helpers/cache.py         (RolloutStats, LRUTranspoTable)
      - poker/ai/infoset.py            (InfoNode, ucb_select_action)
      - poker/ai/belief.py             (range update from history, samplers)
      - poker/helpers/cards.py         (Card, make_deck)
      - poker/helpers/evaluator.py     (straight_high)

    Python integers are unbounded and are modelled by [Z]; Python's bit
    operators on integers coincide with [Z.land], [Z.lor], [Z.shiftl] and
    [Z.shiftr] (infinite two's complement).  Dictionaries keyed by strings
    are [gmap string _]; insertion-ordered dictionaries whose order matters
    (the LRU table, a range) are association lists. *)

From Stdlib Require Import ZArith List Lia Bool QArith Qround Lqa Reals Lra.
From Stdlib Require Import Sorted Permutation.
From stdpp Require Import base gmap strings list.

Local Open Scope Z_scope.

(** ** Errors raised by the modelled code *)

Inductive error : Type :=
| IllegalAction (act : Z)      (* ValueError("Illegal action {act} for state") *)
| AmountOutOfRange             (* ValueError("amount out of encodable range ...") *)
| ReRaiseNotAllowed            (* ValueError("Re-raises not allowed in this toy model") *)
| UnhandledTransition          (* RuntimeError("Unhandled transition") *)
| PotLargerThanStacks          (* ValueError("Pot is larger than available stacks_bb ...") *)
| KeyError                     (* a dictionary lookup d[k] on a missing key *)
| MathDomainError              (* math.log / math.sqrt outside their domain *)
| AssertionFailed              (* a failed assert statement *)
| CardIdOutOfRange.            (* ValueError("Card id out of range: ...") *)

Inductive result (A : Type) : Type :=
| Ok (a : A)
| Err (e : error).
Arguments Ok {A} a.
Arguments Err {A} e.

Definition bind {A B} (r : result A) (k : A -> result B) : result B :=
  match r with
  | Ok a => k a
  | Err e => Err e
  end.

Notation "'let*' x ':=' r 'in' k" := (bind r (fun x => k))
  (at level 10, x name, r at level 100, k at level 200).

(** ** poker/helpers/abstraction.py: enums and the Action codec *)

Module Street.
Definition PREFLOP : Z := 0.
Definition FLOP : Z := 1.
Definition TURN : Z := 2.
Definition RIVER : Z := 3.
End Street.

Module Act.
Definition FOLD : Z := 0.
Definition CHECK : Z := 1.
Definition CALL : Z := 2.
Definition BET : Z := 3.
Definition RAISE : Z := 4.
Definition ALLIN : Z := 5.
End Act.

Module Player.
Definition HERO : Z := 0.
Definition VILLAIN : Z := 1.
End Player.

Record Action : Type := mkAction {
  a_street : Z;
  a_player : Z;
  a_act : Z;
  a_amount : Z
}.

(** [Action.encode]:
      if amount < 0 or amount >= (1 << 21): raise ValueError
      return (street & 0b11) << 30 | (player & 0b111111) << 24
             | (act & 0b111) << 21 | (amount & ((1 << 21) - 1)) *)
Definition encode (a : Action) : result Z :=
  if (a_amount a <? 0) || (Z.shiftl 1 21 <=? a_amount a) then Err AmountOutOfRange
  else Ok (Z.lor (Z.lor (Z.lor (Z.shiftl (Z.land (a_street a) 3) 30)
                               (Z.shiftl (Z.land (a_player a) 63) 24))
                        (Z.shiftl (Z.land (a_act a) 7) 21))
                 (Z.land (a_amount a) (Z.shiftl 1 21 - 1))).

(** [Action.decode] *)
Definition decode (x : Z) : Action :=
  {| a_street := Z.land (Z.shiftr x 30) 3;
     a_player := Z.land (Z.shiftr x 24) 63;
     a_act := Z.land (Z.shiftr x 21) 7;
     a_amount := Z.land x (Z.shiftl 1 21 - 1) |}.


(** ** poker/helpers/abstraction.py: GameState *)

(** Values stored in the [meta] side-channel: integers and booleans. *)
Inductive pyval : Type :=
| PInt (z : Z)
| PBool (b : bool).

(** Python truthiness, [bool(v)]. *)
Definition truthy (v : pyval) : bool :=
  match v with
  | PInt z => negb (z =? 0)
  | PBool b => b
  end.

(** Python [int(v)]. *)
Definition py_int (v : pyval) : Z :=
  match v with
  | PInt z => z
  | PBool b => if b then 1 else 0
  end.

Record GameState : Type := mkGameState {
  board : list Z;               (* padded with -1 *)
  street : Z;
  pot : Z;
  hero_stack : Z;
  villain_stack : Z;
  to_act : Z;
  action_history : list Z;
  meta : option (gmap string pyval)
}.

(** [pad_board]: at most five ids, padded with -1; card parsing ([cards.py])
    is done by the caller, boards are given by card ids here. *)
Definition pad_board (board_ids : list Z) : list Z :=
  board_ids ++ List.repeat (-1) (5 - length board_ids)%nat.

(** [GameState.apply_action]: append the encoded action and apply deltas.
    [action.encode()] may raise. *)
Definition GameState_apply_action (self : GameState) (action : Action)
    (pot_delta hero_stack_delta villain_stack_delta : Z) : result GameState :=
  let* enc := encode action in
  Ok {| board := board self;
        street := street self;
        pot := pot self + pot_delta;
        hero_stack := hero_stack self + hero_stack_delta;
        villain_stack := villain_stack self + villain_stack_delta;
        to_act := to_act self;
        action_history := action_history self ++ [enc];
        meta := meta self |}.

(** ** poker/engine/simple_hu_postflop.py *)

Record PublicState : Type := mkPublicState {
  gs : GameState;
  street_bet_open : bool;
  bet_by : Z;
  bet_amount : Z;
  raises_this_street : Z
}.

(** [start_postflop_state(hero_hand, flop, pot, stacks_bb, to_act)]; the
    returned [PrivateInfo] (the hero's two cards) plays no role in the
    betting and is left out. *)
Definition start_postflop_state (flop : list Z) (pot0 stacks_bb to_act0 : Z)
    : result PublicState :=
  let hero_invest := pot0 / 2 in
  let villain_invest := pot0 - hero_invest in
  let hero_stack0 := stacks_bb - hero_invest in
  let villain_stack0 := stacks_bb - villain_invest in
  if (hero_stack0 <? 0) || (villain_stack0 <? 0) then Err PotLargerThanStacks
  else
    let meta0 : gmap string pyval :=
      <["villain_invest" := PInt villain_invest]>
        (<["hero_invest" := PInt hero_invest]>
           (<["villain_start" := PInt stacks_bb]>
              (<["hero_start" := PInt stacks_bb]> ∅))) in
    Ok {| gs := {| board := pad_board flop;
                   street := Street.FLOP;
                   pot := pot0;
                   hero_stack := hero_stack0;
                   villain_stack := villain_stack0;
                   to_act := to_act0;
                   action_history := [];
                   meta := Some meta0 |};
          street_bet_open := false;
          bet_by := Player.HERO;
          bet_amount := 0;
          raises_this_street := 0 |}.

(** [gs.meta and gs.meta.get(key, False)] followed by [bool(...)]: a missing
    or empty dictionary is falsy. *)
Definition meta_flag (m : option (gmap string pyval)) (key : string) : bool :=
  match m with
  | None => false
  | Some d => if decide (d = ∅) then false
              else match d !! key with
                   | Some v => truthy v
                   | None => false
                   end
  end.

Definition is_terminal (ps : PublicState) : bool :=
  meta_flag (meta (gs ps)) "terminal".

Definition terminal_winner (ps : PublicState) : option Z :=
  if negb (is_terminal ps) then None
  else match meta (gs ps) with
       | None => None
       | Some d => if decide (d = ∅) then None
                   else match d !! "winner" with
                        | None => None
                        | Some w => Some (py_int w)
                        end
       end.

Definition legal_actions (ps : PublicState) : list Z :=
  if is_terminal ps then []
  else if negb (street_bet_open ps) then [Act.CHECK; Act.BET; Act.ALLIN]
  else
    let acts := [Act.CALL; Act.FOLD; Act.ALLIN] in
    if raises_this_street ps =? 0 then acts ++ [Act.RAISE] else acts.

Definition half_pot_bet_size (pot : Z) : Z := Z.max 1 (pot / 2).

Definition _replace_to_act (g : GameState) (to_act' : Z) : GameState :=
  {| board := board g; street := street g; pot := pot g;
     hero_stack := hero_stack g; villain_stack := villain_stack g;
     to_act := to_act';
     action_history := action_history g; meta := meta g |}.

(** [dict(gs.meta) if gs.meta else {}] *)
Definition meta_copy (m : option (gmap string pyval)) : gmap string pyval :=
  match m with
  | None => ∅
  | Some d => d
  end.

Definition _with_terminal (g : GameState) (winner : Z) : GameState :=
  {| board := board g; street := street g; pot := pot g;
     hero_stack := hero_stack g; villain_stack := villain_stack g;
     to_act := to_act g;
     action_history := action_history g;
     meta := Some (<["winner" := PInt winner]>
                     (<["terminal" := PBool true]> (meta_copy (meta g)))) |}.

Definition _advance_street (g : GameState) (next_to_act : Z) : GameState :=
  if Street.RIVER <=? street g then
    {| board := board g; street := street g; pot := pot g;
       hero_stack := hero_stack g; villain_stack := villain_stack g;
       to_act := next_to_act;
       action_history := action_history g;
       meta := Some (<["terminal" := PBool true]>
                       (<["showdown" := PBool true]> (meta_copy (meta g)))) |}
  else
    {| board := board g; street := street g + 1; pot := pot g;
       hero_stack := hero_stack g; villain_stack := villain_stack g;
       to_act := next_to_act;
       action_history := action_history g; meta := meta g |}.

(** Helpers local to [apply_action]. *)
Definition swap_player (x : Z) : Z :=
  if x =? Player.HERO then Player.VILLAIN else Player.HERO.

Definition stack_of (g : GameState) (player : Z) : Z :=
  if player =? Player.HERO then hero_stack g else villain_stack g.

Definition _apply_put_in (gs0 : GameState) (player amount a : Z) : result GameState :=
  let pot_delta := amount in
  let hero_delta := if player =? Player.HERO then - amount else 0 in
  let vill_delta := if player =? Player.VILLAIN then - amount else 0 in
  GameState_apply_action gs0 (mkAction (street gs0) player a amount)
    pot_delta hero_delta vill_delta.

(** The float test [eff / pot_after < 0.5] for integers with
    [pot_after > 0].  Python's [int / int] is the correctly rounded quotient;
    the largest float below 0.5 is [0.5 - 2^-54], and a quotient halfway
    between the two rounds to 0.5 (ties to even), so the test holds exactly
    when [eff / pot_after < 0.5 - 2^-55].  Below 2^54 chips this is the plain
    [2 * eff < pot_after] (lemma [spr_below_half_small]).  A quotient beyond
    the range of a float (about 2^1024), for which Python raises
    OverflowError, is not modelled. *)
Definition spr_below_half (eff pot_after : Z) : bool :=
  eff * 2 ^ 55 <? pot_after * (2 ^ 54 - 1).

(** [_should_shove_after_called]: [spr < 0.5] where [spr] is infinite when
    [pot_after <= 0] and [eff / pot_after] otherwise. *)
Definition _should_shove_after_called
    (pot_now hero_stack_now vill_stack_now aggressor agg_put_in caller_put_in : Z)
    : bool :=
  let hero_after :=
    hero_stack_now - (if aggressor =? Player.HERO then agg_put_in else caller_put_in) in
  let vill_after :=
    vill_stack_now - (if aggressor =? Player.VILLAIN then agg_put_in else caller_put_in) in
  let pot_after := pot_now + agg_put_in + caller_put_in in
  let eff := Z.min hero_after vill_after in
  if pot_after <=? 0 then false else spr_below_half eff pot_after.

(** [hist[-k]] for [k >= 1] on a tuple long enough. *)
Definition from_end (hist : list Z) (k : nat) : Z := nth (k - 1) (rev hist) 0.

Definition is_member (x : Z) (l : list Z) : bool := existsb (Z.eqb x) l.

(** The test made after a CHECK has been appended to the history:
      advanced = False
      if len(hist) >= 2:
          a1 = Action.decode(hist[-1]); a2 = Action.decode(hist[-2])
          if a1.act == CHECK and a2.act == CHECK
             and a1.street == a2.street == gs.street: advanced = True *)
Definition two_checks (hist : list Z) (street_now : Z) : bool :=
  if (2 <=? length hist)%nat then
    let a1 := decode (from_end hist 1) in
    let a2 := decode (from_end hist 2) in
    (a_act a1 =? Act.CHECK) && (a_act a2 =? Act.CHECK)
    && (a_street a1 =? a_street a2) && (a_street a2 =? street_now)
  else false.

Definition apply_action (ps : PublicState) (act : Z) : result PublicState :=
  let g := gs ps in
  let p := to_act g in
  if negb (is_member act (legal_actions ps)) then Err (IllegalAction act)
  else if negb (street_bet_open ps) then
    (* ---------------- no bet yet this street ---------------- *)
    if act =? Act.CHECK then
      let* gs2 := GameState_apply_action g (mkAction (street g) p Act.CHECK 0) 0 0 0 in
      let hist := action_history gs2 in
      let advanced := two_checks hist (street g) in
      if advanced then
        Ok {| gs := _advance_street gs2 Player.HERO;
              street_bet_open := false; bet_by := Player.HERO;
              bet_amount := 0; raises_this_street := 0 |}
      else
        Ok {| gs := _replace_to_act gs2 (swap_player p);
              street_bet_open := false; bet_by := Player.HERO;
              bet_amount := 0; raises_this_street := 0 |}
    else if (act =? Act.BET) || (act =? Act.ALLIN) then
      let size0 := if act =? Act.BET then half_pot_bet_size (pot g) else stack_of g p in
      let size1 := Z.min size0 (stack_of g p) in
      let caller := swap_player p in
      let call_amt := Z.min size1 (stack_of g caller) in
      let shove := (act =? Act.BET)
                   && _should_shove_after_called (pot g) (hero_stack g) (villain_stack g)
                        p size1 call_amt in
      let size := if shove then stack_of g p else size1 in
      let act' := if shove then Act.ALLIN else act in
      let* gs2 := _apply_put_in g p size act' in
      Ok {| gs := _replace_to_act gs2 (swap_player p);
            street_bet_open := true; bet_by := p;
            bet_amount := size; raises_this_street := 0 |}
    else Err UnhandledTransition
  else
    (* ---------------- facing a bet ---------------- *)
    let to_call := bet_amount ps in
    if act =? Act.FOLD then
      let* gs2 := GameState_apply_action g (mkAction (street g) p Act.FOLD 0) 0 0 0 in
      Ok {| gs := _with_terminal gs2 (swap_player p);
            street_bet_open := true; bet_by := bet_by ps;
            bet_amount := bet_amount ps;
            raises_this_street := raises_this_street ps |}
    else if act =? Act.CALL then
      let call_amt := Z.min to_call (stack_of g p) in
      let* gs2 := _apply_put_in g p call_amt Act.CALL in
      Ok {| gs := _advance_street gs2 Player.HERO;
            street_bet_open := false; bet_by := Player.HERO;
            bet_amount := 0; raises_this_street := 0 |}
    else if act =? Act.ALLIN then
      let allin_amt := stack_of g p in
      if allin_amt <=? to_call then
        let* gs2 := _apply_put_in g p allin_amt Act.CALL in
        Ok {| gs := _advance_street gs2 Player.HERO;
              street_bet_open := false; bet_by := Player.HERO;
              bet_amount := 0; raises_this_street := 0 |}
      else
        let* gs2 := _apply_put_in g p allin_amt Act.ALLIN in
        let caller := swap_player p in
        let prev_invest := to_call in
        let new_to_call := allin_amt - prev_invest in
        Ok {| gs := _replace_to_act gs2 caller;
              street_bet_open := true; bet_by := p;
              bet_amount := new_to_call; raises_this_street := 1 |}
    else if act =? Act.RAISE then
      if negb (raises_this_street ps =? 0) then Err ReRaiseNotAllowed
      else
        let raise_to := Z.min (3 * to_call) (stack_of g p) in
        let caller := swap_player p in
        let caller_extra := Z.min (Z.max 0 (raise_to - to_call)) (stack_of g caller) in
        if _should_shove_after_called (pot g) (hero_stack g) (villain_stack g)
             p raise_to caller_extra then
          let raise_to := stack_of g p in
          if raise_to <=? to_call then
            let call_amt := Z.min to_call (stack_of g p) in
            let* gs2 := _apply_put_in g p call_amt Act.CALL in
            Ok {| gs := _advance_street gs2 Player.HERO;
                  street_bet_open := false; bet_by := Player.HERO;
                  bet_amount := 0; raises_this_street := 0 |}
          else
            let* gs2 := _apply_put_in g p raise_to Act.ALLIN in
            let new_to_call := raise_to - to_call in
            Ok {| gs := _replace_to_act gs2 caller;
                  street_bet_open := true; bet_by := p;
                  bet_amount := new_to_call; raises_this_street := 1 |}
        else
          let* gs2 := _apply_put_in g p raise_to Act.RAISE in
          let new_to_call := raise_to - to_call in
          Ok {| gs := _replace_to_act gs2 (swap_player p);
                street_bet_open := true; bet_by := p;
                bet_amount := new_to_call; raises_this_street := 1 |}
    else Err UnhandledTransition.

(** Playing a sequence of actions, stopping at the first error. *)
Fixpoint play (ps : PublicState) (acts : list Z) : result PublicState :=
  match acts with
  | [] => Ok ps
  | a :: rest => let* ps' := apply_action ps a in play ps' rest
  end.


(** ** Terminal payouts *)

(** [meta[key]] on an optional dictionary; [None] when the lookup fails. *)
Definition meta_get (m : option (gmap string pyval)) (key : string) : option pyval :=
  match m with
  | None => None
  | Some d => d !! key
  end.

(** poker/ai/ismcts.py, [ISMCTS._hero_chip_ev_terminal(gs, hero_wins)]:
    hero's final stack minus [meta["hero_start"]]; [hero_wins] is
    [True], [False] or [None] (tie).  A missing "hero_start" raises
    KeyError, modelled by [None]. *)
Definition _hero_chip_ev_terminal (g : GameState) (hero_wins : option bool) : option Z :=
  match meta_get (Some (meta_copy (meta g))) "hero_start" with
  | None => None
  | Some v =>
      let hero_start := py_int v in
      let hero_final :=
        match hero_wins with
        | Some true => hero_stack g + pot g
        | Some false => hero_stack g
        | None => hero_stack g + pot g / 2
        end in
      Some (hero_final - hero_start)
  end.

Record TerminalResult : Type := mkTerminalResult {
  winner : option Z;
  ended_by_fold : bool;
  hero_stack_final : Z;
  vill_stack_final : Z;
  hero_net : Z;
  vill_net : Z
}.

(** scripts/selfplay_collect.py, [_terminal_result]: the winner is read from
    [meta["winner"]] when present, otherwise decided by the showdown
    comparison [cmp] (the external hand evaluator's [showdown_result]:
    positive when hero's hand is better, negative when worse, 0 on a tie). *)
Definition _terminal_result (ps : PublicState) (cmp : Z)
    (hero_stack_start vill_stack_start : Z) : TerminalResult :=
  let g := gs ps in
  let fold_winner :=
    match meta g with
    | None => None
    | Some d => if decide (d = ∅) then None else d !! "winner"
    end in
  let w :=
    match fold_winner with
    | Some v => Some (py_int v)
    | None => if 0 <? cmp then Some Player.HERO
              else if cmp <? 0 then Some Player.VILLAIN
              else None
    end in
  let finals :=
    match w with
    | Some x =>
        if x =? Player.HERO then (hero_stack g + pot g, villain_stack g)
        else if x =? Player.VILLAIN then (hero_stack g, villain_stack g + pot g)
        else (hero_stack g + pot g / 2, villain_stack g + (pot g - pot g / 2))
    | None => (hero_stack g + pot g / 2, villain_stack g + (pot g - pot g / 2))
    end in
  {| winner := w;
     ended_by_fold := match fold_winner with Some _ => true | None => false end;
     hero_stack_final := fst finals;
     vill_stack_final := snd finals;
     hero_net := fst finals - hero_stack_start;
     vill_net := snd finals - vill_stack_start |}.

(** ** poker/helpers/cache.py *)

(** Python floats are modelled by exact rationals: the statements about
    means below hold exactly in [Q] (up to [Qeq]) and up to rounding error in
    the floating-point code. *)
Record RolloutStats : Type := mkRolloutStats {
  rs_n : Z;
  mean_ev : Q
}.

Definition RolloutStats_new : RolloutStats := mkRolloutStats 0 0%Q.

(** [RolloutStats.update]:
      self.n += 1
      self.mean_ev += (ev - self.mean_ev) / self.n *)
Definition RolloutStats_update (s : RolloutStats) (ev : Q) : RolloutStats :=
  let n' := rs_n s + 1 in
  mkRolloutStats n' (mean_ev s + (ev - mean_ev s) / inject_Z n')%Q.

Section LRU.
Context {K : Type} `{EqDecision K}.

(** The [OrderedDict]: an association list, oldest entry first. *)
Fixpoint od_get (key : K) (od : list (K * RolloutStats)) : option RolloutStats :=
  match od with
  | [] => None
  | (k, v) :: rest => if decide (k = key) then Some v else od_get key rest
  end.

Fixpoint od_remove (key : K) (od : list (K * RolloutStats)) : list (K * RolloutStats) :=
  match od with
  | [] => []
  | (k, v) :: rest => if decide (k = key) then od_remove key rest
                      else (k, v) :: od_remove key rest
  end.

(** [od.move_to_end(key, last=True)] for a key that is present. *)
Definition move_to_end (key : K) (od : list (K * RolloutStats)) : list (K * RolloutStats) :=
  match od_get key od with
  | Some v => od_remove key od ++ [(key, v)]
  | None => od
  end.

(** [od[key] = v]: an existing key keeps its position, a new key goes last. *)
Fixpoint od_set (key : K) (v : RolloutStats) (od : list (K * RolloutStats))
    : list (K * RolloutStats) :=
  match od with
  | [] => [(key, v)]
  | (k, w) :: rest => if decide (k = key) then (k, v) :: rest
                      else (k, w) :: od_set key v rest
  end.

(** In-place mutation of the object stored under [key], if any. *)
Fixpoint od_alter (f : RolloutStats -> RolloutStats) (key : K)
    (od : list (K * RolloutStats)) : list (K * RolloutStats) :=
  match od with
  | [] => []
  | (k, w) :: rest => if decide (k = key) then (k, f w) :: rest
                      else (k, w) :: od_alter f key rest
  end.

Record LRUTranspoTable : Type := mkTable {
  capacity : Z;
  _od : list (K * RolloutStats);
  hits : Z;
  misses : Z;
  evictions : Z
}.

(** [LRUTranspoTable.__init__]: [capacity <= 0] raises ValueError ([None]). *)
Definition LRUTranspoTable_init (cap : Z) : option LRUTranspoTable :=
  if cap <=? 0 then None else Some (mkTable cap [] 0 0 0).

Definition table_len (self : LRUTranspoTable) : Z := Z.of_nat (length (_od self)).

(** [LRUTranspoTable.get] *)
Definition get (self : LRUTranspoTable) (key : K)
    : option RolloutStats * LRUTranspoTable :=
  match od_get key (_od self) with
  | None =>
      (None, mkTable (capacity self) (_od self) (hits self) (misses self + 1)
               (evictions self))
  | Some v =>
      (Some v, mkTable (capacity self) (move_to_end key (_od self))
                 (hits self + 1) (misses self) (evictions self))
  end.

(** [_evict_if_needed]:
      while len(self._od) > self.capacity:
          self._od.popitem(last=False); self.evictions += 1
    (an empty dictionary ends the loop: with the positive capacity the
    constructor enforces, the test fails before the dictionary is empty). *)
Fixpoint evict_loop (cap : Z) (od : list (K * RolloutStats)) (ev : Z)
    : list (K * RolloutStats) * Z :=
  match od with
  | [] => ([], ev)
  | _ :: rest => if cap <? Z.of_nat (length od) then evict_loop cap rest (ev + 1)
                 else (od, ev)
  end.

Definition _evict_if_needed (self : LRUTranspoTable) : LRUTranspoTable :=
  let '(od', ev') := evict_loop (capacity self) (_od self) (evictions self) in
  mkTable (capacity self) od' (hits self) (misses self) ev'.

(** [LRUTranspoTable.get_or_create] *)
Definition get_or_create (self : LRUTranspoTable) (key : K)
    : RolloutStats * LRUTranspoTable :=
  match get self key with
  | (Some v, self1) => (v, self1)
  | (None, self1) =>
      let v := RolloutStats_new in
      let od1 := od_set key v (_od self1) in
      let od2 := move_to_end key od1 in
      (v, _evict_if_needed
            (mkTable (capacity self1) od2 (hits self1) (misses self1) (evictions self1)))
  end.

(** [LRUTranspoTable.update]: [v = self.get_or_create(key); v.update(ev)].
    The object [v] is the one stored in the table (when it is still there),
    so the mutation is visible through the table. *)
Definition update (self : LRUTranspoTable) (key : K) (ev : Q)
    : RolloutStats * LRUTranspoTable :=
  let '(v, self1) := get_or_create self key in
  (RolloutStats_update v ev,
   mkTable (capacity self1) (od_alter (fun s => RolloutStats_update s ev) key (_od self1))
     (hits self1) (misses self1) (evictions self1)).

(** Operations a client issues on the table. *)
Inductive cache_op : Type :=
| OpGet (key : K)
| OpGetOrCreate (key : K)
| OpUpdate (key : K) (ev : Q).

Definition op_key (o : cache_op) : K :=
  match o with
  | OpGet k => k
  | OpGetOrCreate k => k
  | OpUpdate k _ => k
  end.

Definition cache_step (self : LRUTranspoTable) (o : cache_op) : LRUTranspoTable :=
  match o with
  | OpGet k => snd (get self k)
  | OpGetOrCreate k => snd (get_or_create self k)
  | OpUpdate k ev => snd (update self k ev)
  end.

Definition cache_run (self : LRUTranspoTable) (ops : list cache_op) : LRUTranspoTable :=
  fold_left cache_step ops self.

End LRU.

(** ** poker/ai/infoset.py: bandit statistics and UCB selection *)

(** Returns are Python floats; they are modelled by real numbers, with
    [math.log] and [math.sqrt] as [ln] and [sqrt] on their domains. *)
Record InfoNode : Type := mkInfoNode {
  node_n : Z;
  na : gmap Z Z;
  wa : gmap Z R
}.

Definition InfoNode_new : InfoNode := mkInfoNode 0 ∅ ∅.

(** [InfoNode.ensure_actions]: a missing action gets count 0 and return 0.0. *)
Definition ensure_actions (node : InfoNode) (acts : list Z) : InfoNode :=
  fold_left
    (fun nd a =>
       match na nd !! a with
       | Some _ => nd
       | None => mkInfoNode (node_n nd) (<[a := 0]> (na nd)) (<[a := 0%R]> (wa nd))
       end)
    acts node.

(** [node.na[a]] for an action known to the node (0 stands for a missing
    key, which [ensure_actions] rules out where this is used). *)
Definition visits (node : InfoNode) (a : Z) : Z :=
  match na node !! a with
  | Some k => k
  | None => 0
  end.

(** The initial [best_s = -1e100] (the float nearest to it, read as 10^100). *)
Definition best_s_init : R := (- 10 ^ 100)%R.

(** [mean + bonus] for one action, given [w = node.wa[a]]. *)
Definition ucb_value (node : InfoNode) (exploration_c logN w : R) (a : Z) : R :=
  (w / IZR (visits node a)
   + exploration_c * sqrt (logN / IZR (visits node a)))%R.

(** The second loop of [ucb_select_action]. *)
Fixpoint ucb_loop (node : InfoNode) (exploration_c logN : R) (acts : list Z)
    (best_a : option Z) (best_s : R) : result (option Z) :=
  match acts with
  | [] => Ok best_a
  | a :: rest =>
      match wa node !! a with
      | None => Err KeyError
      | Some w =>
          if Rlt_dec (logN / IZR (visits node a)) 0 then Err MathDomainError
          else
            let s := ucb_value node exploration_c logN w a in
            if Rgt_dec s best_s then ucb_loop node exploration_c logN rest (Some a) s
            else ucb_loop node exploration_c logN rest best_a best_s
      end
  end.

(** [ucb_select_action(node, acts, exploration_c)]; the node comes back
    with the actions [ensure_actions] added. *)
Definition ucb_select_action (node : InfoNode) (acts : list Z) (exploration_c : R)
    : result Z * InfoNode :=
  let node1 := ensure_actions node acts in
  match List.find (fun a => visits node1 a =? 0) acts with
  | Some a => (Ok a, node1)
  | None =>
      if Rle_dec (IZR (node_n node1) + 1) 0 then (Err MathDomainError, node1)
      else
        let logN := ln (IZR (node_n node1) + 1) in
        match ucb_loop node1 exploration_c logN acts None best_s_init with
        | Err e => (Err e, node1)
        | Ok None => (Err AssertionFailed, node1)
        | Ok (Some a) => (Ok a, node1)
        end
  end.

(** poker/ai/ismcts.py, [ISMCTS._iterate], the statistics update after an
    action [a] returned value [v]:
      node.n += 1; node.na[a] += 1; node.wa[a] += v
    (the node has been through [ensure_actions], so both keys exist). *)
Definition node_update (node : InfoNode) (a : Z) (v : R) : InfoNode :=
  mkInfoNode (node_n node + 1)
    (<[a := visits node a + 1]> (na node))
    (<[a := (match wa node !! a with Some w => w | None => 0 end + v)%R]> (wa node)).

(** Selecting with [ucb_select_action] and updating, once per value of
    [vs]; stops at the first error. *)
Fixpoint select_rounds (node : InfoNode) (acts : list Z) (exploration_c : R)
    (vs : list R) : list (result Z) * InfoNode :=
  match vs with
  | [] => ([], node)
  | v :: rest =>
      match ucb_select_action node acts exploration_c with
      | (Ok a, node1) =>
          let '(rs, node') := select_rounds (node_update node1 a v) acts exploration_c rest in
          (Ok a :: rs, node')
      | (Err e, node1) => ([Err e], node1)
      end
  end.

(** ** poker/ai/belief.py: opponent range and its update from history *)

Definition Hand : Type := (Z * Z)%type.

(** A range is a dictionary from hands to weights, in insertion order.
    Weights are Python floats, modelled by exact rationals. *)
Definition Range : Type := list (Hand * Q).

(** [abstraction.BIT.get(name)]: the bit position of each of the 26 named
    features (board texture at bits 0-11, made hands at 16-24, draws at
    28-32), [None] for any other name. *)
Definition BIT (name : string) : option Z :=
  if String.eqb name "paired_board" then Some 0
  else if String.eqb name "trips_on_board" then Some 1
  else if String.eqb name "flush_available" then Some 2
  else if String.eqb name "flush_draw_available" then Some 3
  else if String.eqb name "straight_available" then Some 4
  else if String.eqb name "straight_draw_available" then Some 5
  else if String.eqb name "ace_high_board" then Some 6
  else if String.eqb name "king_high_board" then Some 7
  else if String.eqb name "queen_high_board" then Some 8
  else if String.eqb name "ten_high_or_lower_board" then Some 9
  else if String.eqb name "monotone_flop" then Some 10
  else if String.eqb name "two_tone_flop" then Some 11
  else if String.eqb name "top_pair" then Some 16
  else if String.eqb name "middle_pair" then Some 17
  else if String.eqb name "bottom_pair" then Some 18
  else if String.eqb name "overpair" then Some 19
  else if String.eqb name "underpair" then Some 20
  else if String.eqb name "two_overcards" then Some 21
  else if String.eqb name "one_overcard" then Some 22
  else if String.eqb name "made_two_pair_or_better" then Some 23
  else if String.eqb name "made_trips_or_better" then Some 24
  else if String.eqb name "has_flush_draw" then Some 28
  else if String.eqb name "has_straight_draw" then Some 29
  else if String.eqb name "is_oesd" then Some 30
  else if String.eqb name "is_gutshot" then Some 31
  else if String.eqb name "combo_draw" then Some 32
  else None.

Definition _has (mask : Z) (name : string) : bool :=
  match BIT name with
  | None => false
  | Some b => Z.land (Z.shiftr mask b) 1 =? 1
  end.

(** [id_to_card] accepts ids 0..51 only. *)
Definition valid_card_id (cid : Z) : bool := (0 <=? cid) && (cid <? 52).

(** [_remaining_deck_ids(exclude_ids)]: [make_deck] lists the cards rank by
    rank and suit by suit, i.e. by increasing id. *)
Definition _remaining_deck_ids (exclude_ids : list Z) : result (list Z) :=
  if forallb valid_card_id exclude_ids
  then Ok (List.filter (fun c => negb (is_member c exclude_ids))
             (map Z.of_nat (seq 0 52)))
  else Err CardIdOutOfRange.

(** [Python round(x)] on a rational: to the nearest integer, ties to even. *)
Definition py_round (q : Q) : Z :=
  let f := Qfloor q in
  match Qcompare (q - inject_Z f) (1 # 2) with
  | Lt => f
  | Gt => f + 1
  | Eq => if Z.even f then f else f + 1
  end.

(** [ACTION_TOP_FRAC.get(act, None)] *)
Definition ACTION_TOP_FRAC (act : Z) : option Q :=
  if act =? Act.BET then Some (80 # 100)
  else if act =? Act.RAISE then Some (30 # 100)
  else if act =? Act.ALLIN then Some (10 # 100)
  else None.

(** [OUTSIDE_MULT.get(act, 0.25)] *)
Definition OUTSIDE_MULT (act : Z) : Q :=
  if act =? Act.BET then 1
  else if act =? Act.RAISE then 8 # 10
  else if act =? Act.ALLIN then 2 # 10
  else 25 # 100.

Definition hand_eqb (h1 h2 : Hand) : bool :=
  (fst h1 =? fst h2) && (snd h1 =? snd h2).

Fixpoint range_sum (r : Range) : Q :=
  match r with
  | [] => 0
  | (_, w) :: rest => w + range_sum rest
  end.

(** [_renormalize] *)
Definition _renormalize (r : Range) : Range :=
  let s := range_sum r in
  if Qle_bool s 0 then r
  else let inv := (1 / s)%Q in map (fun '(h, w) => (h, (w * inv)%Q)) r.

(** All pairs [(deck[i], deck[j])] with [i < j], in the order of the two
    nested loops of [build_uniform_range]. *)
Fixpoint all_pairs (deck : list Z) : list Hand :=
  match deck with
  | [] => []
  | c :: rest => map (fun d => (c, d)) rest ++ all_pairs rest
  end.

Section Belief.
(** The feature extractor [compute_feature_mask(hand, board)] is an
    external collaborator (features.py, draws.py, texture.py, evaluator.py):
    the update only uses the integer it returns. *)
Variable compute_feature_mask : Hand -> list Z -> Z.

(** [bucket_score] *)
Definition bucket_score (g : GameState) (hand : Hand) : Z :=
  let mask := compute_feature_mask hand (board g) in
  (if _has mask "made_trips_or_better" then 500 else 0)
  + (if _has mask "made_two_pair_or_better" then 350 else 0)
  + (if _has mask "overpair" then 250 else 0)
  + (if _has mask "top_pair" then 200 else 0)
  + (if _has mask "middle_pair" then 120 else 0)
  + (if _has mask "bottom_pair" then 80 else 0)
  + (if _has mask "underpair" then 60 else 0)
  + (if _has mask "combo_draw" then 160 else 0)
  + (if _has mask "has_flush_draw" then 90 else 0)
  + (if _has mask "has_straight_draw" then 70 else 0)
  + (if _has mask "two_overcards" then 40 else 0)
  + (if _has mask "one_overcard" then 20 else 0).

(** [build_uniform_range] *)
Definition build_uniform_range (g : GameState) (my_hand_ids : Hand) : result Range :=
  let known := [fst my_hand_ids; snd my_hand_ids]
               ++ List.filter (fun cid => negb (cid =? -1)) (board g) in
  let* deck_ids := _remaining_deck_ids known in
  Ok (map (fun h => (h, 1%Q)) (all_pairs deck_ids)).

(** [items.sort(key=lambda t: t[2], reverse=True)]: a stable sort by
    decreasing score (entries with equal scores keep their order). *)
Fixpoint insert_desc (score : Hand -> Z) (x : Hand * Q) (l : Range) : Range :=
  match l with
  | [] => [x]
  | y :: rest => if score (fst y) <=? score (fst x) then x :: y :: rest
                 else y :: insert_desc score x rest
  end.

Fixpoint sort_desc (score : Hand -> Z) (l : Range) : Range :=
  match l with
  | [] => []
  | x :: rest => insert_desc score x (sort_desc score rest)
  end.

(** [cutoff_idx = max(1, int(round(top_frac * n)))].  The fractions are the
    decimal constants 0.80, 0.30, 0.10; for the range sizes that occur
    (n <= 1326) the float product is either at least 0.1 away from a tie or
    rounds to the tie exactly, so rounding the exact product to even gives
    the integer the float computation gives. *)
Definition cutoff_idx (top_frac : Q) (n : nat) : nat :=
  Z.to_nat (Z.max 1 (py_round (top_frac * inject_Z (Z.of_nat n)))).

(** [_apply_action_update] *)
Definition _apply_action_update (g : GameState) (r : Range) (act : Z) : Range :=
  match ACTION_TOP_FRAC act with
  | None => r
  | Some top_frac =>
      let items := sort_desc (bucket_score g) r in
      let n := length items in
      if (n =? 0)%nat then r
      else
        let top_set := map fst (take (cutoff_idx top_frac n) items) in
        let outside_mult := OUTSIDE_MULT act in
        _renormalize
          (map (fun '(h, w) =>
                  if existsb (hand_eqb h) top_set then (h, (w * 1)%Q)
                  else (h, (w * outside_mult)%Q))
             items)
  end.

(** [range_from_history_weighted] *)
Definition range_from_history_weighted (g : GameState) (my_hand_ids : Hand)
    : result Range :=
  let* r0 := build_uniform_range g my_hand_ids in
  let r := fold_left
             (fun r enc =>
                let a := decode enc in
                if negb (a_player a =? Player.VILLAIN) then r
                else _apply_action_update g r (a_act a))
             (action_history g) (_renormalize r0) in
  Ok (_renormalize r).

End Belief.

(** * Properties *)

(** ** Action codec *)

(** A field placed above bit [k] never overlaps a value below [2^k]. *)
Lemma lor_shifted_low hi k lo :
  0 <= k -> 0 <= lo < 2 ^ k -> Z.lor (hi * 2 ^ k) lo = hi * 2 ^ k + lo.
Proof.
  intros Hk Hlo. rewrite <- Z.shiftl_mul_pow2 by lia.
  assert (Hdisj : Z.land (Z.shiftl hi k) lo = 0).
  { apply Z.bits_inj'. intros n Hn. rewrite Z.land_spec, Z.bits_0.
    destruct (Z.lt_ge_cases n k).
    - rewrite Z.shiftl_spec_low by lia. reflexivity.
    - rewrite <- (Z.mod_small lo (2 ^ k)) by lia.
      rewrite Z.mod_pow2_bits_high by lia. apply andb_false_r. }
  rewrite <- Z.lxor_lor by exact Hdisj.
  symmetry. apply Z.add_nocarry_lxor. exact Hdisj.
Qed.

(** The packed word as a positional sum, for fields within their widths. *)
Lemma encode_in_range_sum s p a m :
  0 <= s < 4 -> 0 <= p < 64 -> 0 <= a < 8 -> 0 <= m < 2 ^ 21 ->
  encode (mkAction s p a m) = Ok (s * 2 ^ 30 + p * 2 ^ 24 + a * 2 ^ 21 + m).
Proof.
  intros Hs Hp Ha Hm. unfold encode. cbn [a_street a_player a_act a_amount].
  replace (Z.shiftl 1 21) with (2 ^ 21) by reflexivity.
  destruct (Z.ltb_spec m 0); [lia|].
  destruct (Z.leb_spec (2 ^ 21) m); [lia|]. cbn [orb]. f_equal.
  change 3 with (Z.ones 2). change 63 with (Z.ones 6). change 7 with (Z.ones 3).
  change (2 ^ 21 - 1) with (Z.ones 21).
  rewrite !Z.land_ones by lia.
  rewrite (Z.mod_small s), (Z.mod_small p), (Z.mod_small a), (Z.mod_small m)
    by (simpl; lia).
  rewrite !Z.shiftl_mul_pow2 by lia.
  pose proof lor_shifted_low as Hlor.
  rewrite (Hlor s 30 (p * 2 ^ 24)) by lia.
  replace (s * 2 ^ 30 + p * 2 ^ 24) with ((s * 2 ^ 6 + p) * 2 ^ 24) by lia.
  rewrite (Hlor _ 24 (a * 2 ^ 21)) by lia.
  replace ((s * 2 ^ 6 + p) * 2 ^ 24 + a * 2 ^ 21)
    with (((s * 2 ^ 6 + p) * 2 ^ 3 + a) * 2 ^ 21) by lia.
  rewrite (Hlor _ 21 m) by lia. lia.
Qed.

Lemma decode_sum s p a m :
  0 <= s < 4 -> 0 <= p < 64 -> 0 <= a < 8 -> 0 <= m < 2 ^ 21 ->
  decode (s * 2 ^ 30 + p * 2 ^ 24 + a * 2 ^ 21 + m) = mkAction s p a m.
Proof.
  intros Hs Hp Ha Hm. unfold decode.
  change 3 with (Z.ones 2). change 63 with (Z.ones 6). change 7 with (Z.ones 3).
  change (Z.shiftl 1 21 - 1) with (Z.ones 21).
  rewrite !Z.land_ones, !Z.shiftr_div_pow2 by lia.
  f_equal.
  - replace (s * 2 ^ 30 + p * 2 ^ 24 + a * 2 ^ 21 + m)
      with (s * 2 ^ 30 + (p * 2 ^ 24 + a * 2 ^ 21 + m)) by lia.
    rewrite Z.div_add_l by lia.
    rewrite (Z.div_small (p * 2 ^ 24 + a * 2 ^ 21 + m)) by lia.
    rewrite Z.add_0_r. apply Z.mod_small. simpl; lia.
  - replace (s * 2 ^ 30 + p * 2 ^ 24 + a * 2 ^ 21 + m)
      with ((s * 2 ^ 6 + p) * 2 ^ 24 + (a * 2 ^ 21 + m)) by lia.
    rewrite Z.div_add_l by lia.
    rewrite (Z.div_small (a * 2 ^ 21 + m)) by lia.
    rewrite Z.add_0_r. change (2 ^ 6) with 64.
    rewrite Z.add_comm, Z.mod_add by lia. apply Z.mod_small. lia.
  - replace (s * 2 ^ 30 + p * 2 ^ 24 + a * 2 ^ 21 + m)
      with ((s * 2 ^ 9 + p * 2 ^ 3 + a) * 2 ^ 21 + m) by lia.
    rewrite Z.div_add_l by lia.
    rewrite (Z.div_small m) by lia.
    rewrite Z.add_0_r. change (2 ^ 3) with 8.
    replace (s * 2 ^ 9 + p * 8 + a) with (a + (s * 2 ^ 6 + p) * 8) by lia.
    rewrite Z.mod_add by lia. apply Z.mod_small. lia.
  - replace (s * 2 ^ 30 + p * 2 ^ 24 + a * 2 ^ 21 + m)
      with (m + (s * 2 ^ 9 + p * 2 ^ 3 + a) * 2 ^ 21) by lia.
    rewrite Z.mod_add by lia. apply Z.mod_small. lia.
Qed.

(** [decode] after [encode] returns the fields masked to their widths. *)
Lemma decode_encode_masked s p a m :
  0 <= m < 2 ^ 21 ->
  exists x, encode (mkAction s p a m) = Ok x
            /\ decode x = mkAction (Z.land s 3) (Z.land p 63) (Z.land a 7) m.
Proof.
  intros Hm.
  assert (Hs : 0 <= Z.land s 3 < 4).
  { change 3 with (Z.ones 2). rewrite Z.land_ones by lia.
    apply Z.mod_pos_bound. reflexivity. }
  assert (Hp : 0 <= Z.land p 63 < 64).
  { change 63 with (Z.ones 6). rewrite Z.land_ones by lia.
    apply Z.mod_pos_bound. reflexivity. }
  assert (Ha : 0 <= Z.land a 7 < 8).
  { change 7 with (Z.ones 3). rewrite Z.land_ones by lia.
    apply Z.mod_pos_bound. reflexivity. }
  pose proof (encode_in_range_sum _ _ _ _ Hs Hp Ha Hm) as He.
  eexists. split; [|apply (decode_sum _ _ _ _ Hs Hp Ha Hm)].
  rewrite <- He. unfold encode. cbn [a_street a_player a_act a_amount].
  rewrite <- !Z.land_assoc, !Z.land_diag. reflexivity.
Qed.

Lemma encode_error_iff a :
  (exists e, encode a = Err e) <-> (a_amount a < 0 \/ 2 ^ 21 <= a_amount a).
Proof.
  unfold encode. replace (Z.shiftl 1 21) with (2 ^ 21) by reflexivity.
  destruct (Z.ltb_spec (a_amount a) 0), (Z.leb_spec (2 ^ 21) (a_amount a));
    cbn [orb]; split; intros H'; try lia; try (eexists; reflexivity);
    destruct H' as [e He]; discriminate.
Qed.

Lemma encode_cases a :
  encode a = Err AmountOutOfRange \/ exists x, encode a = Ok x.
Proof.
  unfold encode. destruct (_ || _); [left|right; eexists]; reflexivity.
Qed.

(** C9. For every Action whose fields lie in their packed widths (street
    0..3, player 0..63, act 0..7, amount 0..2097151), [encode] succeeds and
    [decode] returns the same Action; and for every Action, [encode] raises
    exactly when the amount is negative or at least 2^21 (the error being
    the amount-range error). *)
Theorem action_codec_roundtrip :
  (forall s p a m,
      0 <= s <= 3 -> 0 <= p <= 63 -> 0 <= a <= 7 -> 0 <= m <= 2097151 ->
      exists x, encode (mkAction s p a m) = Ok x /\ decode x = mkAction s p a m)
  /\ (forall a, (exists e, encode a = Err e)
                <-> (a_amount a < 0 \/ 2097152 <= a_amount a))
  /\ (forall a e, encode a = Err e -> e = AmountOutOfRange).
Proof.
  split; [|split].
  - intros s p a m Hs Hp Ha Hm.
    exists (s * 2 ^ 30 + p * 2 ^ 24 + a * 2 ^ 21 + m). split.
    + apply encode_in_range_sum; lia.
    + apply decode_sum; lia.
  - intros a. rewrite encode_error_iff. change (2 ^ 21) with 2097152. reflexivity.
  - intros a e He. destruct (encode_cases a) as [H|[x H]]; congruence.
Qed.

Lemma action_codec_roundtrip_witness :
  exists x, encode (mkAction Street.FLOP Player.VILLAIN Act.RAISE 150) = Ok x
            /\ decode x = mkAction Street.FLOP Player.VILLAIN Act.RAISE 150.
Proof.
  apply (proj1 action_codec_roundtrip); unfold Street.FLOP, Player.VILLAIN, Act.RAISE; lia.
Defined.

(** ** Betting state machine *)

Lemma is_member_In x l : is_member x l = true <-> In x l.
Proof.
  unfold is_member. rewrite existsb_exists. split.
  - intros [y [Hy Heq]]. apply Z.eqb_eq in Heq. subst. exact Hy.
  - intros H. exists x. split; [exact H|apply Z.eqb_refl].
Qed.

(** C1. In a non-terminal state with no open bet the legal actions are
    exactly CHECK, BET, ALLIN; with an open bet they are exactly CALL, FOLD,
    ALLIN, together with RAISE if and only if [raises_this_street] is 0. *)
Theorem legal_actions_spec (ps : PublicState) :
  is_terminal ps = false ->
  (street_bet_open ps = false ->
     legal_actions ps = [Act.CHECK; Act.BET; Act.ALLIN])
  /\ (street_bet_open ps = true ->
        legal_actions ps
        = [Act.CALL; Act.FOLD; Act.ALLIN]
            ++ (if raises_this_street ps =? 0 then [Act.RAISE] else [])
        /\ In Act.CALL (legal_actions ps)
        /\ In Act.FOLD (legal_actions ps)
        /\ In Act.ALLIN (legal_actions ps)
        /\ ~ In Act.CHECK (legal_actions ps)
        /\ ~ In Act.BET (legal_actions ps)
        /\ (In Act.RAISE (legal_actions ps) <-> raises_this_street ps = 0)).
Proof.
  intros Hnt. unfold legal_actions. rewrite Hnt. split; intros Hopen; rewrite Hopen; cbn [negb].
  - reflexivity.
  - destruct (Z.eqb_spec (raises_this_street ps) 0) as [Hz|Hz];
      unfold Act.CALL, Act.FOLD, Act.ALLIN, Act.RAISE, Act.CHECK, Act.BET;
      cbn [app In]; repeat split; try tauto; try lia; intros; try lia.
Qed.

Lemma legal_actions_spec_witness :
  exists ps, is_terminal ps = false
             /\ street_bet_open ps = true
             /\ raises_this_street ps = 1
             /\ legal_actions ps = [Act.CALL; Act.FOLD; Act.ALLIN]
             /\ ~ In Act.RAISE (legal_actions ps).
Proof.
  exists {| gs := mkGameState [45; 22; 1; -1; -1] Street.FLOP 9 90 80 Player.HERO [] None;
            street_bet_open := true; bet_by := Player.VILLAIN;
            bet_amount := 10; raises_this_street := 1 |}.
  assert (Hnt : is_terminal
            {| gs := mkGameState [45; 22; 1; -1; -1] Street.FLOP 9 90 80 Player.HERO [] None;
               street_bet_open := true; bet_by := Player.VILLAIN;
               bet_amount := 10; raises_this_street := 1 |} = false) by reflexivity.
  destruct (legal_actions_spec _ Hnt) as [_ Hopen].
  destruct (Hopen eq_refl) as (Heq & _ & _ & _ & _ & _ & Hraise).
  split; [exact Hnt|]. split; [reflexivity|]. split; [reflexivity|].
  split; [exact Heq|].
  intros Hin. apply Hraise in Hin. discriminate.
Defined.

Lemma legal_actions_inv ps a :
  In a (legal_actions ps) ->
  is_terminal ps = false
  /\ ((street_bet_open ps = false /\ (a = Act.CHECK \/ a = Act.BET \/ a = Act.ALLIN))
      \/ (street_bet_open ps = true
          /\ (a = Act.CALL \/ a = Act.FOLD \/ a = Act.ALLIN
              \/ (a = Act.RAISE /\ raises_this_street ps = 0)))).
Proof.
  unfold legal_actions. destruct (is_terminal ps); [intros []|].
  destruct (street_bet_open ps); cbn [negb].
  - destruct (Z.eqb_spec (raises_this_street ps) 0); cbn [app In]; intuition.
  - cbn [In]. intuition.
Qed.

(** *** The transition, branch by branch *)

Lemma apply_action_CHECK ps :
  is_terminal ps = false -> street_bet_open ps = false ->
  apply_action ps Act.CHECK =
  let g := gs ps in
  let* gs2 := GameState_apply_action g (mkAction (street g) (to_act g) Act.CHECK 0) 0 0 0 in
  if two_checks (action_history gs2) (street g) then
    Ok (mkPublicState (_advance_street gs2 Player.HERO) false Player.HERO 0 0)
  else
    Ok (mkPublicState (_replace_to_act gs2 (swap_player (to_act g))) false Player.HERO 0 0).
Proof.
  intros Hnt Hop. unfold apply_action, legal_actions. rewrite Hnt, Hop. reflexivity.
Qed.

Lemma apply_action_BET ps :
  is_terminal ps = false -> street_bet_open ps = false ->
  apply_action ps Act.BET =
  let g := gs ps in
  let p := to_act g in
  let size1 := Z.min (half_pot_bet_size (pot g)) (stack_of g p) in
  let call_amt := Z.min size1 (stack_of g (swap_player p)) in
  if _should_shove_after_called (pot g) (hero_stack g) (villain_stack g) p size1 call_amt
  then
    let* gs2 := _apply_put_in g p (stack_of g p) Act.ALLIN in
    Ok (mkPublicState (_replace_to_act gs2 (swap_player p)) true p (stack_of g p) 0)
  else
    let* gs2 := _apply_put_in g p size1 Act.BET in
    Ok (mkPublicState (_replace_to_act gs2 (swap_player p)) true p size1 0).
Proof.
  intros Hnt Hop. unfold apply_action, legal_actions. rewrite Hnt, Hop.
  cbn [negb is_member existsb]. change (Act.BET =? Act.BET) with true.
  change (Act.BET =? Act.CHECK) with false.
  cbn [orb negb andb]. cbv zeta.
  destruct (_should_shove_after_called _ _ _ _ _ _); reflexivity.
Qed.

Lemma apply_action_ALLIN_open ps :
  is_terminal ps = false -> street_bet_open ps = false ->
  apply_action ps Act.ALLIN =
  let g := gs ps in
  let p := to_act g in
  let* gs2 := _apply_put_in g p (stack_of g p) Act.ALLIN in
  Ok (mkPublicState (_replace_to_act gs2 (swap_player p)) true p (stack_of g p) 0).
Proof.
  intros Hnt Hop. unfold apply_action, legal_actions. rewrite Hnt, Hop.
  cbn [negb is_member existsb]. change (Act.ALLIN =? Act.ALLIN) with true.
  change (Act.ALLIN =? Act.CHECK) with false. change (Act.ALLIN =? Act.BET) with false.
  cbn [orb negb andb]. cbv zeta. rewrite Z.min_id. reflexivity.
Qed.

Lemma legal_when_bet_open ps a :
  is_terminal ps = false -> street_bet_open ps = true ->
  a = Act.CALL \/ a = Act.FOLD \/ a = Act.ALLIN
  \/ (a = Act.RAISE /\ raises_this_street ps = 0) ->
  is_member a (legal_actions ps) = true.
Proof.
  intros Hnt Hop Ha. apply is_member_In. unfold legal_actions.
  rewrite Hnt, Hop. cbn [negb].
  destruct Ha as [-> | [-> | [-> | [-> Hr]]]].
  1-3: destruct (raises_this_street ps =? 0); cbn [app In]; auto 10.
  rewrite Hr. cbn [Z.eqb app In]. auto 10.
Qed.

Lemma apply_action_FOLD ps :
  is_terminal ps = false -> street_bet_open ps = true ->
  apply_action ps Act.FOLD =
  let g := gs ps in
  let* gs2 := GameState_apply_action g (mkAction (street g) (to_act g) Act.FOLD 0) 0 0 0 in
  Ok (mkPublicState (_with_terminal gs2 (swap_player (to_act g))) true
        (bet_by ps) (bet_amount ps) (raises_this_street ps)).
Proof.
  intros Hnt Hop. unfold apply_action.
  rewrite (legal_when_bet_open ps Act.FOLD Hnt Hop) by tauto.
  rewrite Hop. reflexivity.
Qed.

Lemma apply_action_CALL ps :
  is_terminal ps = false -> street_bet_open ps = true ->
  apply_action ps Act.CALL =
  let g := gs ps in
  let p := to_act g in
  let* gs2 := _apply_put_in g p (Z.min (bet_amount ps) (stack_of g p)) Act.CALL in
  Ok (mkPublicState (_advance_street gs2 Player.HERO) false Player.HERO 0 0).
Proof.
  intros Hnt Hop. unfold apply_action.
  rewrite (legal_when_bet_open ps Act.CALL Hnt Hop) by tauto.
  rewrite Hop. reflexivity.
Qed.

Lemma apply_action_ALLIN_facing ps :
  is_terminal ps = false -> street_bet_open ps = true ->
  apply_action ps Act.ALLIN =
  let g := gs ps in
  let p := to_act g in
  if stack_of g p <=? bet_amount ps then
    let* gs2 := _apply_put_in g p (stack_of g p) Act.CALL in
    Ok (mkPublicState (_advance_street gs2 Player.HERO) false Player.HERO 0 0)
  else
    let* gs2 := _apply_put_in g p (stack_of g p) Act.ALLIN in
    Ok (mkPublicState (_replace_to_act gs2 (swap_player p)) true p
          (stack_of g p - bet_amount ps) 1).
Proof.
  intros Hnt Hop. unfold apply_action.
  rewrite (legal_when_bet_open ps Act.ALLIN Hnt Hop) by tauto.
  rewrite Hop. reflexivity.
Qed.

Lemma apply_action_RAISE ps :
  is_terminal ps = false -> street_bet_open ps = true ->
  raises_this_street ps = 0 ->
  apply_action ps Act.RAISE =
  let g := gs ps in
  let p := to_act g in
  let to_call := bet_amount ps in
  let raise_to := Z.min (3 * to_call) (stack_of g p) in
  let caller_extra := Z.min (Z.max 0 (raise_to - to_call)) (stack_of g (swap_player p)) in
  if _should_shove_after_called (pot g) (hero_stack g) (villain_stack g) p raise_to caller_extra
  then
    if stack_of g p <=? to_call then
      let* gs2 := _apply_put_in g p (Z.min to_call (stack_of g p)) Act.CALL in
      Ok (mkPublicState (_advance_street gs2 Player.HERO) false Player.HERO 0 0)
    else
      let* gs2 := _apply_put_in g p (stack_of g p) Act.ALLIN in
      Ok (mkPublicState (_replace_to_act gs2 (swap_player p)) true p
            (stack_of g p - to_call) 1)
  else
    let* gs2 := _apply_put_in g p raise_to Act.RAISE in
    Ok (mkPublicState (_replace_to_act gs2 (swap_player p)) true p (raise_to - to_call) 1).
Proof.
  intros Hnt Hop Hr. unfold apply_action.
  rewrite (legal_when_bet_open ps Act.RAISE Hnt Hop) by tauto.
  rewrite Hop, Hr. reflexivity.
Qed.

Lemma bind_put_in_result g p amt a (k : GameState -> PublicState) :
  (exists ps', (let* gs2 := _apply_put_in g p amt a in Ok (k gs2)) = Ok ps')
  \/ (let* gs2 := _apply_put_in g p amt a in Ok (k gs2)) = Err AmountOutOfRange.
Proof.
  unfold _apply_put_in, GameState_apply_action.
  destruct (encode_cases (mkAction (street g) p a amt)) as [H|[x H]];
    rewrite H; cbn [bind]; eauto.
Qed.

(** A legal action either succeeds or fails with the encoding-range error:
    the re-raise and unhandled-transition errors are unreachable. *)
Lemma apply_action_legal_result ps a :
  In a (legal_actions ps) ->
  (exists ps', apply_action ps a = Ok ps') \/ apply_action ps a = Err AmountOutOfRange.
Proof.
  intros Hin. apply legal_actions_inv in Hin.
  destruct Hin as [Hnt [[Hop Ha]|[Hop Ha]]].
  - destruct Ha as [-> | [-> | ->]].
    + rewrite apply_action_CHECK by assumption. cbv zeta.
      unfold GameState_apply_action.
      destruct (encode_cases (mkAction (street (gs ps)) (to_act (gs ps)) Act.CHECK 0))
        as [H|[x H]]; rewrite H; cbn [bind]; [eauto|].
      destruct (two_checks _ _); eauto.
    + rewrite apply_action_BET by assumption. cbv zeta.
      destruct (_should_shove_after_called _ _ _ _ _ _);
        apply (bind_put_in_result _ _ _ _ (fun gs2 => mkPublicState _ _ _ _ _)).
    + rewrite apply_action_ALLIN_open by assumption. cbv zeta.
      apply (bind_put_in_result _ _ _ _ (fun gs2 => mkPublicState _ _ _ _ _)).
  - destruct Ha as [-> | [-> | [-> | [-> Hr]]]].
    + rewrite apply_action_CALL by assumption. cbv zeta.
      apply (bind_put_in_result _ _ _ _ (fun gs2 => mkPublicState _ _ _ _ _)).
    + rewrite apply_action_FOLD by assumption. cbv zeta.
      unfold GameState_apply_action.
      destruct (encode_cases (mkAction (street (gs ps)) (to_act (gs ps)) Act.FOLD 0))
        as [H|[x H]]; rewrite H; cbn [bind]; eauto.
    + rewrite apply_action_ALLIN_facing by assumption. cbv zeta.
      destruct (_ <=? _);
        apply (bind_put_in_result _ _ _ _ (fun gs2 => mkPublicState _ _ _ _ _)).
    + rewrite apply_action_RAISE by assumption. cbv zeta.
      destruct (_should_shove_after_called _ _ _ _ _ _); [destruct (_ <=? _)|];
        apply (bind_put_in_result _ _ _ _ (fun gs2 => mkPublicState _ _ _ _ _)).
Qed.

(** C2. [apply_action] raises the illegal-action error exactly when the
    action is not in [legal_actions]; an illegal action never yields a
    successor state; a legal action can only fail with the amount-range
    error of the codec.  The transition is a function of its arguments and
    builds a new record, so the input state is untouched on failure. *)
Theorem apply_action_illegal_iff (ps : PublicState) (a : Z) :
  (apply_action ps a = Err (IllegalAction a) <-> ~ In a (legal_actions ps))
  /\ ((exists a', apply_action ps a = Err (IllegalAction a')) <-> ~ In a (legal_actions ps))
  /\ (~ In a (legal_actions ps) -> forall ps', apply_action ps a <> Ok ps')
  /\ (In a (legal_actions ps) ->
        (exists ps', apply_action ps a = Ok ps')
        \/ apply_action ps a = Err AmountOutOfRange).
Proof.
  assert (Hill : ~ In a (legal_actions ps) -> apply_action ps a = Err (IllegalAction a)).
  { intros Hn. unfold apply_action.
    destruct (is_member a (legal_actions ps)) eqn:Hm; [|reflexivity].
    apply is_member_In in Hm. contradiction. }
  assert (Hleg : forall a', apply_action ps a = Err (IllegalAction a') ->
                            ~ In a (legal_actions ps)).
  { intros a' He Hin.
    destruct (apply_action_legal_result ps a Hin) as [[ps' H]|H]; congruence. }
  split; [|split; [|split]].
  - split; [apply Hleg|apply Hill].
  - split; [intros [a' H]; eapply Hleg; eauto|intros H; eauto].
  - intros Hn ps' H. rewrite (Hill Hn) in H. discriminate.
  - apply apply_action_legal_result.
Qed.

(** *** Putting chips in, closing a street *)

Lemma apply_put_in_ok g player amount a :
  0 <= amount < 2 ^ 21 ->
  exists x,
    decode x = mkAction (Z.land (street g) 3) (Z.land player 63) (Z.land a 7) amount
    /\ _apply_put_in g player amount a
       = Ok {| board := board g; street := street g;
               pot := pot g + amount;
               hero_stack := hero_stack g + (if player =? Player.HERO then - amount else 0);
               villain_stack :=
                 villain_stack g + (if player =? Player.VILLAIN then - amount else 0);
               to_act := to_act g;
               action_history := action_history g ++ [x];
               meta := meta g |}.
Proof.
  intros Hm.
  destruct (decode_encode_masked (street g) player a amount Hm) as (x & He & Hd).
  exists x. split; [exact Hd|].
  unfold _apply_put_in, GameState_apply_action. rewrite He. reflexivity.
Qed.

Lemma meta_flag_insert_eq (d : gmap string pyval) key :
  meta_flag (Some (<[key := PBool true]> d)) key = true.
Proof.
  unfold meta_flag. destruct (decide (<[key:=PBool true]> d = ∅)) as [He|_].
  - exfalso. exact (insert_non_empty _ _ _ He).
  - rewrite lookup_insert_eq. reflexivity.
Qed.

Lemma meta_flag_insert_ne (d : gmap string pyval) key key' v :
  key <> key' ->
  meta_flag (Some (<[key := v]> (<[key' := PBool true]> d))) key' = true.
Proof.
  intros Hne. unfold meta_flag.
  destruct (decide (<[key:=v]> (<[key':=PBool true]> d) = ∅)) as [He|_].
  - exfalso. exact (insert_non_empty _ _ _ He).
  - rewrite lookup_insert_ne by exact Hne. rewrite lookup_insert_eq. reflexivity.
Qed.

(** What "the street is closed" means for a transition from [ps] to [ps']:
    no bet is open, the raise counter is back to 0, HERO is to act, and the
    street number went up by one -- or, from the river on, the street stays
    and the terminal and showdown flags are set. *)
Definition street_closed (ps ps' : PublicState) : Prop :=
  street_bet_open ps' = false
  /\ bet_amount ps' = 0
  /\ raises_this_street ps' = 0
  /\ to_act (gs ps') = Player.HERO
  /\ ((street (gs ps) < Street.RIVER
       /\ street (gs ps') = street (gs ps) + 1
       /\ meta (gs ps') = meta (gs ps))
      \/ (Street.RIVER <= street (gs ps)
          /\ street (gs ps') = street (gs ps)
          /\ is_terminal ps' = true
          /\ meta_flag (meta (gs ps')) "showdown" = true)).

Lemma advance_street_closes ps g2 :
  street g2 = street (gs ps) -> meta g2 = meta (gs ps) ->
  street_closed ps (mkPublicState (_advance_street g2 Player.HERO) false Player.HERO 0 0).
Proof.
  intros Hst Hmeta. unfold street_closed, is_terminal, _advance_street.
  cbn [street_bet_open bet_amount raises_this_street gs].
  destruct (Z.leb_spec Street.RIVER (street g2)) as [Hge|Hlt];
    cbn [to_act street meta]; repeat (split; [reflexivity|]).
  - right. split; [lia|]. split; [exact Hst|]. split.
    + apply meta_flag_insert_eq.
    + apply meta_flag_insert_ne. discriminate.
  - left. split; [lia|]. split; [lia|exact Hmeta].
Qed.

Lemma from_end_snoc2 (h : list Z) (x y : Z) :
  from_end (h ++ [x] ++ [y]) 1 = y /\ from_end (h ++ [x] ++ [y]) 2 = x.
Proof.
  unfold from_end. rewrite !rev_app_distr. cbn. split; reflexivity.
Qed.

(** C3. In a non-terminal state, a CHECK whose immediately preceding
    recorded action is a CHECK on the same street, and any CALL (with an
    encodable amount), closes the street: the street number is incremented
    (or, from the river, the terminal/showdown flags are set), the raise
    counter is reset to 0, no bet is open, and HERO is to act. *)
Theorem check_check_or_call_closes_street (ps : PublicState) :
  is_terminal ps = false ->
  (street_bet_open ps = false ->
   forall hist0 prev,
     action_history (gs ps) = hist0 ++ [prev] ->
     a_act (decode prev) = Act.CHECK ->
     a_street (decode prev) = street (gs ps) ->
     exists ps', apply_action ps Act.CHECK = Ok ps' /\ street_closed ps ps')
  /\ (street_bet_open ps = true ->
      0 <= Z.min (bet_amount ps) (stack_of (gs ps) (to_act (gs ps))) < 2 ^ 21 ->
      exists ps', apply_action ps Act.CALL = Ok ps' /\ street_closed ps ps').
Proof.
  intros Hnt. split.
  - intros Hop hist0 prev Hhist Hact Hstreet.
    rewrite apply_action_CHECK by assumption. cbv zeta.
    destruct (decode_encode_masked (street (gs ps)) (to_act (gs ps)) Act.CHECK 0)
      as (x & He & Hd); [lia|].
    unfold GameState_apply_action. rewrite He. cbn [bind action_history].
    assert (Hadv : two_checks (action_history (gs ps) ++ [x]) (street (gs ps)) = true).
    { unfold two_checks. rewrite Hhist, <- app_assoc.
      destruct (from_end_snoc2 hist0 prev x) as [-> ->].
      rewrite !length_app. cbn [length].
      replace (2 <=? length hist0 + (1 + 1))%nat with true
        by (symmetry; apply Nat.leb_le; lia).
      rewrite Hd. cbn [a_act a_street]. rewrite Hact, Hstreet.
      assert (Hmask : Z.land (street (gs ps)) 3 = street (gs ps)).
      { rewrite <- Hstreet. unfold decode. cbn [a_street].
        rewrite <- Z.land_assoc. reflexivity. }
      rewrite Hmask, !Z.eqb_refl. reflexivity. }
    rewrite Hadv. eexists. split; [reflexivity|].
    apply advance_street_closes; reflexivity.
  - intros Hop Hamt.
    rewrite apply_action_CALL by assumption. cbv zeta.
    destruct (apply_put_in_ok (gs ps) (to_act (gs ps)) _ Act.CALL Hamt) as (x & _ & ->).
    cbn [bind]. eexists. split; [reflexivity|].
    apply advance_street_closes; reflexivity.
Qed.

(** *** A sample hand: flop Kh 7d 2h, pot 3, stacks 100, HERO to act *)

Definition sample_meta : gmap string pyval :=
  <["villain_invest" := PInt 2]>
    (<["hero_invest" := PInt 1]>
       (<["villain_start" := PInt 100]>
          (<["hero_start" := PInt 100]> ∅))).

Definition sample_state (st p hs vs ta : Z) (hist : list Z)
    (open : bool) (by_ amt r : Z) : PublicState :=
  mkPublicState (mkGameState [45; 22; 1; -1; -1] st p hs vs ta hist (Some sample_meta))
    open by_ amt r.

Definition sample_start : PublicState :=
  sample_state Street.FLOP 3 99 98 Player.HERO [] false Player.HERO 0 0.

Example sample_start_ok :
  start_postflop_state [45; 22; 1] 3 100 Player.HERO = Ok sample_start.
Proof. reflexivity. Qed.

(** After HERO checks the flop. *)
Definition sample_checked : PublicState :=
  sample_state Street.FLOP 3 99 98 Player.VILLAIN [1075838976] false Player.HERO 0 0.

(** After HERO bets the flop (half pot, 1 chip). *)
Definition sample_bet : PublicState :=
  sample_state Street.FLOP 4 98 98 Player.VILLAIN [1080033281] true Player.HERO 1 0.

(** After HERO shoves the flop for 99; VILLAIN has 98 behind. *)
Definition sample_shoved : PublicState :=
  sample_state Street.FLOP 102 0 98 Player.VILLAIN [1084227683] true Player.HERO 99 0.

Example sample_checked_ok : play sample_start [Act.CHECK] = Ok sample_checked.
Proof. vm_compute. reflexivity. Qed.

Example sample_bet_ok : play sample_start [Act.BET] = Ok sample_bet.
Proof. vm_compute. reflexivity. Qed.

Example sample_shoved_ok : play sample_start [Act.ALLIN] = Ok sample_shoved.
Proof. vm_compute. reflexivity. Qed.

Lemma check_check_or_call_closes_street_witness :
  (exists ps', apply_action sample_checked Act.CHECK = Ok ps'
               /\ street_closed sample_checked ps')
  /\ (exists ps', apply_action sample_bet Act.CALL = Ok ps'
                  /\ street_closed sample_bet ps').
Proof.
  split.
  - apply (proj1 (check_check_or_call_closes_street sample_checked eq_refl) eq_refl
             [] 1075838976); reflexivity.
  - apply (proj2 (check_check_or_call_closes_street sample_bet eq_refl) eq_refl).
    vm_compute. split; [discriminate|reflexivity].
Defined.

(** *** Observing a transition *)

(** The action recorded last in the history of a state. *)
Definition last_action (ps : PublicState) : Action :=
  decode (from_end (action_history (gs ps)) 1).

Definition recorded (ps' : PublicState) (act amount : Z) : Prop :=
  a_act (last_action ps') = act /\ a_amount (last_action ps') = amount.

Definition actor_stack (ps : PublicState) : Z := stack_of (gs ps) (to_act (gs ps)).

Lemma from_end_snoc (h : list Z) (x : Z) : from_end (h ++ [x]) 1 = x.
Proof. unfold from_end. rewrite rev_app_distr. reflexivity. Qed.

(** Successful chip commitment, seen from the outside. *)
Lemma put_in_bind g p amt a (k : GameState -> PublicState) :
  0 <= amt < 2 ^ 21 -> 0 <= a < 8 ->
  exists g2,
    (let* gs2 := _apply_put_in g p amt a in Ok (k gs2)) = Ok (k g2)
    /\ street g2 = street g /\ meta g2 = meta g /\ to_act g2 = to_act g
    /\ pot g2 = pot g + amt
    /\ a_act (decode (from_end (action_history g2) 1)) = a
    /\ a_amount (decode (from_end (action_history g2) 1)) = amt.
Proof.
  intros Hamt Ha.
  destruct (apply_put_in_ok g p amt a Hamt) as (x & Hd & ->).
  eexists. split; [reflexivity|]. cbn [street meta to_act pot action_history].
  rewrite from_end_snoc, Hd. cbn [a_act a_amount].
  repeat split; try reflexivity.
  change 7 with (Z.ones 3). rewrite Z.land_ones by lia. apply Z.mod_small. lia.
Qed.

Lemma replace_to_act_open ps g2 by_ amt r :
  meta g2 = meta (gs ps) -> is_terminal ps = false ->
  is_terminal (mkPublicState (_replace_to_act g2 (swap_player (to_act (gs ps)))) true by_ amt r)
  = false.
Proof. intros Hm Hnt. unfold is_terminal in *. cbn. rewrite Hm. exact Hnt. Qed.


(** After HERO bets 1 and VILLAIN raises to 3 on the flop. *)
Definition sample_raised : PublicState :=
  sample_state Street.FLOP 7 98 95 Player.HERO [1080033281; 1098907651]
    true Player.VILLAIN 2 1.

Example sample_raised_ok : play sample_start [Act.BET; Act.RAISE] = Ok sample_raised.
Proof. vm_compute. reflexivity. Qed.


(** *** Bet and raise sizing, and the auto-shove rule *)

(** The size a BET would commit before the auto-shove test. *)
Definition bet_size (ps : PublicState) : Z :=
  Z.min (half_pot_bet_size (pot (gs ps))) (actor_stack ps).

(** The raise-to size before the auto-shove test. *)
Definition raise_to_size (ps : PublicState) : Z :=
  Z.min (3 * bet_amount ps) (actor_stack ps).

(** The auto-shove test as [apply_action] evaluates it for BET and RAISE. *)
Definition bet_shoves (ps : PublicState) : bool :=
  let g := gs ps in
  _should_shove_after_called (pot g) (hero_stack g) (villain_stack g) (to_act g)
    (bet_size ps)
    (Z.min (bet_size ps) (stack_of g (swap_player (to_act g)))).

Definition raise_shoves (ps : PublicState) : bool :=
  let g := gs ps in
  _should_shove_after_called (pot g) (hero_stack g) (villain_stack g) (to_act g)
    (raise_to_size ps)
    (Z.min (Z.max 0 (raise_to_size ps - bet_amount ps))
       (stack_of g (swap_player (to_act g)))).

Lemma spr_below_half_small eff pot_after :
  0 < pot_after < 2 ^ 54 ->
  spr_below_half eff pot_after = true <-> 2 * eff < pot_after.
Proof.
  intros Hp. unfold spr_below_half. rewrite Z.ltb_lt. lia.
Qed.

(** The stack-to-pot test: with both players' stacks after the aggressor
    put in [agg] and the other player [call], the new pot is positive and
    the ratio of the smaller stack to it is below one half. *)
Lemma should_shove_spec pot_now hs vs aggressor agg call :
  pot_now + agg + call < 2 ^ 54 ->
  _should_shove_after_called pot_now hs vs aggressor agg call = true
  <-> (0 < pot_now + agg + call
       /\ 2 * Z.min (hs - (if aggressor =? Player.HERO then agg else call))
                    (vs - (if aggressor =? Player.VILLAIN then agg else call))
          < pot_now + agg + call).
Proof.
  intros Hsmall. unfold _should_shove_after_called. cbv zeta.
  destruct (Z.leb_spec (pot_now + agg + call) 0).
  - split; [discriminate|lia].
  - rewrite spr_below_half_small by lia. split; [auto|tauto].
Qed.

(** A chip commitment that succeeded, read backwards: the amount was
    encodable and the new game state differs from the old one as follows. *)
Lemma put_in_bind_inv g p amt a (k : GameState -> PublicState) ps' :
  0 <= a < 8 ->
  (let* gs2 := _apply_put_in g p amt a in Ok (k gs2)) = Ok ps' ->
  exists g2,
    ps' = k g2 /\ 0 <= amt < 2 ^ 21
    /\ street g2 = street g /\ meta g2 = meta g /\ to_act g2 = to_act g
    /\ pot g2 = pot g + amt
    /\ hero_stack g2 = hero_stack g - (if p =? Player.HERO then amt else 0)
    /\ villain_stack g2 = villain_stack g - (if p =? Player.VILLAIN then amt else 0)
    /\ a_act (decode (from_end (action_history g2) 1)) = a
    /\ a_amount (decode (from_end (action_history g2) 1)) = amt.
Proof.
  intros Ha H.
  assert (Hr : 0 <= amt < 2 ^ 21).
  { destruct (Z_lt_le_dec amt 0) as [Hneg|Hpos];
      [|destruct (Z_lt_le_dec amt (2 ^ 21)) as [Hlt|Hge]; [lia|]];
      exfalso;
      assert (He : exists e, encode (mkAction (street g) p a amt) = Err e)
        by (apply encode_error_iff; cbn [a_amount]; lia);
      destruct He as [e He];
      unfold _apply_put_in, GameState_apply_action in H; rewrite He in H;
      discriminate H. }
  destruct (apply_put_in_ok g p amt a Hr) as (x & Hd & Heq).
  rewrite Heq in H. cbn [bind] in H. injection H as <-.
  eexists. split; [reflexivity|]. split; [exact Hr|].
  cbn [street meta to_act pot hero_stack villain_stack action_history].
  rewrite from_end_snoc, Hd. cbn [a_act a_amount].
  do 4 (split; [reflexivity|]).
  split; [destruct (p =? Player.HERO); lia|].
  split; [destruct (p =? Player.VILLAIN); lia|].
  split; [|reflexivity].
  change 7 with (Z.ones 3). rewrite Z.land_ones by lia. apply Z.mod_small. lia.
Qed.

(** A player who puts a whole stack in has nothing left. *)
Lemma stack_committed g g2 p :
  p = Player.HERO \/ p = Player.VILLAIN ->
  hero_stack g2 = hero_stack g - (if p =? Player.HERO then stack_of g p else 0) ->
  villain_stack g2 = villain_stack g - (if p =? Player.VILLAIN then stack_of g p else 0) ->
  stack_of g2 p = 0.
Proof.
  unfold stack_of. intros [-> | ->]; cbn [Z.eqb Pos.eqb Player.HERO Player.VILLAIN];
    intros Hh Hv; unfold Player.HERO, Player.VILLAIN in *; cbn [Z.eqb Pos.eqb] in *; lia.
Qed.

Lemma stack_of_replace_to_act g q p : stack_of (_replace_to_act g q) p = stack_of g p.
Proof. reflexivity. Qed.

Lemma stack_of_advance_street g q p : stack_of (_advance_street g q) p = stack_of g p.
Proof. unfold _advance_street, stack_of. destruct (_ <=? _); reflexivity. Qed.

(** When the auto-shove test fires, BET is ALLIN. *)
Lemma bet_shove_is_allin ps :
  is_terminal ps = false -> street_bet_open ps = false ->
  bet_shoves ps = true ->
  apply_action ps Act.BET = apply_action ps Act.ALLIN.
Proof.
  intros Hnt Hop Hs.
  rewrite apply_action_BET, apply_action_ALLIN_open by assumption. cbv zeta.
  fold (actor_stack ps). fold (bet_size ps). fold (bet_shoves ps).
  rewrite Hs. reflexivity.
Qed.

(** When the auto-shove test fires, RAISE is ALLIN: both call with the whole
    stack when it does not exceed the amount owed, and both shove it
    otherwise. *)
Lemma raise_shove_is_allin ps :
  is_terminal ps = false -> street_bet_open ps = true ->
  raises_this_street ps = 0 ->
  raise_shoves ps = true ->
  apply_action ps Act.RAISE = apply_action ps Act.ALLIN.
Proof.
  intros Hnt Hop Hr Hs.
  rewrite apply_action_RAISE, apply_action_ALLIN_facing by assumption. cbv zeta.
  fold (actor_stack ps). fold (raise_to_size ps). fold (raise_shoves ps).
  rewrite Hs. destruct (Z.leb_spec (actor_stack ps) (bet_amount ps)); [|reflexivity].
  rewrite Z.min_r by lia. reflexivity.
Qed.

(** C4. In a state that is not terminal, with no bet open, BET sizes to
    [min (max 1 (pot/2)) stack]; facing a bet that has not been raised,
    RAISE sizes to [min (3 * to_call) stack].  The auto-shove test is
    evaluated on that size and on what the other player would then call.
    When it fires, the action is ALLIN -- [apply_action] returns for BET or
    RAISE exactly what it returns for ALLIN in that state -- and what is
    committed is the actor's whole stack instead of the size: the pot grows
    by the stack, the recorded amount is the stack, and the actor has
    nothing left.  When it does not fire, the size is committed and
    recorded as BET or RAISE, leaving [size] (for BET) or
    [raise_to - to_call] (for RAISE) to call.  The action succeeds whenever
    the stack is encodable.  Below 2^54 chips the test is: the pot after
    the call is positive and twice the smaller remaining stack is below
    it. *)
Theorem bet_raise_sizing (ps : PublicState) :
  is_terminal ps = false ->
  (street_bet_open ps = false ->
     bet_size ps = Z.min (Z.max 1 (pot (gs ps) / 2)) (actor_stack ps)
     /\ (bet_shoves ps = true ->
           apply_action ps Act.BET = apply_action ps Act.ALLIN)
     /\ (forall ps', apply_action ps Act.BET = Ok ps' ->
           street_bet_open ps' = true /\ bet_by ps' = to_act (gs ps)
           /\ raises_this_street ps' = 0
           /\ (if bet_shoves ps
               then recorded ps' Act.ALLIN (actor_stack ps)
                    /\ bet_amount ps' = actor_stack ps
                    /\ pot (gs ps') = pot (gs ps) + actor_stack ps
                    /\ (to_act (gs ps) = Player.HERO \/ to_act (gs ps) = Player.VILLAIN ->
                        stack_of (gs ps') (to_act (gs ps)) = 0)
               else recorded ps' Act.BET (bet_size ps)
                    /\ bet_amount ps' = bet_size ps
                    /\ pot (gs ps') = pot (gs ps) + bet_size ps))
     /\ (0 <= actor_stack ps < 2 ^ 21 ->
           exists ps', apply_action ps Act.BET = Ok ps'))
  /\ (street_bet_open ps = true -> raises_this_street ps = 0 ->
      raise_to_size ps = Z.min (3 * bet_amount ps) (actor_stack ps)
      /\ (raise_shoves ps = true ->
            apply_action ps Act.RAISE = apply_action ps Act.ALLIN)
      /\ (forall ps', apply_action ps Act.RAISE = Ok ps' ->
            if raise_shoves ps
            then a_amount (last_action ps') = actor_stack ps
                 /\ pot (gs ps') = pot (gs ps) + actor_stack ps
                 /\ (to_act (gs ps) = Player.HERO \/ to_act (gs ps) = Player.VILLAIN ->
                     stack_of (gs ps') (to_act (gs ps)) = 0)
            else recorded ps' Act.RAISE (raise_to_size ps)
                 /\ pot (gs ps') = pot (gs ps) + raise_to_size ps
                 /\ bet_amount ps' = raise_to_size ps - bet_amount ps
                 /\ street_bet_open ps' = true
                 /\ raises_this_street ps' = 1)
      /\ (0 <= bet_amount ps -> 0 <= actor_stack ps < 2 ^ 21 ->
            exists ps', apply_action ps Act.RAISE = Ok ps'))
  /\ (forall pot_now hs vs aggressor agg call,
        pot_now + agg + call < 2 ^ 54 ->
        _should_shove_after_called pot_now hs vs aggressor agg call = true
        <-> (0 < pot_now + agg + call
             /\ 2 * Z.min (hs - (if aggressor =? Player.HERO then agg else call))
                          (vs - (if aggressor =? Player.VILLAIN then agg else call))
                < pot_now + agg + call)).
Proof.
  intros Hnt. split; [|split; [|exact should_shove_spec]].
  - intros Hop. split; [reflexivity|].
    split; [apply bet_shove_is_allin; assumption|]. split.
    + intros ps' Hok. rewrite apply_action_BET in Hok by assumption. cbv zeta in Hok.
      fold (actor_stack ps) in Hok. fold (bet_size ps) in Hok. fold (bet_shoves ps) in Hok.
      destruct (bet_shoves ps).
      * apply put_in_bind_inv in Hok; [|unfold Act.ALLIN; lia].
        destruct Hok as (g2 & -> & _ & _ & _ & _ & Hp & Hh & Hv & Ha & Hamt).
        repeat (split; [reflexivity|]).
        split; [split; assumption|]. split; [reflexivity|]. split; [exact Hp|].
        intros Hvalid. cbn [gs]. rewrite stack_of_replace_to_act.
        apply (stack_committed (gs ps)); assumption.
      * apply put_in_bind_inv in Hok; [|unfold Act.BET; lia].
        destruct Hok as (g2 & -> & _ & _ & _ & _ & Hp & _ & _ & Ha & Hamt).
        repeat (split; [reflexivity|]).
        split; [split; assumption|]. split; [reflexivity|exact Hp].
    + intros Hst. rewrite apply_action_BET by assumption. cbv zeta.
      fold (actor_stack ps). fold (bet_size ps). fold (bet_shoves ps).
      assert (Hsz : 0 <= bet_size ps < 2 ^ 21).
      { unfold bet_size, half_pot_bet_size. lia. }
      destruct (bet_shoves ps).
      * destruct (apply_put_in_ok (gs ps) (to_act (gs ps)) _ Act.ALLIN Hst) as (x & _ & ->).
        cbn [bind]. eauto.
      * destruct (apply_put_in_ok (gs ps) (to_act (gs ps)) _ Act.BET Hsz) as (x & _ & ->).
        cbn [bind]. eauto.
  - intros Hop Hr. split; [reflexivity|].
    split; [apply raise_shove_is_allin; assumption|]. split.
    + intros ps' Hok. rewrite apply_action_RAISE in Hok by assumption. cbv zeta in Hok.
      fold (actor_stack ps) in Hok. fold (raise_to_size ps) in Hok.
      fold (raise_shoves ps) in Hok.
      destruct (raise_shoves ps);
        [destruct (Z.leb_spec (actor_stack ps) (bet_amount ps)) as [Hle|Hgt]|].
      * rewrite Z.min_r in Hok by lia.
        apply put_in_bind_inv in Hok; [|unfold Act.CALL; lia].
        destruct Hok as (g2 & -> & _ & _ & _ & _ & Hp & Hh & Hv & Ha & Hamt).
        split; [|split].
        -- unfold last_action, _advance_street. cbn [gs].
           destruct (_ <=? _); cbn [action_history]; exact Hamt.
        -- unfold _advance_street. cbn [gs]. destruct (_ <=? _); cbn [pot]; exact Hp.
        -- intros Hvalid. cbn [gs]. rewrite stack_of_advance_street.
           apply (stack_committed (gs ps)); assumption.
      * apply put_in_bind_inv in Hok; [|unfold Act.ALLIN; lia].
        destruct Hok as (g2 & -> & _ & _ & _ & _ & Hp & Hh & Hv & Ha & Hamt).
        split; [exact Hamt|]. split; [exact Hp|].
        intros Hvalid. cbn [gs]. rewrite stack_of_replace_to_act.
        apply (stack_committed (gs ps)); assumption.
      * apply put_in_bind_inv in Hok; [|unfold Act.RAISE; lia].
        destruct Hok as (g2 & -> & _ & _ & _ & _ & Hp & _ & _ & Ha & Hamt).
        split; [split; assumption|]. split; [exact Hp|]. repeat split.
    + intros Hcall Hst. rewrite apply_action_RAISE by assumption. cbv zeta.
      fold (actor_stack ps). fold (raise_to_size ps). fold (raise_shoves ps).
      assert (Hsz : 0 <= raise_to_size ps < 2 ^ 21).
      { unfold raise_to_size. lia. }
      destruct (raise_shoves ps);
        [destruct (Z.leb_spec (actor_stack ps) (bet_amount ps)) as [Hle|Hgt]|].
      * rewrite Z.min_r by lia.
        destruct (apply_put_in_ok (gs ps) (to_act (gs ps)) _ Act.CALL Hst) as (x & _ & ->).
        cbn [bind]. eauto.
      * destruct (apply_put_in_ok (gs ps) (to_act (gs ps)) _ Act.ALLIN Hst) as (x & _ & ->).
        cbn [bind]. eauto.
      * destruct (apply_put_in_ok (gs ps) (to_act (gs ps)) _ Act.RAISE Hsz) as (x & _ & ->).
        cbn [bind]. eauto.
Qed.

(** A pot of 100 on the flop with 20 behind on both sides: a half-pot bet
    is clamped to 20 and, once called, leaves nothing behind. *)
Definition sample_short : PublicState :=
  sample_state Street.FLOP 100 20 20 Player.HERO [] false Player.HERO 0 0.

(** On the sample hand: the opening BET commits 1 into a pot of 3, the RAISE
    over it is to 3 and leaves 2 to call; with 20 behind and 100 in the pot
    BET is ALLIN for 20; and after HERO's shove VILLAIN's RAISE is ALLIN and
    commits the 98 VILLAIN has. *)
Lemma bet_raise_sizing_witness :
  (forall ps', apply_action sample_start Act.BET = Ok ps' ->
               recorded ps' Act.BET 1 /\ bet_amount ps' = 1)
  /\ (forall ps', apply_action sample_bet Act.RAISE = Ok ps' ->
                  recorded ps' Act.RAISE 3 /\ bet_amount ps' = 2)
  /\ apply_action sample_short Act.BET = apply_action sample_short Act.ALLIN
  /\ (forall ps', apply_action sample_short Act.BET = Ok ps' ->
                  recorded ps' Act.ALLIN 20 /\ pot (gs ps') = 120)
  /\ apply_action sample_shoved Act.RAISE = apply_action sample_shoved Act.ALLIN
  /\ (forall ps', apply_action sample_shoved Act.RAISE = Ok ps' ->
                  a_amount (last_action ps') = 98 /\ pot (gs ps') = 200).
Proof.
  destruct (bet_raise_sizing sample_start eq_refl) as [Hb _].
  destruct (Hb eq_refl) as (_ & _ & Hstart & _).
  destruct (bet_raise_sizing sample_bet eq_refl) as [_ [Hr _]].
  destruct (Hr eq_refl eq_refl) as (_ & _ & Hbet & _).
  destruct (bet_raise_sizing sample_short eq_refl) as [Hb' _].
  destruct (Hb' eq_refl) as (_ & Hsh1 & Hsh2 & _).
  destruct (bet_raise_sizing sample_shoved eq_refl) as [_ [Hr' _]].
  destruct (Hr' eq_refl eq_refl) as (_ & Hsv1 & Hsv2 & _).
  split; [|split; [|split; [|split; [|split]]]].
  - intros ps' Hok. destruct (Hstart ps' Hok) as (_ & _ & _ & H).
    change (bet_shoves sample_start) with false in H.
    destruct H as (H1 & H2 & _). split; assumption.
  - intros ps' Hok. pose proof (Hbet ps' Hok) as H.
    change (raise_shoves sample_bet) with false in H.
    destruct H as (H1 & _ & H2 & _). split; assumption.
  - apply Hsh1. reflexivity.
  - intros ps' Hok. destruct (Hsh2 ps' Hok) as (_ & _ & _ & H).
    change (bet_shoves sample_short) with true in H.
    destruct H as (H1 & _ & H2 & _). split; assumption.
  - apply Hsv1. reflexivity.
  - intros ps' Hok. pose proof (Hsv2 ps' Hok) as H.
    change (raise_shoves sample_shoved) with true in H.
    destruct H as (H1 & H2 & _). split; assumption.
Defined.

(** ** Chip conservation and zero-sum payouts *)

Definition chips (g : GameState) : Z := pot g + hero_stack g + villain_stack g.

Definition valid_player (p : Z) : Prop := p = Player.HERO \/ p = Player.VILLAIN.

(** What every state of a hand started with stacks [S] satisfies. *)
Definition hand_invariant (S : Z) (ps : PublicState) : Prop :=
  valid_player (to_act (gs ps))
  /\ chips (gs ps) = 2 * S
  /\ meta_copy (meta (gs ps)) !! "hero_start" = Some (PInt S)
  /\ meta_copy (meta (gs ps)) !! "villain_start" = Some (PInt S).

Lemma bind_Ok_inv {A B} (r : result A) (k : A -> result B) (b : B) :
  bind r k = Ok b -> exists a, r = Ok a /\ k a = Ok b.
Proof. destruct r as [a|e]; cbn [bind]; [eauto|discriminate]. Qed.

Lemma GameState_apply_action_inv g act dp dh dv g2 :
  GameState_apply_action g act dp dh dv = Ok g2 ->
  pot g2 = pot g + dp /\ hero_stack g2 = hero_stack g + dh
  /\ villain_stack g2 = villain_stack g + dv
  /\ meta g2 = meta g /\ to_act g2 = to_act g /\ street g2 = street g.
Proof.
  unfold GameState_apply_action. intros H.
  apply bind_Ok_inv in H. destruct H as (enc & _ & H).
  injection H as <-. cbn. tauto.
Qed.

Lemma put_in_conserves g p amt a g2 :
  valid_player p -> _apply_put_in g p amt a = Ok g2 ->
  chips g2 = chips g /\ meta g2 = meta g /\ to_act g2 = to_act g.
Proof.
  intros Hp H. unfold _apply_put_in in H.
  apply GameState_apply_action_inv in H.
  destruct H as (H1 & H2 & H3 & H4 & H5 & _).
  unfold chips. rewrite H1, H2, H3.
  destruct Hp as [-> | ->]; cbn; split; try tauto; lia.
Qed.

Lemma swap_player_valid p : valid_player (swap_player p).
Proof. unfold swap_player, valid_player. destruct (p =? Player.HERO); auto. Qed.

Lemma invariant_advance S g2 :
  chips g2 = 2 * S ->
  meta_copy (meta g2) !! "hero_start" = Some (PInt S) ->
  meta_copy (meta g2) !! "villain_start" = Some (PInt S) ->
  hand_invariant S (mkPublicState (_advance_street g2 Player.HERO) false Player.HERO 0 0).
Proof.
  intros Hc Hh Hv. unfold hand_invariant, _advance_street. cbn [gs].
  destruct (_ <=? _); cbn [to_act meta meta_copy]; unfold chips in *; cbn;
    (split; [left; reflexivity|]); (split; [exact Hc|]).
  - rewrite !lookup_insert_ne by discriminate. tauto.
  - tauto.
Qed.

Lemma invariant_replace S g2 p o b amt r :
  chips g2 = 2 * S ->
  meta_copy (meta g2) !! "hero_start" = Some (PInt S) ->
  meta_copy (meta g2) !! "villain_start" = Some (PInt S) ->
  hand_invariant S (mkPublicState (_replace_to_act g2 (swap_player p)) o b amt r).
Proof.
  intros Hc Hh Hv. unfold hand_invariant, _replace_to_act. cbn.
  split; [apply swap_player_valid|]. tauto.
Qed.

Lemma invariant_terminal S g2 w o b amt r :
  valid_player (to_act g2) ->
  chips g2 = 2 * S ->
  meta_copy (meta g2) !! "hero_start" = Some (PInt S) ->
  meta_copy (meta g2) !! "villain_start" = Some (PInt S) ->
  hand_invariant S (mkPublicState (_with_terminal g2 w) o b amt r).
Proof.
  intros Hp Hc Hh Hv. unfold hand_invariant, _with_terminal. cbn.
  rewrite !lookup_insert_ne by discriminate. tauto.
Qed.

Lemma apply_action_Ok_legal ps a ps' :
  apply_action ps a = Ok ps' -> In a (legal_actions ps).
Proof.
  intros H. apply is_member_In. unfold apply_action in H.
  destruct (is_member a (legal_actions ps)); [reflexivity|discriminate].
Qed.

Ltac invert_put_in H S Hp Hc Hh Hv :=
  apply bind_Ok_inv in H; destruct H as (?g2 & ?Hput & H);
  injection H as <-;
  apply (put_in_conserves _ _ _ _ _ Hp) in Hput;
  destruct Hput as (?Hc2 & ?Hm2 & ?Ht2);
  first [ apply invariant_advance | apply invariant_replace ];
  rewrite ?Hc2, ?Hm2; assumption.

(** Every transition keeps the total number of chips, the start-of-hand
    records in [meta], and a valid player to act. *)
Lemma apply_action_invariant S ps a ps' :
  hand_invariant S ps -> apply_action ps a = Ok ps' -> hand_invariant S ps'.
Proof.
  intros (Hp & Hc & Hh & Hv) H.
  pose proof (apply_action_Ok_legal _ _ _ H) as Hin.
  apply legal_actions_inv in Hin.
  destruct Hin as [Hnt [[Hop Ha]|[Hop Ha]]].
  - destruct Ha as [-> | [-> | ->]].
    + rewrite apply_action_CHECK in H by assumption. cbv zeta in H.
      apply bind_Ok_inv in H. destruct H as (g2 & Hg & H).
      apply GameState_apply_action_inv in Hg.
      destruct Hg as (H1 & H2 & H3 & H4 & H5 & _).
      assert (Hc2 : chips g2 = 2 * S) by (unfold chips in *; lia).
      destruct (two_checks _ _); injection H as <-;
        [apply invariant_advance|apply invariant_replace]; rewrite ?H4; assumption.
    + rewrite apply_action_BET in H by assumption. cbv zeta in H.
      destruct (_should_shove_after_called _ _ _ _ _ _);
        invert_put_in H S Hp Hc Hh Hv.
    + rewrite apply_action_ALLIN_open in H by assumption. cbv zeta in H.
      invert_put_in H S Hp Hc Hh Hv.
  - destruct Ha as [-> | [-> | [-> | [-> Hr]]]].
    + rewrite apply_action_CALL in H by assumption. cbv zeta in H.
      invert_put_in H S Hp Hc Hh Hv.
    + rewrite apply_action_FOLD in H by assumption. cbv zeta in H.
      apply bind_Ok_inv in H. destruct H as (g2 & Hg & H).
      apply GameState_apply_action_inv in Hg.
      destruct Hg as (H1 & H2 & H3 & H4 & H5 & _).
      assert (Hc2 : chips g2 = 2 * S) by (unfold chips in *; lia).
      injection H as <-. apply invariant_terminal; rewrite ?H4, ?H5; assumption.
    + rewrite apply_action_ALLIN_facing in H by assumption. cbv zeta in H.
      destruct (_ <=? _); invert_put_in H S Hp Hc Hh Hv.
    + rewrite apply_action_RAISE in H by assumption. cbv zeta in H.
      destruct (_should_shove_after_called _ _ _ _ _ _); [destruct (_ <=? _)|];
        invert_put_in H S Hp Hc Hh Hv.
Qed.

Lemma play_invariant S acts : forall ps ps',
  hand_invariant S ps -> play ps acts = Ok ps' -> hand_invariant S ps'.
Proof.
  induction acts as [|a rest IH]; intros ps ps' Hinv H; cbn [play] in H.
  - injection H as <-. exact Hinv.
  - apply bind_Ok_inv in H. destruct H as (ps1 & Hstep & Hrest).
    eapply IH; [|exact Hrest]. eapply apply_action_invariant; eauto.
Qed.

Lemma start_invariant flop pot0 S ta ps :
  valid_player ta ->
  start_postflop_state flop pot0 S ta = Ok ps -> hand_invariant S ps.
Proof.
  intros Hta H. unfold start_postflop_state in H.
  destruct (_ || _); [discriminate|]. injection H as <-.
  unfold hand_invariant, chips. cbn.
  split; [exact Hta|]. split; [lia|].
  split; [rewrite !lookup_insert_ne by discriminate|
          rewrite !lookup_insert_ne by discriminate];
    apply lookup_insert_eq.
Qed.

(** The payout rule read literally: the winner receives the whole pot, and
    on a tie each player receives the integer-truncated half. *)
Definition claimed_payout (pot_now : Z) (w : option Z) (player : Z) : Z :=
  match w with
  | Some x => if x =? player then pot_now else 0
  | None => pot_now / 2
  end.

Definition claimed_net (ps : PublicState) (w : option Z) (player start : Z) : Z :=
  claimed_payout (pot (gs ps)) w player + stack_of (gs ps) player - start.

(** The sample hand checked down to a showdown: pot 3, stacks 99 and 98. *)
Definition sample_showdown : PublicState :=
  mkPublicState
    (mkGameState [45; 22; 1; -1; -1] Street.RIVER 3 99 98 Player.HERO
       [1075838976; 1092616192; 2149580800; 2166358016; 3223322624; 3240099840]
       (Some (<["terminal" := PBool true]> (<["showdown" := PBool true]> sample_meta))))
    false Player.HERO 0 0.

Example sample_showdown_ok :
  play sample_start
    [Act.CHECK; Act.CHECK; Act.CHECK; Act.CHECK; Act.CHECK; Act.CHECK]
  = Ok sample_showdown.
Proof. vm_compute. reflexivity. Qed.

(** With truncated halves for both players a tied showdown over an odd pot
    loses a chip: the nets sum to -1. *)
Lemma truncated_split_not_zero_sum :
  start_postflop_state [45; 22; 1] 3 100 Player.HERO = Ok sample_start
  /\ play sample_start
       [Act.CHECK; Act.CHECK; Act.CHECK; Act.CHECK; Act.CHECK; Act.CHECK]
     = Ok sample_showdown
  /\ is_terminal sample_showdown = true
  /\ winner (_terminal_result sample_showdown 0 100 100) = None
  /\ claimed_net sample_showdown None Player.HERO 100
     + claimed_net sample_showdown None Player.VILLAIN 100 <> 0.
Proof.
  split; [reflexivity|]. split; [exact sample_showdown_ok|].
  split; [reflexivity|]. split; [reflexivity|].
  vm_compute. discriminate.
Qed.

Lemma terminal_result_zero_sum ps cmp S :
  chips (gs ps) = 2 * S ->
  hero_net (_terminal_result ps cmp S S) + vill_net (_terminal_result ps cmp S S) = 0
  /\ hero_stack_final (_terminal_result ps cmp S S)
     + vill_stack_final (_terminal_result ps cmp S S)
     = pot (gs ps) + hero_stack (gs ps) + villain_stack (gs ps).
Proof.
  unfold chips, _terminal_result. cbv zeta. cbn [hero_net vill_net hero_stack_final vill_stack_final].
  intros Hc.
  repeat match goal with
         | |- context [match ?x with _ => _ end] => destruct x
         end; cbn [fst snd]; lia.
Qed.

(** C5 (amended). For every hand started by [start_postflop_state] (with a
    valid player to act) and played through successful transitions:
    pot + hero_stack + villain_stack stays equal to twice the starting stack;
    the terminal payout of [_terminal_result] hands out exactly the pot --
    the winner receives the whole pot, and on a tie hero receives the
    truncated half [pot / 2] while villain receives the remainder
    [pot - pot / 2] -- so hero_net + vill_net = 0; and hero's net agrees
    with [_hero_chip_ev_terminal]. *)
Theorem hand_is_zero_sum (flop : list Z) (pot0 S ta : Z) (acts : list Z)
    (ps0 ps : PublicState) (cmp : Z) :
  valid_player ta ->
  start_postflop_state flop pot0 S ta = Ok ps0 ->
  play ps0 acts = Ok ps ->
  let r := _terminal_result ps cmp S S in
  pot (gs ps) + hero_stack (gs ps) + villain_stack (gs ps) = 2 * S
  /\ hero_stack_final r + vill_stack_final r
     = pot (gs ps) + hero_stack (gs ps) + villain_stack (gs ps)
  /\ hero_net r + vill_net r = 0
  /\ (winner r = None ->
        hero_stack_final r = hero_stack (gs ps) + pot (gs ps) / 2
        /\ vill_stack_final r = villain_stack (gs ps) + (pot (gs ps) - pot (gs ps) / 2))
  /\ (winner r = Some Player.HERO ->
        hero_stack_final r = hero_stack (gs ps) + pot (gs ps)
        /\ vill_stack_final r = villain_stack (gs ps))
  /\ (winner r = Some Player.VILLAIN ->
        hero_stack_final r = hero_stack (gs ps)
        /\ vill_stack_final r = villain_stack (gs ps) + pot (gs ps))
  /\ _hero_chip_ev_terminal (gs ps)
       (match winner r with
        | Some x => if x =? Player.HERO then Some true
                    else if x =? Player.VILLAIN then Some false else None
        | None => None
        end) = Some (hero_net r).
Proof.
  intros Hta Hstart Hplay r.
  pose proof (play_invariant S acts ps0 ps (start_invariant _ _ _ _ _ Hta Hstart) Hplay)
    as (Hp & Hc & Hh & Hv).
  destruct (terminal_result_zero_sum ps cmp S Hc) as [Hz Hf].
  split; [exact Hc|]. split; [exact Hf|]. split; [exact Hz|].
  unfold _hero_chip_ev_terminal, meta_get. rewrite Hh. cbn [py_int].
  subst r. unfold _terminal_result. cbv zeta.
  cbn [winner hero_net hero_stack_final vill_stack_final].
  repeat match goal with
         | |- context [match ?x with _ => _ end] => destruct x eqn:?
         end; cbn [fst snd];
    repeat split; intros; try discriminate; try reflexivity;
    exfalso;
    match goal with
    | H : Some _ = Some _ |- _ => injection H as H
    end;
    repeat match goal with
           | Hb : (_ =? _) = true |- _ => apply Z.eqb_eq in Hb
           | Hb : (_ =? _) = false |- _ => apply Z.eqb_neq in Hb
           end;
    unfold Player.HERO, Player.VILLAIN in *; lia.
Qed.

Lemma hand_is_zero_sum_witness :
  is_terminal sample_showdown = true
  /\ pot (gs sample_showdown) + hero_stack (gs sample_showdown)
     + villain_stack (gs sample_showdown) = 200
  /\ hero_net (_terminal_result sample_showdown 0 100 100)
     + vill_net (_terminal_result sample_showdown 0 100 100) = 0.
Proof.
  split; [reflexivity|].
  destruct (hand_is_zero_sum [45; 22; 1] 3 100 Player.HERO
              [Act.CHECK; Act.CHECK; Act.CHECK; Act.CHECK; Act.CHECK; Act.CHECK]
              sample_start sample_showdown 0)
    as (H1 & _ & H2 & _).
  - left. reflexivity.
  - reflexivity.
  - exact sample_showdown_ok.
  - split; [exact H1|exact H2].
Defined.

(** ** Rollout cache *)

Fixpoint Qsum (vs : list Q) : Q :=
  match vs with
  | [] => 0%Q
  | v :: rest => (v + Qsum rest)%Q
  end.

(** The arithmetic mean of a non-empty list. *)
Definition Qmean (vs : list Q) : Q := (Qsum vs / inject_Z (Z.of_nat (length vs)))%Q.

Lemma Qsum_snoc vs v : (Qsum (vs ++ [v]) == Qsum vs + v)%Q.
Proof.
  induction vs as [|x vs IH]; cbn [Qsum app].
  - ring.
  - rewrite IH. ring.
Qed.

(** Running-mean invariant: after folding [vs] into fresh statistics the
    count is [length vs] and count * mean is the sum. *)
Lemma running_mean_invariant vs :
  let s := fold_left RolloutStats_update vs RolloutStats_new in
  rs_n s = Z.of_nat (length vs)
  /\ (inject_Z (rs_n s) * mean_ev s == Qsum vs)%Q.
Proof.
  induction vs as [|v vs IH] using rev_ind; cbv zeta.
  - cbn. split; [reflexivity|ring].
  - rewrite fold_left_app. cbn [fold_left].
    destruct IH as [Hn Hm].
    set (s := fold_left RolloutStats_update vs RolloutStats_new) in *.
    unfold RolloutStats_update. cbn [rs_n mean_ev].
    rewrite length_app. cbn [length]. split; [lia|].
    rewrite Qsum_snoc, <- Hm.
    assert (Hpos : ~ (inject_Z (rs_n s + 1) == 0)%Q).
    { rewrite Hn. intros Hz. unfold Qeq in Hz. cbn in Hz. lia. }
    rewrite inject_Z_plus. change (inject_Z 1) with 1%Q.
    rewrite inject_Z_plus in Hpos. change (inject_Z 1) with 1%Q in Hpos.
    field. exact Hpos.
Qed.

Lemma running_mean vs :
  vs <> [] ->
  (mean_ev (fold_left RolloutStats_update vs RolloutStats_new) == Qmean vs)%Q.
Proof.
  intros Hne. destruct (running_mean_invariant vs) as [Hn Hm]. cbv zeta in *.
  unfold Qmean. rewrite <- Hm, Hn.
  assert (Hpos : ~ (inject_Z (Z.of_nat (length vs)) == 0)%Q).
  { intros Hz. unfold Qeq in Hz. cbn in Hz. destruct vs; [congruence|]. cbn in Hz. lia. }
  field. exact Hpos.
Qed.

Section LRU_facts.
Context {K : Type} `{EqDecision K}.

Definition od_keys (od : list (K * RolloutStats)) : list K := map fst od.

Implicit Types (key : K) (od l : list (K * RolloutStats)).

Lemma od_get_None key od : od_get key od = None <-> ~ In key (od_keys od).
Proof.
  induction od as [|[k v] rest IH]; cbn [od_get od_keys map fst In].
  - tauto.
  - destruct (decide (k = key)) as [->|Hne].
    + split; [discriminate|intros Hn; exfalso; apply Hn; left; reflexivity].
    + rewrite IH. unfold od_keys. tauto.
Qed.

Lemma od_get_Some_In key od v : od_get key od = Some v -> In key (od_keys od).
Proof.
  intros Hg. destruct (in_dec (fun x y => decide (x = y)) key (od_keys od)) as [Hin|Hn];
    [exact Hin|].
  apply od_get_None in Hn. congruence.
Qed.

Lemma od_get_app key l1 l2 :
  od_get key (l1 ++ l2)
  = match od_get key l1 with Some v => Some v | None => od_get key l2 end.
Proof.
  induction l1 as [|[k v] rest IH]; cbn [od_get app]; [reflexivity|].
  destruct (decide (k = key)); [reflexivity|exact IH].
Qed.

Lemma od_get_remove key key' od :
  od_get key' (od_remove key od) = if decide (key = key') then None else od_get key' od.
Proof.
  induction od as [|[k v] rest IH]; cbn [od_get od_remove].
  - destruct (decide (key = key')); reflexivity.
  - destruct (decide (k = key)) as [->|Hne].
    + rewrite IH. destruct (decide (key = key')); reflexivity.
    + cbn [od_get]. rewrite IH.
      destruct (decide (k = key')) as [->|Hne'].
      * destruct (decide (key = key')); [congruence|reflexivity].
      * reflexivity.
Qed.

Lemma od_keys_app l1 l2 : od_keys (l1 ++ l2) = od_keys l1 ++ od_keys l2.
Proof. apply map_app. Qed.

Lemma od_keys_remove_absent key od :
  ~ In key (od_keys od) -> od_remove key od = od.
Proof.
  induction od as [|[k v] rest IH]; cbn [od_remove od_keys map fst In]; [reflexivity|].
  intros Hn. destruct (decide (k = key)) as [->|Hne]; [tauto|].
  f_equal. apply IH. unfold od_keys. tauto.
Qed.

(** Removing a key keeps the others, in order. *)
Lemma od_keys_remove key od :
  od_keys (od_remove key od) = List.remove (fun x y => decide (x = y)) key (od_keys od).
Proof.
  induction od as [|[k v] rest IH]; cbn [od_remove od_keys map fst List.remove];
    [reflexivity|].
  destruct (decide (key = k)) as [->|Hne].
  - destruct (decide (k = k)); [|congruence]. exact IH.
  - destruct (decide (k = key)); [congruence|].
    cbn [map fst]. f_equal. exact IH.
Qed.

Lemma od_set_absent key v od :
  ~ In key (od_keys od) -> od_set key v od = od ++ [(key, v)].
Proof.
  induction od as [|[k w] rest IH]; cbn [od_set od_keys map fst In app]; [reflexivity|].
  intros Hn. destruct (decide (k = key)) as [->|Hne]; [tauto|].
  f_equal. apply IH. unfold od_keys. tauto.
Qed.

Lemma move_to_end_last key v od :
  ~ In key (od_keys od) -> move_to_end key (od ++ [(key, v)]) = od ++ [(key, v)].
Proof.
  intros Hn. unfold move_to_end. rewrite od_get_app.
  rewrite (proj2 (od_get_None key od) Hn). cbn [od_get].
  destruct (decide (key = key)); [|congruence].
  assert (Hrem : forall l, ~ In key (od_keys l) ->
                   od_remove key (l ++ [(key, v)]) = l).
  { induction l as [|[k w] rest IH]; cbn [od_remove od_keys map fst In app].
    - destruct (decide (key = key)); [reflexivity|congruence].
    - intros Hn'. destruct (decide (k = key)) as [->|Hne]; [tauto|].
      f_equal. apply IH. unfold od_keys. tauto. }
  rewrite Hrem by exact Hn. reflexivity.
Qed.

Lemma od_keys_alter f key od : od_keys (od_alter f key od) = od_keys od.
Proof.
  induction od as [|[k w] rest IH]; cbn [od_alter od_keys map fst]; [reflexivity|].
  destruct (decide (k = key)); cbn [map fst]; [reflexivity|].
  f_equal. exact IH.
Qed.

Lemma od_get_alter f key key' od :
  od_get key' (od_alter f key od)
  = if decide (key = key') then option_map f (od_get key' od) else od_get key' od.
Proof.
  induction od as [|[k w] rest IH]; cbn [od_alter od_get option_map].
  - destruct (decide (key = key')); reflexivity.
  - destruct (decide (k = key)) as [->|Hne]; cbn [od_get].
    + destruct (decide (key = key')); reflexivity.
    + destruct (decide (k = key')) as [->|Hne'].
      * destruct (decide (key = key')); [congruence|reflexivity].
      * exact IH.
Qed.

(** The eviction loop drops entries from the front until the capacity
    is respected. *)
Lemma evict_loop_spec cap od ev :
  0 <= cap ->
  evict_loop cap od ev
  = (drop (length od - Z.to_nat cap) od,
     ev + Z.of_nat (length od - Z.to_nat cap)).
Proof.
  intros Hcap. revert ev.
  induction od as [|x rest IH]; intros ev; cbn [evict_loop].
  - cbn. f_equal. lia.
  - destruct (Z.ltb_spec cap (Z.of_nat (length (x :: rest)))) as [Hlt|Hge].
    + rewrite IH. cbn [length] in *.
      replace (S (length rest) - Z.to_nat cap)%nat
        with (S (length rest - Z.to_nat cap)) by lia.
      cbn [drop]. f_equal. lia.
    + cbn [length] in *.
      replace (S (length rest) - Z.to_nat cap)%nat with 0%nat by lia.
      cbn [drop]. f_equal. lia.
Qed.

End LRU_facts.

Section LRU_table.
Context {K : Type} `{EqDecision K}.
Implicit Types (key : K) (od l : list (K * RolloutStats)) (t : @LRUTranspoTable K).

(** Well-formed tables: positive capacity (as the constructor enforces),
    distinct keys (as in any dictionary), at most [capacity] entries. *)
Definition table_ok t : Prop :=
  0 < capacity t /\ List.NoDup (od_keys (_od t)) /\ table_len t <= capacity t.

(** The statistics an operation leaves under its key, given the old ones. *)
Definition op_value (o : @cache_op K) (old : RolloutStats) : RolloutStats :=
  match o with
  | OpUpdate _ ev => RolloutStats_update old ev
  | _ => old
  end.

Lemma od_remove_not_in key od : ~ In key (od_keys (od_remove key od)).
Proof.
  rewrite od_keys_remove. apply List.remove_In.
Qed.

Lemma od_alter_last f key v l :
  ~ In key (od_keys l) -> od_alter f key (l ++ [(key, v)]) = l ++ [(key, f v)].
Proof.
  induction l as [|[k w] rest IH]; cbn [od_alter od_keys map fst In app].
  - intros _. destruct (decide (key = key)); [reflexivity|congruence].
  - intros Hn. destruct (decide (k = key)) as [->|Hne]; [tauto|].
    f_equal. apply IH. unfold od_keys. tauto.
Qed.

Lemma od_alter_absent f key l : ~ In key (od_keys l) -> od_alter f key l = l.
Proof.
  induction l as [|[k w] rest IH]; cbn [od_alter od_keys map fst In]; [reflexivity|].
  intros Hn. destruct (decide (k = key)) as [->|Hne]; [tauto|].
  f_equal. apply IH. unfold od_keys. tauto.
Qed.

Lemma od_keys_drop n od : od_keys (drop n od) = drop n (od_keys od).
Proof. unfold od_keys. revert n. induction od; intros [|n]; cbn; auto. Qed.

Lemma In_drop {A} n (l : list A) x : In x (drop n l) -> In x l.
Proof.
  revert n. induction l as [|y l IH]; intros [|n]; cbn; auto.
  intros Hin. right. eapply IH. exact Hin.
Qed.

(** The number of entries the eviction loop removes after an insertion. *)
Definition evicted_count t : nat :=
  if table_len t <? capacity t then 0%nat else 1%nat.

(** A hit moves the entry to the most-recent end. *)
Lemma cache_step_hit t o v :
  od_get (op_key o) (_od t) = Some v ->
  cache_step t o
  = mkTable (capacity t)
      (od_remove (op_key o) (_od t) ++ [(op_key o, op_value o v)])
      (hits t + 1) (misses t) (evictions t).
Proof.
  intros Hg. destruct o as [k|k|k ev]; cbn [op_key op_value cache_step] in *;
    unfold update, get_or_create, get; rewrite Hg; cbn [snd fst];
    unfold move_to_end; rewrite Hg; cbn [capacity _od hits misses evictions];
    try reflexivity.
  rewrite od_alter_last by apply od_remove_not_in. reflexivity.
Qed.

(** A miss on [get] only counts the miss. *)
Lemma cache_step_get_miss t key :
  od_get key (_od t) = None ->
  cache_step t (OpGet key)
  = mkTable (capacity t) (_od t) (hits t) (misses t + 1) (evictions t).
Proof. intros Hg. cbn [cache_step]. unfold get. rewrite Hg. reflexivity. Qed.

(** A miss on [get_or_create] or [update] appends a fresh entry and evicts
    from the front if the table was full. *)
Lemma cache_step_create t o :
  table_ok t ->
  od_get (op_key o) (_od t) = None ->
  (forall k, o <> OpGet k) ->
  cache_step t o
  = mkTable (capacity t)
      (drop (evicted_count t) (_od t) ++ [(op_key o, op_value o RolloutStats_new)])
      (hits t) (misses t + 1) (evictions t + Z.of_nat (evicted_count t)).
Proof.
  intros (Hcap & Hnd & Hlen) Hg Hno.
  pose proof (proj1 (od_get_None _ _) Hg) as Hnin.
  assert (Hcreate :
    snd (get_or_create t (op_key o))
    = mkTable (capacity t)
        (drop (evicted_count t) (_od t) ++ [(op_key o, RolloutStats_new)])
        (hits t) (misses t + 1) (evictions t + Z.of_nat (evicted_count t))
    /\ fst (get_or_create t (op_key o)) = RolloutStats_new).
  { unfold get_or_create, get. rewrite Hg. cbn [snd fst capacity _od hits misses evictions].
    split; [|reflexivity].
    rewrite od_set_absent by exact Hnin. rewrite move_to_end_last by exact Hnin.
    unfold _evict_if_needed. cbn [capacity _od hits misses evictions].
    rewrite evict_loop_spec by lia.
    rewrite length_app. cbn [length].
    unfold evicted_count, table_len in *.
    destruct (Z.ltb_spec (Z.of_nat (length (_od t))) (capacity t)) as [Hlt|Hge].
    - replace (length (_od t) + 1 - Z.to_nat (capacity t))%nat with 0%nat by lia.
      reflexivity.
    - replace (length (_od t) + 1 - Z.to_nat (capacity t))%nat with 1%nat by lia.
      rewrite drop_app_le by lia. reflexivity. }
  destruct Hcreate as [Hsnd Hfst].
  destruct o as [k|k|k ev]; cbn [op_key op_value cache_step] in *.
  - exfalso. apply (Hno k). reflexivity.
  - exact Hsnd.
  - unfold update. destruct (get_or_create t k) as [v t1]. cbn [fst snd] in *.
    subst v t1. cbn [capacity _od hits misses evictions].
    rewrite od_alter_last; [reflexivity|].
    rewrite od_keys_drop. intros Hin. apply In_drop in Hin. contradiction.
Qed.

End LRU_table.

Section LRU_invariants.
Context {K : Type} `{EqDecision K}.
Implicit Types (key : K) (od l : list (K * RolloutStats)) (t : @LRUTranspoTable K).

(** Looking at the table without touching it. *)
Definition cache_lookup t key : option RolloutStats := od_get key (_od t).

Lemma init_table_ok cap t : LRUTranspoTable_init cap = Some t -> table_ok t.
Proof.
  unfold LRUTranspoTable_init. destruct (Z.leb_spec cap 0); [discriminate|].
  intros Heq. injection Heq as <-. unfold table_ok, table_len. cbn.
  split; [lia|]. split; [constructor|lia].
Qed.

Lemma NoDup_remove_keys key (ks : list K) :
  List.NoDup ks -> List.NoDup (List.remove (fun x y => decide (x = y)) key ks).
Proof.
  induction 1 as [|x ks Hx Hnd IH]; cbn [List.remove]; [constructor|].
  destruct (decide (key = x)); [exact IH|].
  constructor; [|exact IH].
  intros Hin. apply List.in_remove in Hin. tauto.
Qed.

Lemma length_remove_present key (ks : list K) :
  List.NoDup ks -> In key ks ->
  S (length (List.remove (fun x y => decide (x = y)) key ks)) = length ks.
Proof.
  induction 1 as [|x ks Hx Hnd IH]; cbn [List.remove In length]; [tauto|].
  intros [->|Hin].
  - destruct (decide (key = key)); [|congruence].
    rewrite List.notin_remove by exact Hx. reflexivity.
  - destruct (decide (key = x)) as [->|Hne]; [contradiction|].
    cbn [length]. rewrite IH by exact Hin. reflexivity.
Qed.

Lemma NoDup_drop {A} n (ks : list A) : List.NoDup ks -> List.NoDup (drop n ks).
Proof.
  intros Hnd. revert n. induction Hnd as [|x ks Hx Hnd IH]; intros [|n]; cbn [drop].
  - constructor.
  - constructor.
  - constructor; assumption.
  - apply IH.
Qed.

Lemma NoDup_snoc (ks : list K) key :
  List.NoDup ks -> ~ In key ks -> List.NoDup (ks ++ [key]).
Proof.
  induction 1 as [|x ks Hx Hnd IH]; cbn [app In]; intros Hn.
  - constructor; [intros []|constructor].
  - constructor.
    + rewrite in_app_iff. cbn [In]. intros [Hin|[Heq|[]]]; [contradiction|].
      apply Hn. left. symmetry. exact Heq.
    + apply IH. tauto.
Qed.

Lemma op_get_or_not (o : @cache_op K) :
  (exists k, o = OpGet k) \/ (forall k, o <> OpGet k).
Proof. destruct o; [left; eauto|right; discriminate|right; discriminate]. Qed.

(** Every operation keeps the table well formed and its capacity fixed. *)
Lemma cache_step_ok t o :
  table_ok t -> table_ok (cache_step t o) /\ capacity (cache_step t o) = capacity t.
Proof.
  intros Hok. pose proof Hok as (Hcap & Hnd & Hlen).
  destruct (od_get (op_key o) (_od t)) as [v|] eqn:Hg.
  - rewrite (cache_step_hit t o v Hg). unfold table_ok, table_len in *.
    cbn [capacity _od]. split; [|reflexivity]. split; [exact Hcap|].
    pose proof (od_get_Some_In _ _ _ Hg) as Hin.
    rewrite od_keys_app, od_keys_remove. cbn [od_keys map fst]. split.
    + apply NoDup_snoc; [apply NoDup_remove_keys; exact Hnd|apply List.remove_In].
    + rewrite length_app. cbn [length].
      pose proof (length_remove_present _ _ Hnd Hin) as Hl.
      rewrite <- od_keys_remove in Hl. unfold od_keys in Hl.
      rewrite !length_map in Hl. lia.
  - destruct (op_get_or_not o) as [[k ->]|Hno'].
    + rewrite cache_step_get_miss by exact Hg. split; [|reflexivity]. exact Hok.
    + rewrite cache_step_create by assumption.
      unfold table_ok, evicted_count, table_len in *. cbn [capacity _od].
      split; [|reflexivity]. split; [exact Hcap|].
      rewrite od_keys_app, od_keys_drop. cbn [od_keys map fst]. split.
      * apply NoDup_snoc; [apply NoDup_drop; exact Hnd|].
        intros Hin. apply In_drop in Hin. apply od_get_None in Hg. contradiction.
      * rewrite length_app, length_drop. cbn [length].
        destruct (Z.ltb_spec (Z.of_nat (length (_od t))) (capacity t)); lia.
Qed.

Lemma cache_run_ok ops : forall t,
  table_ok t -> table_ok (cache_run t ops) /\ capacity (cache_run t ops) = capacity t.
Proof.
  induction ops as [|o ops IH]; intros t Hok; cbn [cache_run fold_left].
  - split; [exact Hok|reflexivity].
  - destruct (cache_step_ok t o Hok) as [Hok1 Hc1].
    destruct (IH _ Hok1) as [Hok2 Hc2]. split; [exact Hok2|].
    unfold cache_run in Hc2. rewrite Hc2. exact Hc1.
Qed.

End LRU_invariants.

Section LRU_lookup.
Context {K : Type} `{EqDecision K}.
Implicit Types (key : K) (od l : list (K * RolloutStats)) (t : @LRUTranspoTable K).

(** The values folded into [key]'s statistics by a sequence of operations. *)
Fixpoint updates_of key (ops : list (@cache_op K)) : list Q :=
  match ops with
  | [] => []
  | OpUpdate k ev :: rest => if decide (k = key) then ev :: updates_of key rest
                             else updates_of key rest
  | _ :: rest => updates_of key rest
  end.

Lemma od_get_drop1 key od :
  List.NoDup (od_keys od) ->
  od_get key (drop 1 od) = od_get key od \/ od_get key (drop 1 od) = None.
Proof.
  destruct od as [|[k v] rest]; cbn [drop od_get od_keys map fst]; [auto|].
  intros Hnd. rewrite drop_0. destruct (decide (k = key)) as [->|Hne]; [|auto].
  right. apply od_get_None. inversion Hnd; assumption.
Qed.

(** An operation on the same key: the entry is there afterwards (except
    after a missing [get]) and holds the old statistics, updated if the
    operation is an update. *)
Lemma cache_step_same t o s0 :
  cache_lookup t (op_key o) = Some s0 ->
  cache_lookup (cache_step t o) (op_key o) = Some (op_value o s0).
Proof.
  unfold cache_lookup. intros Hg. rewrite (cache_step_hit t o s0 Hg). cbn [_od].
  rewrite od_get_app, od_get_remove.
  destruct (decide (op_key o = op_key o)); [|congruence].
  cbn [od_get]. destruct (decide (op_key o = op_key o)); [reflexivity|congruence].
Qed.

Lemma cache_step_fresh t o :
  table_ok t ->
  cache_lookup t (op_key o) = None ->
  (forall k, o <> OpGet k) ->
  cache_lookup (cache_step t o) (op_key o) = Some (op_value o RolloutStats_new).
Proof.
  unfold cache_lookup. intros Hok Hg Hno. rewrite cache_step_create by assumption.
  cbn [_od]. rewrite od_get_app.
  assert (Hd : od_get (op_key o) (drop (evicted_count t) (_od t)) = None).
  { apply od_get_None. rewrite od_keys_drop. intros Hin. apply In_drop in Hin.
    apply od_get_None in Hg. contradiction. }
  rewrite Hd. cbn [od_get].
  destruct (decide (op_key o = op_key o)); [reflexivity|congruence].
Qed.

(** An operation on another key leaves an entry alone, or evicts it. *)
Lemma cache_step_other t o key :
  table_ok t ->
  op_key o <> key ->
  cache_lookup (cache_step t o) key = cache_lookup t key
  \/ cache_lookup (cache_step t o) key = None.
Proof.
  unfold cache_lookup. intros Hok Hne. pose proof Hok as (Hcap & Hnd & Hlen).
  destruct (od_get (op_key o) (_od t)) as [v|] eqn:Hg.
  - rewrite (cache_step_hit t o v Hg). cbn [_od]. left.
    rewrite od_get_app, od_get_remove.
    destruct (decide (op_key o = key)); [contradiction|].
    destruct (od_get key (_od t)); [reflexivity|].
    cbn [od_get]. destruct (decide (op_key o = key)); [contradiction|reflexivity].
  - destruct (op_get_or_not o) as [[k ->]|Hno].
    + rewrite cache_step_get_miss by exact Hg. left. reflexivity.
    + rewrite cache_step_create by assumption. cbn [_od].
      rewrite od_get_app.
      assert (Hlast : od_get key [(op_key o, op_value o RolloutStats_new)] = None).
      { cbn [od_get]. destruct (decide (op_key o = key)); [contradiction|reflexivity]. }
      unfold evicted_count. destruct (table_len t <? capacity t).
      * rewrite drop_0. left. destruct (od_get key (_od t)); [reflexivity|exact Hlast].
      * destruct (od_get_drop1 key (_od t) Hnd) as [-> | ->].
        -- left. destruct (od_get key (_od t)); [reflexivity|exact Hlast].
        -- right. exact Hlast.
Qed.

Lemma op_value_updates key o s :
  op_key o = key ->
  fold_left RolloutStats_update (updates_of key [o]) s = op_value o s.
Proof.
  intros <-. destruct o as [k|k|k ev]; cbn [updates_of op_value op_key fold_left];
    try reflexivity.
  destruct (decide (k = k)); [reflexivity|congruence].
Qed.

Lemma updates_of_cons key o ops :
  updates_of key (o :: ops) = updates_of key [o] ++ updates_of key ops.
Proof.
  destruct o as [k|k|k ev]; cbn [updates_of app]; try reflexivity.
  destruct (decide (k = key)); reflexivity.
Qed.

Lemma updates_of_other key o : op_key o <> key -> updates_of key [o] = [].
Proof.
  destruct o as [k|k|k ev]; cbn [updates_of op_key]; try reflexivity.
  intros Hne. destruct (decide (k = key)); [contradiction|reflexivity].
Qed.

(** While an entry stays in the table, it accumulates exactly the values of
    the updates issued for its key. *)
Lemma resident_entry_accumulates key ops : forall t s0,
  table_ok t ->
  cache_lookup t key = Some s0 ->
  (forall n, cache_lookup (cache_run t (take n ops)) key <> None) ->
  cache_lookup (cache_run t ops) key
  = Some (fold_left RolloutStats_update (updates_of key ops) s0).
Proof.
  induction ops as [|o ops IH]; intros t s0 Hok Hlook Hres.
  - exact Hlook.
  - cbn [cache_run fold_left]. rewrite updates_of_cons, fold_left_app.
    destruct (cache_step_ok t o Hok) as [Hok1 _].
    pose proof (Hres 1%nat) as Hres1. cbn [take cache_run fold_left] in Hres1.
    rewrite take_0 in Hres1. cbn [fold_left] in Hres1.
    assert (Hstep : cache_lookup (cache_step t o) key
                    = Some (fold_left RolloutStats_update (updates_of key [o]) s0)).
    { destruct (decide (op_key o = key)) as [Heq|Hne].
      - rewrite (op_value_updates key o s0 Heq). subst key.
        apply cache_step_same. exact Hlook.
      - rewrite (updates_of_other key o Hne). cbn [fold_left].
        destruct (cache_step_other t o key Hok Hne) as [Hsame|Hgone].
        + rewrite Hsame. exact Hlook.
        + contradiction. }
    apply (IH (cache_step t o) _ Hok1 Hstep).
    intros n. exact (Hres (S n)).
Qed.

End LRU_lookup.

Section LRU_order.
Context {K : Type} `{EqDecision K}.
Implicit Types (key : K) (od l : list (K * RolloutStats)) (t : @LRUTranspoTable K).

(** [age key h]: the number of operations issued after the last one on
    [key], for a history [h] of operation keys listed most recent first. *)
Fixpoint age key (h : list K) : option nat :=
  match h with
  | [] => None
  | k :: rest => if decide (k = key) then Some 0%nat
                 else match age key rest with
                      | Some a => Some (S a)
                      | None => None
                      end
  end.

(** The keys of the operations issued so far, most recent first. *)
Definition access_history (ops : list (@cache_op K)) : list K := rev (map op_key ops).

(** [k1] was last accessed before [k2] was. *)
Definition accessed_before (h : list K) (k1 k2 : K) : Prop :=
  exists a1 a2, age k1 h = Some a1 /\ age k2 h = Some a2 /\ (a2 < a1)%nat.

(** Recency order: every stored key has been accessed, and keys are stored
    from least to most recently accessed. *)
Inductive recency_sorted (h : list K) : list K -> Prop :=
| recency_nil : recency_sorted h []
| recency_cons k ks :
    is_Some (age k h) ->
    Forall (accessed_before h k) ks ->
    recency_sorted h ks ->
    recency_sorted h (k :: ks).

Lemma age_cons_same key h : age key (key :: h) = Some 0%nat.
Proof. cbn [age]. destruct (decide (key = key)); [reflexivity|congruence]. Qed.

Lemma age_cons_other key k h a :
  k <> key -> age key h = Some a -> age key (k :: h) = Some (S a).
Proof.
  intros Hne Ha. cbn [age]. destruct (decide (k = key)); [contradiction|].
  rewrite Ha. reflexivity.
Qed.

Lemma accessed_before_cons h k k1 k2 :
  k <> k1 -> k <> k2 -> accessed_before h k1 k2 -> accessed_before (k :: h) k1 k2.
Proof.
  intros H1 H2 (a1 & a2 & Ha1 & Ha2 & Hlt).
  exists (S a1), (S a2). split; [apply age_cons_other; assumption|].
  split; [apply age_cons_other; assumption|lia].
Qed.

Lemma accessed_before_newest h k k1 :
  k <> k1 -> is_Some (age k1 h) -> accessed_before (k :: h) k1 k.
Proof.
  intros Hne [a Ha]. exists (S a), 0%nat.
  split; [apply age_cons_other; assumption|].
  split; [apply age_cons_same|lia].
Qed.

Lemma recency_sorted_In h ks k : recency_sorted h ks -> In k ks -> is_Some (age k h).
Proof.
  induction 1 as [|x ks Hx Hall Hs IH]; cbn [In]; [tauto|].
  intros [<-|Hin]; [exact Hx|apply IH; exact Hin].
Qed.

(** An access to a key that is not stored ages all stored keys alike. *)
Lemma recency_sorted_cons_history h k ks :
  ~ In k ks -> recency_sorted h ks -> recency_sorted (k :: h) ks.
Proof.
  intros Hn Hs. induction Hs as [|x ks Hx Hall Hs IH]; [constructor|].
  cbn [In] in Hn. constructor.
  - destruct Hx as [a Ha]. exists (S a). apply age_cons_other; [|exact Ha].
    intros ->. tauto.
  - rewrite Forall_forall in *. intros y Hy.
    apply accessed_before_cons; [intros ->; tauto| |apply Hall; exact Hy].
    intros ->. apply Hn. right. apply list_elem_of_In. exact Hy.
  - apply IH. tauto.
Qed.

Lemma recency_sorted_remove h key ks :
  recency_sorted h ks ->
  recency_sorted h (List.remove (fun x y => decide (x = y)) key ks).
Proof.
  induction 1 as [|x ks Hx Hall Hs IH]; cbn [List.remove]; [constructor|].
  destruct (decide (key = x)); [exact IH|].
  constructor; [exact Hx| |exact IH].
  rewrite Forall_forall in *. intros y Hy. apply Hall.
  apply list_elem_of_In in Hy. apply List.in_remove in Hy.
  apply list_elem_of_In. tauto.
Qed.

Lemma recency_sorted_drop h n ks : recency_sorted h ks -> recency_sorted h (drop n ks).
Proof.
  intros Hs. revert n. induction Hs as [|x ks Hx Hall Hs IH]; intros [|n]; cbn [drop].
  - constructor.
  - constructor.
  - constructor; assumption.
  - apply IH.
Qed.

(** Moving (or adding) the accessed key to the most-recent end. *)
Lemma recency_sorted_snoc h k ks :
  ~ In k ks -> recency_sorted h ks -> recency_sorted (k :: h) (ks ++ [k]).
Proof.
  intros Hn Hs. induction Hs as [|x ks Hx Hall Hs IH]; cbn [app].
  - constructor; [exists 0%nat; apply age_cons_same|constructor|constructor].
  - cbn [In] in Hn.
    assert (Hxk : k <> x) by (intros ->; tauto).
    constructor.
    + destruct Hx as [a Ha]. exists (S a). apply age_cons_other; assumption.
    + apply Forall_app. split.
      * rewrite Forall_forall in *. intros y Hy.
        apply accessed_before_cons; [exact Hxk| |apply Hall; exact Hy].
        intros ->. apply Hn. right. apply list_elem_of_In. exact Hy.
      * constructor; [|constructor].
        apply accessed_before_newest; assumption.
    + apply IH. tauto.
Qed.

(** The table's order is the recency order of the operations issued on it,
    whatever they were. *)
Lemma cache_run_recency cap t0 ops :
  LRUTranspoTable_init cap = Some t0 ->
  recency_sorted (access_history ops) (od_keys (_od (cache_run t0 ops))).
Proof.
  intros Hinit. pose proof (init_table_ok _ _ Hinit) as Hok0.
  induction ops as [|o ops IH] using rev_ind.
  - unfold LRUTranspoTable_init in Hinit. destruct (cap <=? 0); [discriminate|].
    injection Hinit as <-. constructor.
  - unfold cache_run, access_history in *. rewrite fold_left_app, map_app, rev_app_distr.
    cbn [fold_left map rev app].
    set (t := fold_left cache_step ops t0) in *.
    destruct (cache_run_ok ops t0 Hok0) as [Hok _]. fold t in Hok. unfold cache_run in Hok.
    fold t in Hok.
    destruct (od_get (op_key o) (_od t)) as [v|] eqn:Hg.
    + rewrite (cache_step_hit t o v Hg). cbn [_od].
      rewrite od_keys_app, od_keys_remove. cbn [od_keys map fst].
      apply recency_sorted_snoc; [apply List.remove_In|].
      apply recency_sorted_remove. exact IH.
    + pose proof (proj1 (od_get_None _ _) Hg) as Hnin.
      destruct (op_get_or_not o) as [[k ->]|Hno].
      * rewrite cache_step_get_miss by exact Hg. cbn [_od op_key].
        apply recency_sorted_cons_history; assumption.
      * rewrite cache_step_create by assumption. cbn [_od].
        rewrite od_keys_app, od_keys_drop. cbn [od_keys map fst].
        apply recency_sorted_snoc.
        -- intros Hin. apply In_drop in Hin. contradiction.
        -- apply recency_sorted_drop. exact IH.
Qed.

End LRU_order.

(** The mean clause read for every sequence of operations: whatever the
    table holds for a key is the mean of all the values the key was updated
    with. *)
Definition mean_of_all_updates (cap : Z) (ops : list (@cache_op Z)) (key : Z) : Prop :=
  forall t0 s,
    LRUTranspoTable_init cap = Some t0 ->
    cache_lookup (cache_run t0 ops) key = Some s ->
    (mean_ev s == Qmean (updates_of key ops))%Q.

(** That reading fails when the key is evicted between two of its updates:
    with capacity 1, updating key 1 with 3, key 2 with 5 (which evicts
    key 1) and key 1 with 5 leaves key 1 with count 1 and mean 5, while the
    mean of its two values is 4. *)
Lemma evicted_key_restarts_mean :
  LRUTranspoTable_init 1 = Some (mkTable (K:=Z) 1 [] 0 0 0)
  /\ updates_of 1 [OpUpdate 1 3%Q; OpUpdate 2 5%Q; OpUpdate 1 5%Q] = [3%Q; 5%Q]
  /\ (Qmean [3%Q; 5%Q] == 4)%Q
  /\ (exists s,
        cache_lookup
          (cache_run (mkTable 1 [] 0 0 0) [OpUpdate 1 3%Q; OpUpdate 2 5%Q; OpUpdate 1 5%Q]) 1
        = Some s
        /\ rs_n s = 1 /\ (mean_ev s == 5)%Q)
  /\ ~ mean_of_all_updates 1 [OpUpdate 1 3%Q; OpUpdate 2 5%Q; OpUpdate 1 5%Q] 1.
Proof.
  split; [reflexivity|]. split; [reflexivity|]. split; [reflexivity|].
  assert (Hs : exists s,
             cache_lookup
               (cache_run (mkTable 1 [] 0 0 0)
                  [OpUpdate 1 3%Q; OpUpdate 2 5%Q; OpUpdate 1 5%Q]) 1
             = Some s
             /\ rs_n s = 1 /\ (mean_ev s == 5)%Q).
  { eexists. split; [vm_compute; reflexivity|]. split; reflexivity. }
  split; [exact Hs|].
  intros Hall. destruct Hs as (s & Hl & _ & Hm).
  specialize (Hall _ s eq_refl Hl). rewrite Hm in Hall.
  vm_compute in Hall. discriminate Hall.
Qed.

(** C8 (amended). For a table built by the constructor with capacity [cap]
    and driven by any sequence of operations:
    - folding values v1..vn into fresh statistics gives count n and mean
      (v1 + ... + vn) / n (exactly, in rational arithmetic);
    - a key that is not cached, then updated with v1 and further updated
      while it stays in the table (other operations interleaved at will),
      holds count n and the arithmetic mean of its n values; the values a
      key received before it was evicted are forgotten;
    - the number of stored keys never exceeds [cap];
    - inserting a new key into a full table evicts exactly the entry at the
      front, which is the stored key whose last access is the oldest, and
      keeps all other entries; inserting into a table that is not full
      evicts nothing. *)
Theorem rollout_cache_spec {K : Type} `{EqDecision K} (cap : Z)
    (t0 : @LRUTranspoTable K) :
  LRUTranspoTable_init cap = Some t0 ->
  (forall vs, vs <> [] ->
     rs_n (fold_left RolloutStats_update vs RolloutStats_new) = Z.of_nat (length vs)
     /\ (mean_ev (fold_left RolloutStats_update vs RolloutStats_new) == Qmean vs)%Q)
  /\ (forall ops key v rest,
        cache_lookup (cache_run t0 ops) key = None ->
        (forall n, cache_lookup
                     (cache_run (cache_run t0 ops) (OpUpdate key v :: take n rest)) key
                   <> None) ->
        exists s,
          cache_lookup (cache_run (cache_run t0 ops) (OpUpdate key v :: rest)) key = Some s
          /\ rs_n s = Z.of_nat (length (v :: updates_of key rest))
          /\ (mean_ev s == Qmean (v :: updates_of key rest))%Q)
  /\ (forall ops, table_len (cache_run t0 ops) <= cap)
  /\ (forall ops o,
        (forall k, o <> OpGet k) ->
        cache_lookup (cache_run t0 ops) (op_key o) = None ->
        (table_len (cache_run t0 ops) = cap ->
           exists lru v rest,
             _od (cache_run t0 ops) = (lru, v) :: rest
             /\ _od (cache_step (cache_run t0 ops) o)
                = rest ++ [(op_key o, op_value o RolloutStats_new)]
             /\ evictions (cache_step (cache_run t0 ops) o)
                = evictions (cache_run t0 ops) + 1
             /\ Forall (accessed_before (access_history ops) lru) (od_keys rest))
        /\ (table_len (cache_run t0 ops) < cap ->
              _od (cache_step (cache_run t0 ops) o)
              = _od (cache_run t0 ops) ++ [(op_key o, op_value o RolloutStats_new)]
              /\ evictions (cache_step (cache_run t0 ops) o)
                 = evictions (cache_run t0 ops))).
Proof.
  intros Hinit. pose proof (init_table_ok _ _ Hinit) as Hok0.
  assert (Hcap0 : capacity t0 = cap).
  { unfold LRUTranspoTable_init in Hinit. destruct (cap <=? 0); [discriminate|].
    injection Hinit as <-. reflexivity. }
  split; [|split; [|split]].
  - intros vs Hne. split.
    + apply (running_mean_invariant vs).
    + apply running_mean. exact Hne.
  - intros ops key v rest Hnone Hres.
    destruct (cache_run_ok ops t0 Hok0) as [Hok _].
    set (t := cache_run t0 ops) in *.
    destruct (cache_step_ok t (OpUpdate key v) Hok) as [Hok1 _].
    pose proof (cache_step_fresh t (OpUpdate key v) Hok Hnone) as Hfresh.
    cbn [op_key op_value] in Hfresh.
    assert (Hno : forall k, OpUpdate key v <> OpGet k) by discriminate.
    specialize (Hfresh Hno).
    pose proof (resident_entry_accumulates key rest _ _ Hok1 Hfresh) as Hacc.
    cbn [cache_run fold_left] in Hres |- *.
    specialize (Hacc Hres). unfold cache_run in Hacc. rewrite Hacc.
    eexists. split; [reflexivity|].
    change (fold_left RolloutStats_update (updates_of key rest)
              (RolloutStats_update RolloutStats_new v))
      with (fold_left RolloutStats_update (v :: updates_of key rest) RolloutStats_new).
    split.
    + apply (running_mean_invariant (v :: updates_of key rest)).
    + apply running_mean. discriminate.
  - intros ops. destruct (cache_run_ok ops t0 Hok0) as [(_ & _ & Hlen) Hc].
    rewrite Hc, Hcap0 in Hlen. exact Hlen.
  - intros ops o Hno Hnone.
    destruct (cache_run_ok ops t0 Hok0) as [Hok Hc].
    pose proof (cache_run_recency cap t0 ops Hinit) as Hsorted.
    set (t := cache_run t0 ops) in *.
    rewrite (cache_step_create t o Hok Hnone Hno).
    cbn [_od evictions]. unfold evicted_count. rewrite Hc, Hcap0.
    split; intros Hfull.
    + replace (table_len t <? cap) with false by (symmetry; apply Z.ltb_ge; lia).
      destruct (_od t) as [|[lru v] rest] eqn:Hod.
      { unfold table_len in Hfull. rewrite Hod in Hfull. cbn in Hfull.
        destruct Hok as (Hpos & _). lia. }
      exists lru, v, rest. cbn [drop]. rewrite drop_0.
      split; [reflexivity|]. split; [reflexivity|]. split; [reflexivity|].
      cbn [od_keys map fst] in Hsorted. inversion Hsorted; assumption.
    + replace (table_len t <? cap) with true by (symmetry; apply Z.ltb_lt; lia).
      rewrite drop_0. split; [reflexivity|]. cbn. lia.
Qed.

(** A table of capacity 2 after updating keys 1 and 2 and reading key 1:
    key 2 is now the least recently used one. *)
Definition sample_table : @LRUTranspoTable Z :=
  cache_run (mkTable 2 [] 0 0 0) [OpUpdate 1 3%Q; OpUpdate 2 5%Q; OpGet 1].

Lemma rollout_cache_spec_witness :
  table_len sample_table <= 2
  /\ (exists v rest,
        _od sample_table = (2, v) :: rest
        /\ _od (cache_step sample_table (OpUpdate 7 4%Q))
           = rest ++ [(7, RolloutStats_update RolloutStats_new 4%Q)])
  /\ (mean_ev (fold_left RolloutStats_update [3%Q; 5%Q; 4%Q] RolloutStats_new) == 4)%Q
  /\ (exists s,
        cache_lookup
          (cache_run (mkTable 2 [] 0 0 0) [OpUpdate 1 3%Q; OpUpdate 2 5%Q; OpUpdate 1 5%Q]) 1
        = Some s
        /\ rs_n s = 2 /\ (mean_ev s == 4)%Q).
Proof.
  destruct (rollout_cache_spec (K:=Z) 2 (mkTable 2 [] 0 0 0) eq_refl)
    as (Hmean & Hres & Hsize & Hevict).
  split; [apply Hsize|]. split; [|split].
  - destruct (Hevict [OpUpdate 1 3%Q; OpUpdate 2 5%Q; OpGet 1] (OpUpdate 7 4%Q))
      as [Hfull _]; [discriminate|reflexivity|].
    destruct (Hfull eq_refl) as (lru & v & rest & Hod & Hod' & _).
    exists v, rest. split; [|exact Hod'].
    assert (Hlru : lru = 2).
    { change (_od (cache_run (mkTable 2 [] 0 0 0) [OpUpdate 1 3%Q; OpUpdate 2 5%Q; OpGet 1]))
        with (_od sample_table) in Hod.
      vm_compute in Hod. injection Hod as <- _ _. reflexivity. }
    subst lru. exact Hod.
  - destruct (Hmean [3%Q; 5%Q; 4%Q]) as [_ Hm]; [discriminate|].
    rewrite Hm. reflexivity.
  - destruct (Hres [] 1 3%Q [OpUpdate 2 5%Q; OpUpdate 1 5%Q]) as (s & Hs & Hn & Hm).
    + reflexivity.
    + intros [|[|[|n]]]; vm_compute; discriminate.
    + exists s. split; [exact Hs|]. split; [exact Hn|].
      rewrite Hm. reflexivity.
Defined.

(** ** UCB selection *)

Lemma ensure_actions_visits acts : forall node a,
  visits (ensure_actions node acts) a = visits node a.
Proof.
  induction acts as [|x acts IH]; intros node a; cbn [ensure_actions fold_left];
    [reflexivity|].
  fold (ensure_actions
          (match na node !! x with
           | Some _ => node
           | None => mkInfoNode (node_n node) (<[x:=0]> (na node)) (<[x:=0%R]> (wa node))
           end) acts).
  rewrite IH. destruct (na node !! x) eqn:Hx; [reflexivity|].
  unfold visits. cbn [na]. destruct (decide (x = a)) as [->|Hne].
  - rewrite lookup_insert_eq, Hx. reflexivity.
  - rewrite lookup_insert_ne by exact Hne. reflexivity.
Qed.

Lemma ensure_actions_known acts : forall node,
  (forall a, In a acts -> is_Some (na node !! a)) -> ensure_actions node acts = node.
Proof.
  induction acts as [|x acts IH]; intros node Hall; cbn [ensure_actions fold_left];
    [reflexivity|].
  destruct (Hall x (or_introl eq_refl)) as [k Hk]. rewrite Hk.
  apply IH. intros a Ha. apply Hall. right. exact Ha.
Qed.

Lemma ensure_actions_n acts : forall node, node_n (ensure_actions node acts) = node_n node.
Proof.
  induction acts as [|x acts IH]; intros node; cbn [ensure_actions fold_left];
    [reflexivity|].
  fold (ensure_actions
          (match na node !! x with
           | Some _ => node
           | None => mkInfoNode (node_n node) (<[x:=0]> (na node)) (<[x:=0%R]> (wa node))
           end) acts).
  rewrite IH. destruct (na node !! x); reflexivity.
Qed.

(** The actions of [acts] the node has not tried yet, in order. *)
Definition unvisited (node : InfoNode) (acts : list Z) : list Z :=
  List.filter (fun a => visits node a =? 0) acts.

Lemma find_head_filter {A} (P : A -> bool) (l : list A) :
  List.find P l = head (List.filter P l).
Proof.
  induction l as [|x l IH]; cbn [List.find List.filter]; [reflexivity|].
  destruct (P x); [reflexivity|exact IH].
Qed.

Lemma unvisited_ensure node acts acts' :
  unvisited (ensure_actions node acts') acts = unvisited node acts.
Proof.
  unfold unvisited. apply List.filter_ext. intros a.
  rewrite ensure_actions_visits. reflexivity.
Qed.

(** First-play urgency: with an unvisited action around, the first one in
    [acts] is returned and no score is computed. *)
Lemma ucb_select_unvisited node acts c a rest :
  unvisited node acts = a :: rest ->
  ucb_select_action node acts c = (Ok a, ensure_actions node acts).
Proof.
  intros Hu. unfold ucb_select_action. cbv zeta.
  rewrite find_head_filter. fold (unvisited (ensure_actions node acts) acts).
  rewrite unvisited_ensure, Hu. reflexivity.
Qed.

Lemma visits_update node a v b :
  visits (node_update node a v) b = if decide (a = b) then visits node a + 1 else visits node b.
Proof.
  unfold visits at 1. unfold node_update. cbn [na].
  destruct (decide (a = b)) as [->|Hne].
  - rewrite lookup_insert_eq. reflexivity.
  - rewrite lookup_insert_ne by exact Hne. reflexivity.
Qed.

Lemma filter_head_NoDup (P Q : Z -> bool) (acts : list Z) a rest :
  List.NoDup acts ->
  List.filter P acts = a :: rest ->
  Q a = false ->
  (forall b, b <> a -> Q b = P b) ->
  List.filter Q acts = rest.
Proof.
  intros Hnd. revert a rest.
  induction Hnd as [|x acts Hx Hnd IH]; intros a rest Hf Hqa Hq;
    cbn [List.filter] in *; [discriminate|].
  destruct (P x) eqn:Hpx.
  - injection Hf as -> Hrest. rewrite Hqa. rewrite <- Hrest.
    apply List.filter_ext_in. intros b Hb. apply Hq. intros ->. contradiction.
  - assert (Hxa : x <> a).
    { intros ->. assert (Hin : In a (List.filter P acts)) by (rewrite Hf; left; reflexivity).
      apply List.filter_In in Hin. tauto. }
    rewrite (Hq x Hxa), Hpx. apply (IH a rest Hf Hqa Hq).
Qed.

(** After the selected unvisited action is updated, the remaining unvisited
    actions are the rest of the list. *)
Lemma unvisited_after_update node acts a rest v :
  List.NoDup acts ->
  unvisited node acts = a :: rest ->
  unvisited (node_update (ensure_actions node acts) a v) acts = rest.
Proof.
  intros Hnd Hu.
  assert (Ha : visits node a = 0).
  { assert (Hin : In a (unvisited node acts)) by (rewrite Hu; left; reflexivity).
    apply List.filter_In in Hin. apply Z.eqb_eq. tauto. }
  unfold unvisited. eapply filter_head_NoDup; [exact Hnd|exact Hu| |].
  - rewrite visits_update. destruct (decide (a = a)); [|congruence].
    rewrite ensure_actions_visits, Ha. reflexivity.
  - intros b Hb. rewrite visits_update.
    destruct (decide (a = b)); [congruence|].
    rewrite ensure_actions_visits. reflexivity.
Qed.

(** Rounds of selection and update pick the unvisited actions one by one,
    in the order of [acts]. *)
Lemma select_rounds_unvisited acts c : forall vs node,
  List.NoDup acts ->
  (length vs <= length (unvisited node acts))%nat ->
  fst (select_rounds node acts c vs) = map Ok (take (length vs) (unvisited node acts))
  /\ unvisited (snd (select_rounds node acts c vs)) acts
     = drop (length vs) (unvisited node acts).
Proof.
  induction vs as [|v vs IH]; intros node Hnd Hlen; cbn [select_rounds length].
  - rewrite take_0, drop_0. split; reflexivity.
  - destruct (unvisited node acts) as [|a rest] eqn:Hu; [cbn in Hlen; lia|].
    rewrite (ucb_select_unvisited node acts c a rest Hu).
    pose proof (unvisited_after_update node acts a rest v Hnd Hu) as Hu'.
    specialize (IH (node_update (ensure_actions node acts) a v) Hnd).
    rewrite Hu' in IH. cbn [length] in Hlen.
    destruct (IH ltac:(lia)) as [IH1 IH2].
    destruct (select_rounds (node_update (ensure_actions node acts) a v) acts c vs)
      as [rs node'] eqn:Hsel.
    cbn [fst snd take drop map] in *. rewrite IH1. split; [reflexivity|exact IH2].
Qed.

(** The score [ucb_select_action] computes for a visited action:
    mean return plus [exploration_c * sqrt (ln (N + 1) / n_a)]. *)
Definition ucb_score (node : InfoNode) (exploration_c : R) (a : Z) : R :=
  (match wa node !! a with Some w => w | None => 0 end / IZR (visits node a)
   + exploration_c * sqrt (ln (IZR (node_n node) + 1) / IZR (visits node a)))%R.

Lemma find_all_false {A} (P : A -> bool) (l : list A) :
  (forall x, In x l -> P x = false) -> List.find P l = None.
Proof.
  induction l as [|x l IH]; intros Hall; cbn [List.find]; [reflexivity|].
  rewrite (Hall x (or_introl eq_refl)). apply IH.
  intros y Hy. apply Hall. right. exact Hy.
Qed.

(** The scoring loop keeps the best score seen so far and an action that
    attains it. *)
Lemma ucb_loop_spec node c acts :
  (forall a, In a acts -> is_Some (wa node !! a)) ->
  (forall a, In a acts ->
     (0 <= ln (IZR (node_n node) + 1) / IZR (visits node a))%R) ->
  forall best_a best_s,
  exists r s,
    ucb_loop node c (ln (IZR (node_n node) + 1)) acts best_a best_s = Ok r
    /\ (best_s <= s)%R
    /\ (forall b, In b acts -> (ucb_score node c b <= s)%R)
    /\ ((r = best_a /\ s = best_s)
        \/ (exists a, r = Some a /\ In a acts /\ s = ucb_score node c a)).
Proof.
  induction acts as [|a acts IH]; intros Hwa Hdom best_a best_s; cbn [ucb_loop].
  - exists best_a, best_s. split; [reflexivity|]. split; [lra|].
    split; [intros b []|left; split; reflexivity].
  - destruct (Hwa a (or_introl eq_refl)) as [w Hw]. rewrite Hw.
    pose proof (Hdom a (or_introl eq_refl)) as Hd.
    destruct (Rlt_dec _ _) as [Hneg|_]; [lra|].
    assert (Hscore : ucb_value node c (ln (IZR (node_n node) + 1)) w a = ucb_score node c a).
    { unfold ucb_value, ucb_score. rewrite Hw. reflexivity. }
    rewrite Hscore.
    assert (Hwa' : forall b, In b acts -> is_Some (wa node !! b))
      by (intros b Hb; apply Hwa; right; exact Hb).
    assert (Hdom' : forall b, In b acts ->
              (0 <= ln (IZR (node_n node) + 1) / IZR (visits node b))%R)
      by (intros b Hb; apply Hdom; right; exact Hb).
    destruct (Rgt_dec (ucb_score node c a) best_s) as [Hgt|Hle].
    + destruct (IH Hwa' Hdom' (Some a) (ucb_score node c a))
        as (r & s & Hrun & Hge & Hall & Hwho).
      exists r, s. split; [exact Hrun|]. split; [lra|]. split.
      * intros b [<-|Hb]; [exact Hge|apply Hall; exact Hb].
      * right. destruct Hwho as [[-> ->]|(a' & -> & Hin & ->)].
        -- exists a. split; [reflexivity|]. split; [left; reflexivity|reflexivity].
        -- exists a'. split; [reflexivity|]. split; [right; exact Hin|reflexivity].
    + destruct (IH Hwa' Hdom' best_a best_s) as (r & s & Hrun & Hge & Hall & Hwho).
      exists r, s. split; [exact Hrun|]. split; [exact Hge|]. split.
      * intros b [<-|Hb]; [lra|apply Hall; exact Hb].
      * destruct Hwho as [[-> ->]|(a' & -> & Hin & ->)]; [left; split; reflexivity|].
        right. exists a'. split; [reflexivity|]. split; [right; exact Hin|reflexivity].
Qed.

(** Once every action is visited, the selection is an argmax of the score. *)
Lemma ucb_select_visited node acts c :
  acts <> [] ->
  (forall a, In a acts -> 0 < visits node a) ->
  (forall a, In a acts -> is_Some (wa node !! a)) ->
  0 <= node_n node ->
  (forall a, In a acts -> (best_s_init < ucb_score node c a)%R) ->
  exists a,
    ucb_select_action node acts c = (Ok a, node)
    /\ In a acts
    /\ forall b, In b acts -> (ucb_score node c b <= ucb_score node c a)%R.
Proof.
  intros Hne Hvis Hwa Hn Hbig.
  assert (Hknown : ensure_actions node acts = node).
  { apply ensure_actions_known. intros a Ha. specialize (Hvis a Ha).
    unfold visits in Hvis. destruct (na node !! a); [eauto|lia]. }
  unfold ucb_select_action. cbv zeta. rewrite Hknown.
  rewrite find_all_false
    by (intros a Ha; apply Z.eqb_neq; specialize (Hvis a Ha); lia).
  assert (Hn1 : (1 <= IZR (node_n node) + 1)%R).
  { apply IZR_le in Hn. lra. }
  destruct (Rle_dec _ _) as [Hbad|_]; [lra|].
  assert (Hln : (0 <= ln (IZR (node_n node) + 1))%R).
  { destruct Hn1 as [Hlt|<-]; [|rewrite ln_1; lra].
    left. rewrite <- ln_1. apply ln_increasing; lra. }
  assert (Hdom : forall a, In a acts ->
            (0 <= ln (IZR (node_n node) + 1) / IZR (visits node a))%R).
  { intros a Ha. specialize (Hvis a Ha). apply IZR_lt in Hvis.
    unfold Rdiv. apply Rmult_le_pos; [exact Hln|].
    left. apply Rinv_0_lt_compat. exact Hvis. }
  destruct (ucb_loop_spec node c acts Hwa Hdom None best_s_init)
    as (r & s & Hrun & Hge & Hall & Hwho).
  rewrite Hrun.
  destruct Hwho as [[-> ->]|(a & -> & Hin & ->)].
  - exfalso. destruct acts as [|a acts]; [congruence|].
    specialize (Hall a (or_introl eq_refl)).
    specialize (Hbig a (or_introl eq_refl)). lra.
  - exists a. split; [reflexivity|]. split; [exact Hin|exact Hall].
Qed.

(** C6. (1) While some action of [acts] has zero visits,
    [ucb_select_action] returns the first unvisited action.  (2) For
    distinct actions, as many rounds of selection and update as there are
    unvisited actions select each unvisited action exactly once (in the
    order of [acts]) and leave none unvisited; starting from a node where
    all k actions are unvisited, the first k selections are the k actions.
    (3) Once all actions are visited (positive counts, non-negative N,
    scores above the -1e100 sentinel) the result maximises
    mean + exploration_c * sqrt (ln (N + 1) / n_a) over [acts]. *)
Theorem ucb_select_action_spec (node : InfoNode) (acts : list Z) (c : R) :
  (forall a rest,
     unvisited node acts = a :: rest ->
     fst (ucb_select_action node acts c) = Ok a /\ In a acts /\ visits node a = 0)
  /\ (List.NoDup acts ->
      forall vs, length vs = length (unvisited node acts) ->
        fst (select_rounds node acts c vs) = map Ok (unvisited node acts)
        /\ unvisited (snd (select_rounds node acts c vs)) acts = [])
  /\ (List.NoDup acts ->
      (forall a, In a acts -> visits node a = 0) ->
      forall vs, length vs = length acts ->
        fst (select_rounds node acts c vs) = map Ok acts
        /\ unvisited (snd (select_rounds node acts c vs)) acts = [])
  /\ (acts <> [] ->
      (forall a, In a acts -> 0 < visits node a) ->
      (forall a, In a acts -> is_Some (wa node !! a)) ->
      0 <= node_n node ->
      (forall a, In a acts -> (best_s_init < ucb_score node c a)%R) ->
      exists a,
        fst (ucb_select_action node acts c) = Ok a
        /\ In a acts
        /\ forall b, In b acts -> (ucb_score node c b <= ucb_score node c a)%R).
Proof.
  assert (Hrounds : List.NoDup acts ->
            forall vs, length vs = length (unvisited node acts) ->
              fst (select_rounds node acts c vs) = map Ok (unvisited node acts)
              /\ unvisited (snd (select_rounds node acts c vs)) acts = []).
  { intros Hnd vs Hlen.
    destruct (select_rounds_unvisited acts c vs node Hnd) as [H1 H2]; [lia|].
    rewrite Hlen, firstn_all in H1. rewrite Hlen, drop_all in H2. split; assumption. }
  split; [|split; [exact Hrounds|split]].
  - intros a rest Hu. rewrite (ucb_select_unvisited node acts c a rest Hu).
    assert (Hin : In a (unvisited node acts)) by (rewrite Hu; left; reflexivity).
    apply List.filter_In in Hin. destruct Hin as [Hin Hz]. apply Z.eqb_eq in Hz.
    split; [reflexivity|]. split; assumption.
  - intros Hnd Hall vs Hlen.
    assert (Hu : unvisited node acts = acts).
    { unfold unvisited. apply forallb_filter_id. apply forallb_forall.
      intros a Ha. apply Z.eqb_eq. apply Hall. exact Ha. }
    rewrite <- Hu in Hlen. destruct (Hrounds Hnd vs Hlen) as [H1 H2].
    rewrite Hu in H1. split; assumption.
  - intros Hne Hvis Hwa Hn Hbig.
    destruct (ucb_select_visited node acts c Hne Hvis Hwa Hn Hbig) as (a & Hsel & Hin & Hmax).
    exists a. rewrite Hsel. split; [reflexivity|]. split; assumption.
Qed.

(** A node where CHECK and BET were each tried once with return 0. *)
Definition sample_node : InfoNode :=
  mkInfoNode 2 (<[Act.CHECK := 1]> (<[Act.BET := 1]> ∅))
    (<[Act.CHECK := 0%R]> (<[Act.BET := 0%R]> ∅)).

Lemma ucb_select_action_spec_witness :
  fst (select_rounds InfoNode_new [Act.CHECK; Act.BET; Act.ALLIN] 1%R [1%R; 2%R; 3%R])
  = [Ok Act.CHECK; Ok Act.BET; Ok Act.ALLIN]
  /\ exists a,
       fst (ucb_select_action sample_node [Act.CHECK; Act.BET] 1%R) = Ok a
       /\ In a [Act.CHECK; Act.BET].
Proof.
  split.
  - destruct (ucb_select_action_spec InfoNode_new [Act.CHECK; Act.BET; Act.ALLIN] 1%R)
      as (_ & _ & Hall & _).
    destruct (Hall) with (vs := [1%R; 2%R; 3%R]) as [Hsel _].
    + repeat constructor; cbn; unfold Act.CHECK, Act.BET, Act.ALLIN; intuition lia.
    + intros a Ha. reflexivity.
    + reflexivity.
    + exact Hsel.
  - destruct (ucb_select_action_spec sample_node [Act.CHECK; Act.BET] 1%R)
      as (_ & _ & _ & Hmax).
    destruct Hmax as (a & Hsel & Hin & _).
    + discriminate.
    + intros a [<-|[<-|[]]]; reflexivity.
    + intros a [<-|[<-|[]]]; unfold sample_node; cbn [wa].
      * rewrite lookup_insert_eq. eauto.
      * rewrite lookup_insert_ne by discriminate. rewrite lookup_insert_eq. eauto.
    + cbn. lia.
    + intros a Ha.
      assert (Hneg : (best_s_init < 0)%R).
      { unfold best_s_init. apply Ropp_lt_gt_0_contravar. apply pow_lt. lra. }
      assert (Hpos : (0 <= ucb_score sample_node 1 a)%R).
      { unfold ucb_score.
        assert (Hw : match wa sample_node !! a with Some w => w | None => 0%R end = 0%R).
        { destruct Ha as [<-|[<-|[]]]; unfold sample_node; cbn [wa].
          - rewrite lookup_insert_eq. reflexivity.
          - rewrite lookup_insert_ne by discriminate. rewrite lookup_insert_eq. reflexivity. }
        rewrite Hw. unfold Rdiv at 1. rewrite Rmult_0_l, Rplus_0_l, Rmult_1_l.
        apply sqrt_pos. }
      lra.
    + exists a. split; assumption.
Defined.

(** ** Range update *)

Section Sorting_facts.
Variable score : Hand -> Z.

(** [x] is listed before [y] only if it scores at least as much. *)
Definition scores_above (x y : Hand * Q) : Prop := score (fst y) <= score (fst x).

Lemma insert_desc_perm x l : Permutation (insert_desc score x l) (x :: l).
Proof.
  induction l as [|y l IH]; cbn [insert_desc]; [reflexivity|].
  destruct (_ <=? _); [reflexivity|].
  rewrite IH. apply perm_swap.
Qed.

Lemma sort_desc_perm l : Permutation (sort_desc score l) l.
Proof.
  induction l as [|x l IH]; cbn [sort_desc]; [reflexivity|].
  rewrite insert_desc_perm. constructor. exact IH.
Qed.

Lemma sort_desc_length l : length (sort_desc score l) = length l.
Proof. apply Permutation_length, sort_desc_perm. Qed.

Lemma insert_desc_sorted x l :
  StronglySorted scores_above l -> StronglySorted scores_above (insert_desc score x l).
Proof.
  induction 1 as [|y l Hs IH Hall]; cbn [insert_desc].
  - constructor; [constructor|constructor].
  - destruct (Z.leb_spec (score (fst y)) (score (fst x))) as [Hle|Hgt].
    + constructor; [constructor; assumption|].
      constructor; [exact Hle|].
      rewrite Forall_forall in *. intros z Hz. unfold scores_above in *.
      specialize (Hall z Hz). lia.
    + constructor; [exact IH|].
      rewrite Forall_forall in *. intros z Hz.
      apply list_elem_of_In in Hz.
      apply (Permutation_in _ (insert_desc_perm x l)) in Hz.
      destruct Hz as [<-|Hz]; [unfold scores_above; lia|].
      apply Hall. apply list_elem_of_In. exact Hz.
Qed.

Lemma sort_desc_sorted l : StronglySorted scores_above (sort_desc score l).
Proof.
  induction l as [|x l IH]; cbn [sort_desc]; [constructor|].
  apply insert_desc_sorted. exact IH.
Qed.

(** In a sorted list every entry of a prefix scores at least as much as
    every entry of the matching suffix. *)
Lemma sorted_take_drop l k x y :
  StronglySorted scores_above l ->
  In x (take k l) -> In y (drop k l) -> scores_above x y.
Proof.
  intros Hs. revert k. induction Hs as [|z l Hs IH Hall]; intros [|k];
    cbn [take drop In]; try tauto.
  intros [<-|Hx] Hy.
  - rewrite Forall_forall in Hall. apply Hall. apply list_elem_of_In.
    eapply In_drop. exact Hy.
  - eapply IH; eassumption.
Qed.

End Sorting_facts.

(** Ranges the update works on: a non-empty dictionary (distinct hands)
    with positive weights. *)
Definition range_ok (r : Range) : Prop :=
  r <> [] /\ List.NoDup (map fst r) /\ Forall (fun x => (0 < snd x)%Q) r.

Definition scale (c : Q) (x : Hand * Q) : Hand * Q := (fst x, (snd x * c)%Q).

Lemma range_sum_app r1 r2 : (range_sum (r1 ++ r2) == range_sum r1 + range_sum r2)%Q.
Proof.
  induction r1 as [|[h w] r1 IH]; cbn [range_sum app].
  - ring.
  - rewrite IH. ring.
Qed.

Lemma range_sum_scale c r : (range_sum (map (scale c) r) == range_sum r * c)%Q.
Proof.
  induction r as [|[h w] r IH]; cbn [range_sum map scale fst snd].
  - ring.
  - rewrite IH. ring.
Qed.

Lemma range_sum_pos r :
  r <> [] -> Forall (fun x => (0 < snd x)%Q) r -> (0 < range_sum r)%Q.
Proof.
  intros Hne Hall. destruct r as [|[h w] r]; [congruence|]. clear Hne.
  revert h w Hall. induction r as [|[h' w'] r IH]; intros h w Hall;
    inversion Hall as [|? ? Hw Hrest]; subst; cbn [range_sum snd] in *.
  - Lqa.lra.
  - specialize (IH h' w' Hrest). cbn [range_sum] in IH. Lqa.lra.
Qed.

Lemma range_sum_nonneg r :
  Forall (fun x => (0 < snd x)%Q) r -> (0 <= range_sum r)%Q.
Proof.
  induction 1 as [|[h w] r Hw Hall IH]; cbn [range_sum snd] in *; Lqa.lra.
Qed.

Lemma renormalize_scale r :
  (0 < range_sum r)%Q -> _renormalize r = map (scale (1 / range_sum r)) r.
Proof.
  intros Hpos. unfold _renormalize. cbv zeta.
  destruct (Qle_bool (range_sum r) 0) eqn:Hle.
  - apply Qle_bool_iff in Hle. Lqa.lra.
  - apply map_ext. intros [h w]. reflexivity.
Qed.

Lemma map_fst_scale c r : map fst (map (scale c) r) = map fst r.
Proof. rewrite map_map. apply map_ext. intros [h w]. reflexivity. Qed.

Lemma scale_positive c r :
  (0 < c)%Q -> Forall (fun x => (0 < snd x)%Q) r ->
  Forall (fun x => (0 < snd x)%Q) (map (scale c) r).
Proof.
  intros Hc Hall. induction Hall as [|[h w] r Hw Hall IH]; cbn [map]; constructor.
  - cbn [scale snd fst] in *. apply Qmult_lt_0_compat; assumption.
  - exact IH.
Qed.

Lemma range_ok_scale c r : (0 < c)%Q -> range_ok r -> range_ok (map (scale c) r).
Proof.
  intros Hc (Hne & Hnd & Hpos). split; [|split].
  - destruct r; [congruence|discriminate].
  - rewrite map_fst_scale. exact Hnd.
  - apply scale_positive; assumption.
Qed.

(** Renormalizing a positive range keeps hands and positivity and makes the
    weights sum to 1. *)
Lemma renormalize_ok r :
  range_ok r ->
  range_ok (_renormalize r)
  /\ map fst (_renormalize r) = map fst r
  /\ (range_sum (_renormalize r) == 1)%Q.
Proof.
  intros Hok. pose proof Hok as (Hne & Hnd & Hpos).
  pose proof (range_sum_pos r Hne Hpos) as Hs.
  rewrite renormalize_scale by exact Hs.
  assert (Hinv : (0 < 1 / range_sum r)%Q).
  { unfold Qdiv. rewrite Qmult_1_l. apply Qinv_lt_0_compat. exact Hs. }
  split; [apply range_ok_scale; assumption|]. split; [apply map_fst_scale|].
  rewrite range_sum_scale. field. Lqa.lra.
Qed.

Lemma hand_eqb_eq h1 h2 : hand_eqb h1 h2 = true <-> h1 = h2.
Proof.
  destruct h1 as [a b], h2 as [c d]. unfold hand_eqb. cbn [fst snd].
  rewrite andb_true_iff, !Z.eqb_eq. split; [intros [-> ->]; reflexivity|].
  intros Heq. injection Heq as -> ->. split; reflexivity.
Qed.

Lemma existsb_hand_In h (l : list Hand) : existsb (hand_eqb h) l = true <-> In h l.
Proof.
  rewrite existsb_exists. split.
  - intros (x & Hx & Heq). apply hand_eqb_eq in Heq. subst. exact Hx.
  - intros Hin. exists h. split; [exact Hin|apply hand_eqb_eq; reflexivity].
Qed.

Lemma NoDup_app_disjoint {A} (l1 l2 : list A) x :
  List.NoDup (l1 ++ l2) -> In x l1 -> In x l2 -> False.
Proof.
  induction l1 as [|y l1 IH]; cbn [app In]; [tauto|].
  intros Hnd [->|Hin] Hin2; inversion Hnd as [|? ? Hy Hnd']; subst.
  - apply Hy. apply in_or_app. right. exact Hin2.
  - exact (IH Hnd' Hin Hin2).
Qed.

(** With distinct hands, membership in the top set is the same as being
    among the first [k] sorted entries. *)
Lemma top_set_split_app (top rest : Range) (mult : Q) :
  List.NoDup (map fst (top ++ rest)) ->
  map (fun '(h, w) =>
         if existsb (hand_eqb h) (map fst top) then (h, (w * 1)%Q)
         else (h, (w * mult)%Q)) (top ++ rest)
  = map (scale 1) top ++ map (scale mult) rest.
Proof.
  intros Hnd. rewrite map_app in Hnd. rewrite map_app.
  f_equal; apply map_ext_in; intros [h w] Hin; apply (in_map fst) in Hin; cbn [fst] in Hin.
  - replace (existsb (hand_eqb h) (map fst top)) with true; [reflexivity|].
    symmetry. apply existsb_hand_In. exact Hin.
  - replace (existsb (hand_eqb h) (map fst top)) with false; [reflexivity|].
    symmetry. apply not_true_is_false. intros Hex. apply existsb_hand_In in Hex.
    exact (NoDup_app_disjoint _ _ _ Hnd Hex Hin).
Qed.

Lemma top_set_split (items : Range) (k : nat) (mult : Q) :
  List.NoDup (map fst items) ->
  map (fun '(h, w) =>
         if existsb (hand_eqb h) (map fst (take k items)) then (h, (w * 1)%Q)
         else (h, (w * mult)%Q)) items
  = map (scale 1) (take k items) ++ map (scale mult) (drop k items).
Proof.
  intros Hnd. rewrite <- (take_drop k items) in Hnd.
  rewrite <- (top_set_split_app _ _ mult Hnd). rewrite take_drop. reflexivity.
Qed.

Lemma OUTSIDE_MULT_pos act : (0 < OUTSIDE_MULT act)%Q.
Proof. unfold OUTSIDE_MULT. repeat destruct (_ =? _); reflexivity. Qed.

Lemma cutoff_idx_pos frac n : (1 <= cutoff_idx frac n)%nat.
Proof. unfold cutoff_idx. lia. Qed.

(** [round] picks an integer within one half of its argument, and an even
    one when the argument lies halfway between two integers. *)
Lemma py_round_spec (q : Q) :
  (inject_Z (py_round q) - (1 # 2) <= q)%Q
  /\ (q <= inject_Z (py_round q) + (1 # 2))%Q
  /\ ((q == inject_Z (py_round q) + (1 # 2))%Q \/ (q == inject_Z (py_round q) - (1 # 2))%Q ->
      Z.even (py_round q) = true).
Proof.
  unfold py_round. cbv zeta.
  pose proof (Qfloor_le q) as Hlo. pose proof (Qlt_floor q) as Hhi.
  rewrite inject_Z_plus in Hhi. change (inject_Z 1) with 1%Q in Hhi.
  destruct (Qcompare (q - inject_Z (Qfloor q)) (1 # 2)) eqn:Hc.
  - apply Qeq_alt in Hc. destruct (Z.even (Qfloor q)) eqn:He.
    + split; [Lqa.lra|]. split; [Lqa.lra|]. intros _. exact He.
    + rewrite inject_Z_plus. change (inject_Z 1) with 1%Q.
      split; [Lqa.lra|]. split; [Lqa.lra|]. intros _.
      replace (Qfloor q + 1) with (Z.succ (Qfloor q)) by lia.
      rewrite Z.even_succ, <- Z.negb_even, He. reflexivity.
  - apply Qlt_alt in Hc.
    split; [Lqa.lra|]. split; [Lqa.lra|]. intros [H|H]; exfalso; Lqa.lra.
  - apply Qgt_alt in Hc. rewrite inject_Z_plus. change (inject_Z 1) with 1%Q.
    split; [Lqa.lra|]. split; [Lqa.lra|]. intros [H|H]; exfalso; Lqa.lra.
Qed.

(** With a fraction between 0 and 1 the cutoff never passes the end of a
    non-empty list. *)
Lemma cutoff_idx_le frac n :
  (0 <= frac)%Q -> (frac <= 1)%Q -> (1 <= n)%nat -> (cutoff_idx frac n <= n)%nat.
Proof.
  intros H0 H1 Hn. unfold cutoff_idx.
  destruct (py_round_spec (frac * inject_Z (Z.of_nat n))) as (Hlo & _ & _).
  set (m := py_round (frac * inject_Z (Z.of_nat n))) in *.
  assert (Hmul : (frac * inject_Z (Z.of_nat n) <= 1 * inject_Z (Z.of_nat n))%Q).
  { apply Qmult_le_compat_r; [exact H1|].
    change 0%Q with (inject_Z 0). rewrite <- Zle_Qle. lia. }
  assert (Hlt : (inject_Z m < inject_Z (Z.of_nat n + 1))%Q).
  { rewrite inject_Z_plus. change (inject_Z 1) with 1%Q. Lqa.lra. }
  rewrite <- Zlt_Qlt in Hlt. lia.
Qed.

Lemma ACTION_TOP_FRAC_range act frac :
  ACTION_TOP_FRAC act = Some frac -> (0 <= frac)%Q /\ (frac <= 1)%Q.
Proof.
  unfold ACTION_TOP_FRAC. repeat destruct (_ =? _); intros H; try discriminate H;
    injection H as <-; split; discriminate.
Qed.

Section Belief_facts.
Variable compute_feature_mask : Hand -> list Z -> Z.

(** The re-weighted, not yet renormalized range after an aggressive action
    with top fraction [frac] and outside multiplier [mult]. *)
Definition reweighted (g : GameState) (r : Range) (frac mult : Q) : Range :=
  let items := sort_desc (bucket_score compute_feature_mask g) r in
  let k := cutoff_idx frac (length items) in
  map (scale 1) (take k items) ++ map (scale mult) (drop k items).

Lemma reweighted_ok g r frac mult :
  (0 < mult)%Q -> range_ok r ->
  range_ok (reweighted g r frac mult)
  /\ Permutation (map fst (reweighted g r frac mult)) (map fst r).
Proof.
  intros Hmult (Hne & Hnd & Hpos). unfold reweighted. cbv zeta.
  set (items := sort_desc (bucket_score compute_feature_mask g) r).
  set (k := cutoff_idx frac (length items)).
  pose proof (sort_desc_perm (bucket_score compute_feature_mask g) r) as Hperm. fold items in Hperm.
  assert (Hkeys : map fst (map (scale 1) (take k items) ++ map (scale mult) (drop k items))
                  = map fst items).
  { rewrite map_app, !map_fst_scale, <- map_app, take_drop. reflexivity. }
  assert (Hpos' : Forall (fun x => (0 < snd x)%Q) items).
  { rewrite Forall_forall in *. intros x Hx. apply Hpos.
    apply list_elem_of_In. apply list_elem_of_In in Hx.
    apply (Permutation_in _ Hperm). exact Hx. }
  split; [split; [|split]|].
  - assert (Hlen : (1 <= length (take k items))%nat).
    { rewrite length_take. pose proof (cutoff_idx_pos frac (length items)) as Hk.
      fold k in Hk.
      assert (Hn : length items = length r) by apply sort_desc_length.
      destruct r; [congruence|]. cbn [length] in Hn. lia. }
    destruct (take k items); [cbn in Hlen; lia|discriminate].
  - rewrite Hkeys. apply (Permutation_NoDup (l := map fst r)); [|exact Hnd].
    apply Permutation_map. symmetry. exact Hperm.
  - apply Forall_app. split; apply scale_positive;
      try reflexivity; try exact Hmult.
    + rewrite <- (take_drop k items) in Hpos'. apply Forall_app in Hpos'. tauto.
    + rewrite <- (take_drop k items) in Hpos'. apply Forall_app in Hpos'. tauto.
  - rewrite Hkeys. apply Permutation_map. exact Hperm.
Qed.

(** One aggressive action: sort by score, keep the top entries, scale the
    others, renormalize. *)
Lemma apply_action_update_aggressive g r act frac :
  range_ok r ->
  ACTION_TOP_FRAC act = Some frac ->
  _apply_action_update compute_feature_mask g r act
  = _renormalize (reweighted g r frac (OUTSIDE_MULT act)).
Proof.
  intros (Hne & Hnd & Hpos) Hfrac. unfold _apply_action_update. rewrite Hfrac. cbv zeta.
  rewrite sort_desc_length.
  destruct (Nat.eqb_spec (length r) 0) as [Hz|_].
  { destruct r; [congruence|discriminate]. }
  unfold reweighted. cbv zeta. rewrite sort_desc_length.
  rewrite top_set_split; [reflexivity|].
  apply (Permutation_NoDup (l := map fst r)); [|exact Hnd].
  apply Permutation_map. symmetry. apply sort_desc_perm.
Qed.

Lemma apply_action_update_other g r act :
  act <> Act.BET -> act <> Act.RAISE -> act <> Act.ALLIN ->
  _apply_action_update compute_feature_mask g r act = r.
Proof.
  intros H1 H2 H3. unfold _apply_action_update, ACTION_TOP_FRAC.
  destruct (Z.eqb_spec act Act.BET); [contradiction|].
  destruct (Z.eqb_spec act Act.RAISE); [contradiction|].
  destruct (Z.eqb_spec act Act.ALLIN); [contradiction|]. reflexivity.
Qed.

(** Any update keeps a well-formed range well formed, with the same hands. *)
Lemma apply_action_update_ok g r act :
  range_ok r ->
  range_ok (_apply_action_update compute_feature_mask g r act)
  /\ Permutation (map fst (_apply_action_update compute_feature_mask g r act)) (map fst r).
Proof.
  intros Hok. destruct (ACTION_TOP_FRAC act) as [frac|] eqn:Hfrac.
  - rewrite (apply_action_update_aggressive g r act frac Hok Hfrac).
    destruct (reweighted_ok g r frac (OUTSIDE_MULT act) (OUTSIDE_MULT_pos act) Hok)
      as [Hok' Hperm].
    destruct (renormalize_ok _ Hok') as (Hok'' & Hkeys & _).
    split; [exact Hok''|]. rewrite Hkeys. exact Hperm.
  - unfold _apply_action_update. rewrite Hfrac. split; [exact Hok|reflexivity].
Qed.

End Belief_facts.

Lemma In_all_pairs (deck : list Z) a b :
  In (a, b) (all_pairs deck) -> In a deck /\ In b deck.
Proof.
  induction deck as [|c rest IH]; cbn [all_pairs In]; [tauto|].
  rewrite in_app_iff, in_map_iff. intros [(d & Heq & Hd)|Hin].
  - injection Heq as <- <-. tauto.
  - destruct (IH Hin). tauto.
Qed.

Lemma all_pairs_NoDup (deck : list Z) : List.NoDup deck -> List.NoDup (all_pairs deck).
Proof.
  induction 1 as [|c rest Hc Hnd IH]; cbn [all_pairs]; [constructor|].
  apply List.NoDup_app.
  - apply NoDup_map_NoDup_ForallPairs; [|exact Hnd].
    intros x y _ _ Heq. injection Heq as ->. reflexivity.
  - exact IH.
  - intros [a b] Hin Hin'. apply in_map_iff in Hin. destruct Hin as (d & Heq & _).
    injection Heq as <- <-. apply In_all_pairs in Hin'. tauto.
Qed.

Lemma Ok_inj {A} (a b : A) : Ok a = Ok b -> a = b.
Proof. intros Heq. injection Heq as ->. reflexivity. Qed.

Lemma remaining_deck_NoDup exclude deck :
  _remaining_deck_ids exclude = Ok deck -> List.NoDup deck.
Proof.
  unfold _remaining_deck_ids. destruct (forallb _ _); [|discriminate].
  intros Heq. apply Ok_inj in Heq. rewrite <- Heq. apply List.NoDup_filter.
  apply NoDup_map_NoDup_ForallPairs; [|apply seq_NoDup].
  intros x y _ _ Hxy. apply Nat2Z.inj. exact Hxy.
Qed.

Section Belief_history.
Variable compute_feature_mask : Hand -> list Z -> Z.

(** The uniform range has distinct hands, all of weight 1. *)
Lemma build_uniform_range_ok g my_hand r0 :
  build_uniform_range g my_hand = Ok r0 ->
  List.NoDup (map fst r0) /\ Forall (fun x => snd x = 1%Q) r0.
Proof.
  unfold build_uniform_range. cbv zeta. intros Hb.
  apply bind_Ok_inv in Hb. destruct Hb as (deck & Hdeck & Hr).
  apply Ok_inj in Hr. rewrite <- Hr. split.
  - rewrite map_map. cbn [fst]. rewrite map_id.
    apply all_pairs_NoDup. eapply remaining_deck_NoDup. exact Hdeck.
  - apply Forall_forall. intros x Hx. apply list_elem_of_In in Hx.
    apply in_map_iff in Hx. destruct Hx as (h & <- & _). reflexivity.
Qed.

(** One step of the loop over the action history. *)
Definition history_step (g : GameState) (r : Range) (enc : Z) : Range :=
  let a := decode enc in
  if negb (a_player a =? Player.VILLAIN) then r
  else _apply_action_update compute_feature_mask g r (a_act a).

Lemma history_fold_ok g hist : forall r,
  range_ok r ->
  range_ok (fold_left (history_step g) hist r)
  /\ Permutation (map fst (fold_left (history_step g) hist r)) (map fst r).
Proof.
  induction hist as [|enc hist IH]; intros r Hok; cbn [fold_left].
  - split; [exact Hok|reflexivity].
  - assert (Hstep : range_ok (history_step g r enc)
                    /\ Permutation (map fst (history_step g r enc)) (map fst r)).
    { unfold history_step. cbv zeta. destruct (negb _).
      - split; [exact Hok|reflexivity].
      - apply apply_action_update_ok. exact Hok. }
    destruct Hstep as [Hok1 Hperm1]. destruct (IH _ Hok1) as [Hok2 Hperm2].
    split; [exact Hok2|]. rewrite Hperm2. exact Hperm1.
Qed.


End Belief_history.


(** * Further properties of the betting state machine *)

(** What a successful chip commitment of [amt] by [p], recorded as [a],
    does to the game state. *)
Definition put_in_rel (g : GameState) (p amt a : Z) (g2 : GameState) : Prop :=
  0 <= amt < 2 ^ 21
  /\ pot g2 = pot g + amt
  /\ hero_stack g2 = hero_stack g - (if p =? Player.HERO then amt else 0)
  /\ villain_stack g2 = villain_stack g - (if p =? Player.VILLAIN then amt else 0)
  /\ street g2 = street g /\ meta g2 = meta g /\ to_act g2 = to_act g
  /\ board g2 = board g
  /\ exists x, action_history g2 = action_history g ++ [x]
               /\ a_act (decode x) = Z.land a 7
               /\ a_street (decode x) = Z.land (street g) 3
               /\ a_player (decode x) = Z.land p 63
               /\ a_amount (decode x) = amt.

Lemma encode_Ok_range a x : encode a = Ok x -> 0 <= a_amount a < 2 ^ 21.
Proof.
  intros He.
  destruct (Z_lt_le_dec (a_amount a) 0) as [Hneg|Hpos];
    [|destruct (Z_lt_le_dec (a_amount a) (2 ^ 21)) as [Hlt|Hge]; [lia|]].
  - assert (Herr : exists e, encode a = Err e) by (apply encode_error_iff; lia).
    destruct Herr as [e Herr]. congruence.
  - assert (Herr : exists e, encode a = Err e) by (apply encode_error_iff; lia).
    destruct Herr as [e Herr]. congruence.
Qed.

Lemma apply_put_in_rel g p amt a g2 :
  _apply_put_in g p amt a = Ok g2 -> put_in_rel g p amt a g2.
Proof.
  unfold _apply_put_in, GameState_apply_action. intros H.
  apply bind_Ok_inv in H. destruct H as (enc & Henc & H).
  pose proof (encode_Ok_range _ _ Henc) as Hr. cbn [a_amount] in Hr.
  destruct (decode_encode_masked (street g) p a amt Hr) as (x & Hx & Hd).
  assert (x = enc) by congruence. subst x.
  apply Ok_inj in H. subst g2. unfold put_in_rel.
  cbn [pot hero_stack villain_stack street meta to_act board action_history].
  split; [exact Hr|].
  repeat (split; [first [reflexivity | lia | destruct (p =? _); lia]|]).
  exists enc. rewrite Hd. cbn [a_act a_street a_player a_amount]. auto.
Qed.

Lemma apply_zero_rel g p a g2 :
  GameState_apply_action g (mkAction (street g) p a 0) 0 0 0 = Ok g2 ->
  put_in_rel g p 0 a g2.
Proof.
  intros H. apply apply_put_in_rel. unfold _apply_put_in.
  replace (if p =? Player.HERO then - 0 else 0) with 0 by (destruct (_ =? _); reflexivity).
  replace (if p =? Player.VILLAIN then - 0 else 0) with 0 by (destruct (_ =? _); reflexivity).
  exact H.
Qed.

(** The state a player is left in after the street is closed. *)
Definition closing_state (g2 : GameState) : PublicState :=
  mkPublicState (_advance_street g2 Player.HERO) false Player.HERO 0 0.

(** Every successful transition is one of six kinds. *)
Definition transition_kinds (ps : PublicState) (a : Z) (ps' : PublicState)
    (g2 : GameState) (amt : Z) : Prop :=
  let g := gs ps in
  let p := to_act g in
  (street_bet_open ps = false /\ a = Act.CHECK /\ amt = 0
   /\ put_in_rel g p 0 Act.CHECK g2
   /\ two_checks (action_history g2) (street g) = true
   /\ ps' = closing_state g2)
  \/ (street_bet_open ps = false /\ a = Act.CHECK /\ amt = 0
      /\ put_in_rel g p 0 Act.CHECK g2
      /\ two_checks (action_history g2) (street g) = false
      /\ ps' = mkPublicState (_replace_to_act g2 (swap_player p)) false Player.HERO 0 0)
  \/ (street_bet_open ps = false /\ (a = Act.BET \/ a = Act.ALLIN)
      /\ ((amt = actor_stack ps /\ put_in_rel g p amt Act.ALLIN g2)
          \/ (a = Act.BET /\ amt = bet_size ps /\ bet_shoves ps = false
              /\ put_in_rel g p amt Act.BET g2))
      /\ ps' = mkPublicState (_replace_to_act g2 (swap_player p)) true p amt 0)
  \/ (street_bet_open ps = true /\ a = Act.FOLD /\ amt = 0
      /\ put_in_rel g p 0 Act.FOLD g2
      /\ ps' = mkPublicState (_with_terminal g2 (swap_player p)) true
                 (bet_by ps) (bet_amount ps) (raises_this_street ps))
  \/ (street_bet_open ps = true /\ (a = Act.CALL \/ a = Act.ALLIN \/ a = Act.RAISE)
      /\ amt = Z.min (bet_amount ps) (actor_stack ps)
      /\ (a = Act.CALL \/ actor_stack ps <= bet_amount ps)
      /\ put_in_rel g p amt Act.CALL g2
      /\ ps' = closing_state g2)
  \/ (street_bet_open ps = true /\ (a = Act.ALLIN \/ a = Act.RAISE)
      /\ ((amt = actor_stack ps /\ bet_amount ps < actor_stack ps
           /\ put_in_rel g p amt Act.ALLIN g2)
          \/ (a = Act.RAISE /\ amt = raise_to_size ps /\ raise_shoves ps = false
              /\ raises_this_street ps = 0
              /\ put_in_rel g p amt Act.RAISE g2))
      /\ ps' = mkPublicState (_replace_to_act g2 (swap_player p)) true p
                 (amt - bet_amount ps) 1).

Lemma apply_action_Ok_kinds ps a ps' :
  apply_action ps a = Ok ps' ->
  is_terminal ps = false /\ exists g2 amt, transition_kinds ps a ps' g2 amt.
Proof.
  intros H. pose proof (apply_action_Ok_legal _ _ _ H) as Hin.
  apply legal_actions_inv in Hin.
  destruct Hin as [Hnt [[Hop Ha]|[Hop Ha]]]; (split; [exact Hnt|]).
  - destruct Ha as [-> | [-> | ->]].
    + rewrite apply_action_CHECK in H by assumption. cbv zeta in H.
      apply bind_Ok_inv in H. destruct H as (g2 & Hg & H).
      apply apply_zero_rel in Hg. exists g2, 0.
      destruct (two_checks _ _) eqn:Htc; apply Ok_inj in H; subst ps'.
      * left. auto 10.
      * right; left. auto 10.
    + rewrite apply_action_BET in H by assumption. cbv zeta in H.
      fold (actor_stack ps) in H. fold (bet_size ps) in H. fold (bet_shoves ps) in H.
      destruct (bet_shoves ps) eqn:Hsh;
        apply bind_Ok_inv in H; destruct H as (g2 & Hg & H);
        apply apply_put_in_rel in Hg; apply Ok_inj in H; subst ps'.
      * exists g2, (actor_stack ps). right; right; left. auto 10.
      * exists g2, (bet_size ps). right; right; left.
        split; [exact Hop|]. split; [auto|]. split; [right; auto|reflexivity].
    + rewrite apply_action_ALLIN_open in H by assumption. cbv zeta in H.
      fold (actor_stack ps) in H.
      apply bind_Ok_inv in H; destruct H as (g2 & Hg & H);
        apply apply_put_in_rel in Hg; apply Ok_inj in H; subst ps'.
      exists g2, (actor_stack ps). right; right; left. auto 10.
  - destruct Ha as [-> | [-> | [-> | [-> Hr]]]].
    + rewrite apply_action_CALL in H by assumption. cbv zeta in H.
      fold (actor_stack ps) in H.
      apply bind_Ok_inv in H; destruct H as (g2 & Hg & H);
        apply apply_put_in_rel in Hg; apply Ok_inj in H; subst ps'.
      exists g2, (Z.min (bet_amount ps) (actor_stack ps)).
      right; right; right; right; left. unfold closing_state. auto 10.
    + rewrite apply_action_FOLD in H by assumption. cbv zeta in H.
      apply bind_Ok_inv in H. destruct H as (g2 & Hg & H).
      apply apply_zero_rel in Hg. apply Ok_inj in H; subst ps'.
      exists g2, 0. right; right; right; left. auto 10.
    + rewrite apply_action_ALLIN_facing in H by assumption. cbv zeta in H.
      fold (actor_stack ps) in H.
      destruct (Z.leb_spec (actor_stack ps) (bet_amount ps)) as [Hle|Hgt];
        apply bind_Ok_inv in H; destruct H as (g2 & Hg & H);
        apply apply_put_in_rel in Hg; apply Ok_inj in H; subst ps'.
      * exists g2, (Z.min (bet_amount ps) (actor_stack ps)).
        right; right; right; right; left. rewrite Z.min_r by lia.
        unfold closing_state. auto 10.
      * exists g2, (actor_stack ps). right; right; right; right; right.
        split; [exact Hop|]. split; [auto|]. split; [left; auto|reflexivity].
    + rewrite apply_action_RAISE in H by assumption. cbv zeta in H.
      fold (actor_stack ps) in H. fold (raise_to_size ps) in H. fold (raise_shoves ps) in H.
      destruct (raise_shoves ps) eqn:Hsh;
        [destruct (Z.leb_spec (actor_stack ps) (bet_amount ps)) as [Hle|Hgt]|];
        apply bind_Ok_inv in H; destruct H as (g2 & Hg & H);
        apply apply_put_in_rel in Hg; apply Ok_inj in H; subst ps'.
      * exists g2, (Z.min (bet_amount ps) (actor_stack ps)).
        right; right; right; right; left. unfold closing_state. auto 10.
      * exists g2, (actor_stack ps). right; right; right; right; right.
        split; [exact Hop|]. split; [auto|]. split; [left; auto|reflexivity].
      * exists g2, (raise_to_size ps). right; right; right; right; right.
        split; [exact Hop|]. split; [auto|]. split; [right; auto 10|reflexivity].
Qed.

(** States as they occur in a hand: a valid player to act, stacks between 0
    and the bound [B], a non-negative pot, an amount to call between 0 and
    the pot, a street from FLOP to RIVER, at most one raise counted. *)
Definition table_state (B : Z) (ps : PublicState) : Prop :=
  let g := gs ps in
  valid_player (to_act g)
  /\ 0 <= hero_stack g <= B
  /\ 0 <= villain_stack g <= B
  /\ 0 <= pot g
  /\ 0 <= bet_amount ps <= pot g
  /\ Street.FLOP <= street g <= Street.RIVER
  /\ 0 <= raises_this_street ps <= 1.

Lemma advance_street_fields g x :
  pot (_advance_street g x) = pot g
  /\ hero_stack (_advance_street g x) = hero_stack g
  /\ villain_stack (_advance_street g x) = villain_stack g
  /\ to_act (_advance_street g x) = x
  /\ action_history (_advance_street g x) = action_history g
  /\ street (_advance_street g x)
     = (if Street.RIVER <=? street g then street g else street g + 1).
Proof. unfold _advance_street. destruct (_ <=? _); cbn; auto 10. Qed.

(** With fewer chips behind than the amount owed, a raise always trips the
    auto-shove test. *)
Lemma short_raise_shoves B ps :
  table_state B ps -> 0 < bet_amount ps -> actor_stack ps < bet_amount ps ->
  raise_shoves ps = true.
Proof.
  intros (Hp & Hh & Hv & Hpot & Hbet & _) Hpos Hshort.
  unfold raise_shoves, raise_to_size, _should_shove_after_called, spr_below_half,
    actor_stack, stack_of, swap_player in *. cbv zeta.
  destruct Hp as [Hp|Hp]; rewrite Hp in *;
    unfold Player.HERO, Player.VILLAIN in *; cbn [Z.eqb] in *.
  - rewrite (Z.min_r (3 * bet_amount ps)) by lia.
    rewrite (Z.max_l 0) by lia. rewrite (Z.min_l 0) by lia.
    destruct (Z.leb_spec (pot (gs ps) + hero_stack (gs ps) + 0) 0); [lia|].
    apply Z.ltb_lt. rewrite Z.sub_diag, Z.min_l by lia. lia.
  - rewrite (Z.min_r (3 * bet_amount ps)) by lia.
    rewrite (Z.max_l 0) by lia. rewrite (Z.min_l 0) by lia.
    destruct (Z.leb_spec (pot (gs ps) + villain_stack (gs ps) + 0) 0); [lia|].
    apply Z.ltb_lt. rewrite Z.sub_diag, Z.min_r by lia. lia.
Qed.

Ltac crush_ifs :=
  repeat match goal with
         | H : context [if ?c then _ else _] |- _ => destruct c eqn:?
         | |- context [if ?c then _ else _] => destruct c eqn:?
         end;
  repeat match goal with
         | H : (_ <=? _) = true |- _ => apply Z.leb_le in H
         | H : (_ <=? _) = false |- _ => apply Z.leb_gt in H
         end.

Ltac split_player Hp :=
  destruct Hp as [Hp|Hp]; rewrite Hp in *;
  unfold Player.HERO, Player.VILLAIN in *; cbn [Z.eqb Pos.eqb] in *.

(** No transition takes a stack below zero or above the bound, makes the
    pot or the amount to call negative, or leaves the streets FLOP..RIVER. *)
Lemma apply_action_table_state B ps a ps' :
  table_state B ps -> apply_action ps a = Ok ps' -> table_state B ps'.
Proof.
  intros Hts H. pose proof Hts as (Hp & Hh & Hv & Hpot & Hbet & Hst & Hr).
  apply apply_action_Ok_kinds in H. destruct H as (Hnt & g2 & amt & Hk).
  unfold transition_kinds in Hk. cbv zeta in Hk.
  unfold table_state. cbv zeta. unfold Street.FLOP, Street.RIVER in *.
  destruct Hk as [Hk|[Hk|[Hk|[Hk|[Hk|Hk]]]]].
  - destruct Hk as (_ & _ & _ & Hput & _ & ->).
    destruct Hput as (_ & Hp2 & Hh2 & Hv2 & Hs2 & _).
    unfold closing_state. cbn [gs bet_amount raises_this_street].
    destruct (advance_street_fields g2 Player.HERO) as (-> & -> & -> & -> & _ & ->).
    split; [left; reflexivity|].
    unfold Street.RIVER in *. crush_ifs; lia.
  - destruct Hk as (_ & _ & _ & Hput & _ & ->).
    destruct Hput as (_ & Hp2 & Hh2 & Hv2 & Hs2 & _).
    cbn [gs bet_amount raises_this_street _replace_to_act to_act pot hero_stack
         villain_stack street].
    split; [apply swap_player_valid|].
    crush_ifs; lia.
  - destruct Hk as (_ & _ & Hamt & ->).
    cbn [gs bet_amount raises_this_street _replace_to_act to_act pot hero_stack
         villain_stack street].
    split; [apply swap_player_valid|].
    assert (Hput : exists a', put_in_rel (gs ps) (to_act (gs ps)) amt a' g2
                              /\ 0 <= amt <= actor_stack ps).
    { destruct Hamt as [(-> & Hput)|(_ & -> & _ & Hput)]; eexists; (split; [exact Hput|]).
      - destruct Hput as (Hrng & _). lia.
      - destruct Hput as (Hrng & _). unfold bet_size in *. lia. }
    destruct Hput as (a' & (_ & Hp2 & Hh2 & Hv2 & Hs2 & _) & Hrng).
    unfold actor_stack, stack_of in Hrng.
    split_player Hp; lia.
  - destruct Hk as (_ & _ & _ & Hput & ->).
    destruct Hput as (_ & Hp2 & Hh2 & Hv2 & Hs2 & _ & Ht2 & _).
    cbn [gs bet_amount raises_this_street _with_terminal to_act pot hero_stack
         villain_stack street].
    rewrite Ht2. split; [exact Hp|].
    crush_ifs; lia.
  - destruct Hk as (_ & _ & -> & _ & Hput & ->).
    destruct Hput as (_ & Hp2 & Hh2 & Hv2 & Hs2 & _).
    unfold closing_state. cbn [gs bet_amount raises_this_street].
    destruct (advance_street_fields g2 Player.HERO) as (-> & -> & -> & -> & _ & ->).
    split; [left; reflexivity|].
    unfold actor_stack, stack_of, Street.RIVER in *.
    split_player Hp; crush_ifs; lia.
  - destruct Hk as (_ & _ & Hamt & ->).
    cbn [gs bet_amount raises_this_street _replace_to_act to_act pot hero_stack
         villain_stack street].
    split; [apply swap_player_valid|].
    assert (Hstk : 0 <= actor_stack ps).
    { unfold actor_stack, stack_of. destruct (_ =? _); lia. }
    assert (Hput : exists a', put_in_rel (gs ps) (to_act (gs ps)) amt a' g2
                              /\ bet_amount ps <= amt <= actor_stack ps).
    { destruct Hamt as [(-> & Hgt & Hput)|(_ & -> & Hsh & _ & Hput)];
        eexists; (split; [exact Hput|]).
      - lia.
      - destruct (Z_lt_le_dec (actor_stack ps) (bet_amount ps)) as [Hshort|Hok].
        + rewrite (short_raise_shoves B ps Hts) in Hsh by lia. discriminate.
        + unfold raise_to_size. lia. }
    destruct Hput as (a' & (_ & Hp2 & Hh2 & Hv2 & Hs2 & _) & Hrng).
    unfold actor_stack, stack_of in Hrng.
    split_player Hp; lia.
Qed.

(** ** Hands played from a starting state *)

Lemma play_preserves (P : PublicState -> Prop) :
  (forall ps a ps', P ps -> apply_action ps a = Ok ps' -> P ps') ->
  forall acts ps ps', P ps -> play ps acts = Ok ps' -> P ps'.
Proof.
  intros Hstep. induction acts as [|a rest IH]; intros ps ps' HP H; cbn [play] in H.
  - apply Ok_inj in H. subst ps'. exact HP.
  - apply bind_Ok_inv in H. destruct H as (ps1 & H1 & Hrest).
    eapply IH; [|exact Hrest]. eapply Hstep; eauto.
Qed.

Lemma start_postflop_state_Ok flop pot0 S ta ps :
  start_postflop_state flop pot0 S ta = Ok ps ->
  0 <= S - pot0 / 2 /\ 0 <= S - (pot0 - pot0 / 2)
  /\ gs ps = mkGameState (pad_board flop) Street.FLOP pot0 (S - pot0 / 2)
               (S - (pot0 - pot0 / 2)) ta []
               (Some (<["villain_invest" := PInt (pot0 - pot0 / 2)]>
                        (<["hero_invest" := PInt (pot0 / 2)]>
                           (<["villain_start" := PInt S]>
                              (<["hero_start" := PInt S]> ∅)))))
  /\ street_bet_open ps = false /\ bet_amount ps = 0 /\ raises_this_street ps = 0.
Proof.
  unfold start_postflop_state. cbv zeta.
  destruct (Z.ltb_spec (S - pot0 / 2) 0) as [|Hh]; cbn [orb]; [discriminate|].
  destruct (Z.ltb_spec (S - (pot0 - pot0 / 2)) 0) as [|Hv]; [discriminate|].
  intros Heq. apply Ok_inj in Heq. subst ps. cbn. auto 10.
Qed.

Lemma start_table_state flop pot0 S ta ps :
  0 <= pot0 -> valid_player ta ->
  start_postflop_state flop pot0 S ta = Ok ps -> table_state S ps.
Proof.
  intros Hpot Hta H. apply start_postflop_state_Ok in H.
  destruct H as (Hh & Hv & Hg & _ & Hb & Hr).
  unfold table_state. cbv zeta. rewrite Hg, Hb, Hr.
  cbn [to_act hero_stack villain_stack pot street].
  unfold Street.FLOP, Street.RIVER.
  assert (0 <= pot0 / 2 <= pot0).
  { split; [apply Z.div_pos; lia|]. apply Z.div_le_upper_bound; lia. }
  repeat split; try lia. exact Hta.
Qed.

(** X1. In a hand started with a non-negative pot, whatever legal actions are
    played: no stack ever goes below zero or above the starting stack, the
    pot and the amount owed stay non-negative, the amount owed never exceeds
    the pot, the street stays within FLOP..RIVER and at most one raise is
    counted on a street. *)
Theorem play_table_state (flop : list Z) (pot0 S ta : Z) (acts : list Z)
    (ps0 ps : PublicState) :
  0 <= pot0 -> valid_player ta ->
  start_postflop_state flop pot0 S ta = Ok ps0 ->
  play ps0 acts = Ok ps ->
  0 <= hero_stack (gs ps) <= S
  /\ 0 <= villain_stack (gs ps) <= S
  /\ 0 <= pot (gs ps)
  /\ 0 <= bet_amount ps <= pot (gs ps)
  /\ Street.FLOP <= street (gs ps) <= Street.RIVER
  /\ 0 <= raises_this_street ps <= 1
  /\ valid_player (to_act (gs ps)).
Proof.
  intros Hpot Hta Hstart Hplay.
  assert (Hts : table_state S ps).
  { eapply (play_preserves (table_state S)); [|eapply start_table_state; eauto|exact Hplay].
    intros ? ? ?. apply apply_action_table_state. }
  destruct Hts as (H1 & H2 & H3 & H4 & H5 & H6 & H7). auto 10.
Qed.

Lemma play_table_state_witness :
  0 <= hero_stack (gs sample_raised) <= 100
  /\ 0 <= bet_amount sample_raised <= pot (gs sample_raised).
Proof.
  destruct (play_table_state [45; 22; 1] 3 100 Player.HERO [Act.BET; Act.RAISE]
              sample_start sample_raised) as (H1 & _ & _ & H4 & _).
  - lia.
  - left. reflexivity.
  - exact sample_start_ok.
  - exact sample_raised_ok.
  - split; [exact H1|exact H4].
Defined.

(** *** Legal actions never fail when the stacks are encodable *)

Lemma put_in_bind_Ok g p amt a (k : GameState -> PublicState) :
  0 <= amt < 2 ^ 21 ->
  exists ps', (let* gs2 := _apply_put_in g p amt a in Ok (k gs2)) = Ok ps'.
Proof.
  intros Hamt. destruct (apply_put_in_ok g p amt a Hamt) as (x & _ & ->).
  cbn [bind]. eauto.
Qed.

Lemma zero_action_Ok g p a :
  exists g2, GameState_apply_action g (mkAction (street g) p a 0) 0 0 0 = Ok g2.
Proof.
  unfold GameState_apply_action.
  destruct (encode_cases (mkAction (street g) p a 0)) as [H|[x H]]; rewrite H.
  - exfalso.
    assert (He : exists e, encode (mkAction (street g) p a 0) = Err e) by eauto.
    apply encode_error_iff in He. cbn [a_amount] in He. lia.
  - cbn [bind]. eauto.
Qed.

Lemma actor_stack_range B ps :
  table_state B ps -> 0 <= actor_stack ps <= B.
Proof.
  intros (_ & Hh & Hv & _). unfold actor_stack, stack_of.
  destruct (_ =? _); lia.
Qed.

(** X2. With stacks below 2^21 a legal action always yields a successor state:
    every amount put in lies between 0 and the actor's stack, so the codec's
    range error cannot occur. *)
Theorem legal_action_succeeds (B : Z) (ps : PublicState) (a : Z) :
  table_state B ps -> B < 2 ^ 21 -> In a (legal_actions ps) ->
  exists ps', apply_action ps a = Ok ps'.
Proof.
  intros Hts HB Hin.
  pose proof (actor_stack_range B ps Hts) as Hstk. unfold actor_stack in Hstk.
  destruct Hts as (_ & _ & _ & Hpot & Hbet & _).
  apply legal_actions_inv in Hin.
  destruct Hin as [Hnt [[Hop Ha]|[Hop Ha]]].
  - destruct Ha as [-> | [-> | ->]].
    + rewrite apply_action_CHECK by assumption. cbv zeta.
      destruct (zero_action_Ok (gs ps) (to_act (gs ps)) Act.CHECK) as [g2 ->].
      cbn [bind]. destruct (two_checks _ _); eauto.
    + rewrite apply_action_BET by assumption. cbv zeta.
      destruct (_should_shove_after_called _ _ _ _ _ _);
        apply (put_in_bind_Ok _ _ _ _ (fun gs2 => mkPublicState _ _ _ _ _));
        unfold half_pot_bet_size; lia.
    + rewrite apply_action_ALLIN_open by assumption. cbv zeta.
      apply (put_in_bind_Ok _ _ _ _ (fun gs2 => mkPublicState _ _ _ _ _)); lia.
  - destruct Ha as [-> | [-> | [-> | [-> Hr]]]].
    + rewrite apply_action_CALL by assumption. cbv zeta.
      apply (put_in_bind_Ok _ _ _ _ (fun gs2 => mkPublicState _ _ _ _ _)); lia.
    + rewrite apply_action_FOLD by assumption. cbv zeta.
      destruct (zero_action_Ok (gs ps) (to_act (gs ps)) Act.FOLD) as [g2 ->].
      cbn [bind]. eauto.
    + rewrite apply_action_ALLIN_facing by assumption. cbv zeta.
      destruct (_ <=? _);
        apply (put_in_bind_Ok _ _ _ _ (fun gs2 => mkPublicState _ _ _ _ _)); lia.
    + rewrite apply_action_RAISE by assumption. cbv zeta.
      destruct (_should_shove_after_called _ _ _ _ _ _); [destruct (_ <=? _)|];
        apply (put_in_bind_Ok _ _ _ _ (fun gs2 => mkPublicState _ _ _ _ _)); lia.
Qed.

Lemma sample_start_table_state : table_state 100 sample_start.
Proof.
  apply (start_table_state [45; 22; 1] 3 100 Player.HERO);
    [lia|left; reflexivity|exact sample_start_ok].
Qed.

Lemma legal_action_succeeds_witness :
  exists ps', apply_action sample_start Act.BET = Ok ps'.
Proof.
  apply (legal_action_succeeds 100 sample_start Act.BET).
  - exact sample_start_table_state.
  - lia.
  - vm_compute. right. left. reflexivity.
Defined.

(** *** The game-state side of a transition *)

(** Every successful transition commits some amount [amt >= 0] of the
    actor's chips, recorded under some act [a'], and then either closes the
    street, passes the turn, or ends the hand by a fold. *)
Lemma apply_action_Ok_gs ps a ps' :
  apply_action ps a = Ok ps' ->
  is_terminal ps = false
  /\ exists g2 amt a',
       put_in_rel (gs ps) (to_act (gs ps)) amt a' g2
       /\ (gs ps' = _advance_street g2 Player.HERO
           \/ gs ps' = _replace_to_act g2 (swap_player (to_act (gs ps)))
           \/ (a = Act.FOLD /\ a' = Act.FOLD /\ amt = 0
               /\ gs ps' = _with_terminal g2 (swap_player (to_act (gs ps))))).
Proof.
  intros H. apply apply_action_Ok_kinds in H. destruct H as (Hnt & g2 & amt & Hk).
  split; [exact Hnt|]. exists g2, amt.
  unfold transition_kinds in Hk. cbv zeta in Hk.
  destruct Hk as [Hk|[Hk|[Hk|[Hk|[Hk|Hk]]]]].
  - destruct Hk as (_ & _ & -> & Hput & _ & ->). exists Act.CHECK. auto.
  - destruct Hk as (_ & _ & -> & Hput & _ & ->). exists Act.CHECK. auto.
  - destruct Hk as (_ & _ & [(_ & Hput)|(_ & _ & _ & Hput)] & ->); eauto 10.
  - destruct Hk as (_ & -> & -> & Hput & ->). exists Act.FOLD. auto 10.
  - destruct Hk as (_ & _ & _ & _ & Hput & ->). exists Act.CALL. auto.
  - destruct Hk as (_ & _ & [(_ & _ & Hput)|(_ & _ & _ & _ & Hput)] & ->); eauto 10.
Qed.

Lemma advance_street_board g x : board (_advance_street g x) = board g.
Proof. unfold _advance_street. destruct (_ <=? _); reflexivity. Qed.

Lemma advance_street_history g x :
  action_history (_advance_street g x) = action_history g.
Proof. unfold _advance_street. destruct (_ <=? _); reflexivity. Qed.

(** The amounts recorded in a stretch of history. *)
Definition recorded_amounts (hist : list Z) : Z :=
  fold_right Z.add 0 (map (fun x => a_amount (decode x)) hist).

Lemma recorded_amounts_app h1 h2 :
  recorded_amounts (h1 ++ h2) = recorded_amounts h1 + recorded_amounts h2.
Proof.
  unfold recorded_amounts. induction h1 as [|x h1 IH]; cbn [app map fold_right]; lia.
Qed.

Lemma apply_action_Ok_log ps a ps' :
  apply_action ps a = Ok ps' ->
  board (gs ps') = board (gs ps)
  /\ exists x,
       action_history (gs ps') = action_history (gs ps) ++ [x]
       /\ 0 <= a_amount (decode x)
       /\ pot (gs ps') = pot (gs ps) + a_amount (decode x)
       /\ hero_stack (gs ps') <= hero_stack (gs ps)
       /\ villain_stack (gs ps') <= villain_stack (gs ps).
Proof.
  intros H. apply apply_action_Ok_gs in H.
  destruct H as (_ & g2 & amt & a' & Hput & Hgs).
  destruct Hput as (Hr & Hp & Hh & Hv & _ & _ & _ & Hb & x & Hx & _ & _ & _ & Hamt).
  assert (Hfields : board (gs ps') = board g2
                    /\ action_history (gs ps') = action_history g2
                    /\ pot (gs ps') = pot g2 /\ hero_stack (gs ps') = hero_stack g2
                    /\ villain_stack (gs ps') = villain_stack g2).
  { destruct Hgs as [-> | [-> | (_ & _ & _ & ->)]].
    - destruct (advance_street_fields g2 Player.HERO) as (-> & -> & -> & _).
      rewrite advance_street_board, advance_street_history. auto.
    - cbn. auto.
    - cbn. auto. }
  destruct Hfields as (-> & -> & -> & -> & ->).
  split; [exact Hb|]. exists x. rewrite Hamt.
  split; [exact Hx|]. split; [lia|]. split; [exact Hp|].
  revert Hh Hv. unfold Player.HERO, Player.VILLAIN.
  destruct (Z.eqb_spec (to_act (gs ps)) 0); destruct (Z.eqb_spec (to_act (gs ps)) 1);
    intros; repeat split; lia.
Qed.

(** X3. The history is an append-only log: playing [acts] leaves the board and
    the earlier entries as they were and appends exactly one entry per
    action; the pot grows by the sum of the amounts recorded in the new
    entries, and no stack ever grows. *)
Theorem play_appends_history (acts : list Z) : forall (ps ps' : PublicState),
  play ps acts = Ok ps' ->
  board (gs ps') = board (gs ps)
  /\ exists new,
       action_history (gs ps') = action_history (gs ps) ++ new
       /\ length new = length acts
       /\ pot (gs ps') = pot (gs ps) + recorded_amounts new
       /\ hero_stack (gs ps') <= hero_stack (gs ps)
       /\ villain_stack (gs ps') <= villain_stack (gs ps)
       /\ pot (gs ps) <= pot (gs ps').
Proof.
  induction acts as [|a rest IH]; intros ps ps' H; cbn [play] in H.
  - apply Ok_inj in H. subst ps'. split; [reflexivity|]. exists [].
    rewrite app_nil_r. cbn. repeat split; lia.
  - apply bind_Ok_inv in H. destruct H as (ps1 & H1 & Hrest).
    apply apply_action_Ok_log in H1.
    destruct H1 as (Hb1 & x & Hx & Hx0 & Hp1 & Hh1 & Hv1).
    destruct (IH _ _ Hrest) as (Hb & new & Hn & Hlen & Hp & Hh & Hv & Hle).
    split; [congruence|]. exists (x :: new).
    split; [rewrite Hn, Hx, <- app_assoc; reflexivity|].
    split; [cbn [length]; lia|].
    change (x :: new) with ([x] ++ new). rewrite recorded_amounts_app.
    replace (recorded_amounts [x]) with (a_amount (decode x))
      by (unfold recorded_amounts; cbn [map fold_right]; lia).
    repeat split; lia.
Qed.

Lemma play_appends_history_witness :
  exists new,
    action_history (gs sample_raised) = action_history (gs sample_start) ++ new
    /\ length new = 2%nat
    /\ pot (gs sample_raised) = pot (gs sample_start) + recorded_amounts new.
Proof.
  destruct (play_appends_history [Act.BET; Act.RAISE] sample_start sample_raised
              sample_raised_ok) as (_ & new & H1 & H2 & H3 & _).
  exists new. split; [exact H1|]. split; [exact H2|exact H3].
Defined.

(** ** How a hand ends *)

(** The value stored under "winner", if any. *)
Definition winner_key (g : GameState) : option pyval := meta_copy (meta g) !! "winner".

Lemma terminal_winner_key ps :
  terminal_winner ps
  = if is_terminal ps then option_map py_int (winner_key (gs ps)) else None.
Proof.
  unfold terminal_winner, winner_key. destruct (is_terminal ps); cbn [negb]; [|reflexivity].
  destruct (meta (gs ps)) as [d|]; cbn [meta_copy].
  - destruct (decide (d = ∅)) as [->|_]; [rewrite lookup_empty; reflexivity|].
    destruct (d !! "winner"); reflexivity.
  - rewrite lookup_empty. reflexivity.
Qed.

Lemma with_terminal_ends g w o b amt r :
  let ps' := mkPublicState (_with_terminal g w) o b amt r in
  is_terminal ps' = true /\ terminal_winner ps' = Some w.
Proof.
  cbv zeta.
  assert (Ht : is_terminal (mkPublicState (_with_terminal g w) o b amt r) = true).
  { unfold is_terminal, _with_terminal. cbn [gs meta].
    apply meta_flag_insert_ne. discriminate. }
  split; [exact Ht|]. rewrite terminal_winner_key, Ht.
  unfold winner_key, _with_terminal. cbn [gs meta meta_copy].
  rewrite lookup_insert_eq. reflexivity.
Qed.

Lemma terminal_absorbs ps a :
  is_terminal ps = true -> apply_action ps a = Err (IllegalAction a).
Proof.
  intros Ht. unfold apply_action, legal_actions. rewrite Ht. reflexivity.
Qed.


(** The sample hand after HERO bets the flop and VILLAIN folds. *)
Definition sample_folded : PublicState :=
  mkPublicState
    (mkGameState [45; 22; 1; -1; -1] Street.FLOP 4 98 98 Player.VILLAIN
       [1080033281; 1090519040]
       (Some (<["winner" := PInt Player.HERO]>
                (<["terminal" := PBool true]> sample_meta))))
    true Player.HERO 1 0.

Example sample_folded_ok : apply_action sample_bet Act.FOLD = Ok sample_folded.
Proof. vm_compute. reflexivity. Qed.


(** The three situations a hand can be in. *)
Definition in_play (ps : PublicState) : Prop :=
  is_terminal ps = false /\ winner_key (gs ps) = None.

Definition folded_out (ps : PublicState) : Prop :=
  is_terminal ps = true
  /\ a_act (last_action ps) = Act.FOLD
  /\ valid_player (a_player (last_action ps))
  /\ terminal_winner ps = Some (swap_player (a_player (last_action ps))).

Definition showed_down (ps : PublicState) : Prop :=
  is_terminal ps = true
  /\ street (gs ps) = Street.RIVER
  /\ meta_flag (meta (gs ps)) "showdown" = true
  /\ terminal_winner ps = None
  /\ (a_act (last_action ps) = Act.CHECK \/ a_act (last_action ps) = Act.CALL).

Definition hand_outcome (ps : PublicState) : Prop :=
  in_play ps \/ folded_out ps \/ showed_down ps.

Lemma land_player p : valid_player p -> Z.land p 63 = p.
Proof. intros [-> | ->]; reflexivity. Qed.

Lemma land_street s : Street.FLOP <= s <= Street.RIVER -> Z.land s 3 = s.
Proof.
  unfold Street.FLOP, Street.RIVER. intros Hs.
  assert (Hc : s = 1 \/ s = 2 \/ s = 3) by lia.
  destruct Hc as [-> | [-> | ->]]; reflexivity.
Qed.

Lemma closing_outcome g p amt a' g2 :
  put_in_rel g p amt a' g2 -> a' = Act.CHECK \/ a' = Act.CALL ->
  street g <= Street.RIVER ->
  meta_flag (meta g) "terminal" = false -> winner_key g = None ->
  hand_outcome (closing_state g2).
Proof.
  intros (_ & _ & _ & _ & Hs & Hm & _ & _ & x & Hx & Hact & _) Ha Hst Hnt Hw.
  unfold hand_outcome, closing_state, _advance_street.
  destruct (Z.leb_spec Street.RIVER (street g2)) as [Hge|Hlt].
  - right; right.
    assert (Ht : is_terminal
                   (mkPublicState
                      (mkGameState (board g2) (street g2) (pot g2) (hero_stack g2)
                         (villain_stack g2) Player.HERO (action_history g2)
                         (Some (<["terminal" := PBool true]>
                                  (<["showdown" := PBool true]> (meta_copy (meta g2))))))
                      false Player.HERO 0 0) = true).
    { unfold is_terminal. cbn [gs meta]. apply meta_flag_insert_eq. }
    unfold showed_down. split; [exact Ht|]. rewrite terminal_winner_key, Ht.
    unfold last_action, winner_key. cbn [gs street meta meta_copy action_history].
    split; [lia|]. split; [apply meta_flag_insert_ne; discriminate|].
    split.
    + rewrite !lookup_insert_ne by discriminate. rewrite Hm.
      unfold winner_key in Hw. rewrite Hw. reflexivity.
    + rewrite Hx, from_end_snoc, Hact. destruct Ha as [-> | ->]; auto.
  - left. unfold in_play, is_terminal, winner_key. cbn [gs meta]. rewrite Hm. auto.
Qed.

Lemma passing_outcome g g2 x o b amt r :
  meta g2 = meta g ->
  meta_flag (meta g) "terminal" = false -> winner_key g = None ->
  hand_outcome (mkPublicState (_replace_to_act g2 x) o b amt r).
Proof.
  intros Hm Hnt Hw. left. unfold in_play, is_terminal, winner_key.
  cbn [gs _replace_to_act meta]. rewrite Hm. auto.
Qed.

Lemma apply_action_outcome B ps a ps' :
  table_state B ps -> in_play ps -> apply_action ps a = Ok ps' -> hand_outcome ps'.
Proof.
  intros (Hp & _ & _ & _ & _ & Hst & _) (Hnt & Hw) H.
  apply apply_action_Ok_kinds in H. destruct H as (_ & g2 & amt & Hk).
  unfold transition_kinds in Hk. cbv zeta in Hk. unfold is_terminal in Hnt.
  destruct Hk as [Hk|[Hk|[Hk|[Hk|[Hk|Hk]]]]].
  - destruct Hk as (_ & _ & _ & Hput & _ & ->).
    eapply closing_outcome; eauto. lia.
  - destruct Hk as (_ & _ & _ & Hput & _ & ->).
    apply (passing_outcome (gs ps)); [apply Hput|exact Hnt|exact Hw].
  - destruct Hk as (_ & _ & [(_ & Hput)|(_ & _ & _ & Hput)] & ->);
      (apply (passing_outcome (gs ps)); [apply Hput|exact Hnt|exact Hw]).
  - destruct Hk as (_ & _ & _ & Hput & ->).
    destruct Hput as (_ & _ & _ & _ & _ & _ & _ & _ & x & Hx & Hact & _ & Hpl & _).
    destruct (with_terminal_ends g2 (swap_player (to_act (gs ps))) true (bet_by ps)
                (bet_amount ps) (raises_this_street ps)) as [Ht Hwin].
    cbv zeta in Ht, Hwin.
    right; left. unfold folded_out. split; [exact Ht|]. rewrite Hwin.
    unfold last_action, _with_terminal. cbn [gs action_history].
    rewrite Hx, from_end_snoc, Hact, Hpl, (land_player _ Hp). auto.
  - destruct Hk as (_ & _ & _ & _ & Hput & ->).
    eapply closing_outcome; eauto. lia.
  - destruct Hk as (_ & _ & [(_ & _ & Hput)|(_ & _ & _ & _ & Hput)] & ->);
      (apply (passing_outcome (gs ps)); [apply Hput|exact Hnt|exact Hw]).
Qed.

Lemma start_in_play flop pot0 S ta ps :
  start_postflop_state flop pot0 S ta = Ok ps -> in_play ps.
Proof.
  intros H. apply start_postflop_state_Ok in H. destruct H as (_ & _ & Hg & _).
  unfold in_play, is_terminal, winner_key. rewrite Hg. cbn [meta meta_copy].
  split; [|reflexivity].
  unfold meta_flag. destruct (decide _); reflexivity.
Qed.

Lemma in_play_not_terminal ps :
  hand_outcome ps -> is_terminal ps = false -> in_play ps.
Proof.
  intros [H | [(Ht & _) | (Ht & _)]] Hnt; [exact H|congruence|congruence].
Qed.



(** ** Every hand is finite *)

(** Whether the last recorded action is a CHECK on the current street. *)
Definition checked_once (ps : PublicState) : bool :=
  match rev (action_history (gs ps)) with
  | x :: _ => (a_act (decode x) =? Act.CHECK) && (a_street (decode x) =? street (gs ps))
  | [] => false
  end.

(** How far the betting on the current street is from being closed. *)
Definition phase (ps : PublicState) : Z :=
  if street_bet_open ps then
    if raises_this_street ps =? 0 then 4
    else 1 + (if 0 <? hero_stack (gs ps) then 1 else 0)
           + (if 0 <? villain_stack (gs ps) then 1 else 0)
  else if checked_once ps then 5 else 6.

(** An upper bound on the number of actions the hand can still take. *)
Definition actions_left (ps : PublicState) : Z :=
  if is_terminal ps then 0
  else 6 * (Street.RIVER - street (gs ps)) + phase ps.

Lemma phase_range ps : 1 <= phase ps <= 6.
Proof.
  unfold phase.
  destruct (street_bet_open ps); [|destruct (checked_once ps); lia].
  destruct (_ =? 0); [lia|].
  destruct (0 <? hero_stack _); destruct (0 <? villain_stack _); lia.
Qed.

Lemma actions_left_closing g p amt a' g2 :
  put_in_rel g p amt a' g2 -> Street.FLOP <= street g <= Street.RIVER ->
  actions_left (closing_state g2) <= 6 * (Street.RIVER - street g).
Proof.
  intros (_ & _ & _ & _ & Hs & _) Hst.
  unfold actions_left. destruct (is_terminal _) eqn:Ht; [lia|].
  pose proof (phase_range (closing_state g2)) as Hph.
  unfold closing_state in *. cbn [gs] in *.
  destruct (advance_street_fields g2 Player.HERO) as (_ & _ & _ & _ & _ & Hs2).
  rewrite Hs2. destruct (Z.leb_spec Street.RIVER (street g2)) as [Hge|Hlt]; [|lia].
  exfalso. unfold is_terminal, _advance_street in Ht. cbn [gs] in Ht.
  destruct (Z.leb_spec Street.RIVER (street g2)); [|lia].
  cbn [meta] in Ht. rewrite meta_flag_insert_eq in Ht. discriminate.
Qed.

Lemma two_checks_after_check ps x h :
  Street.FLOP <= street (gs ps) <= Street.RIVER ->
  checked_once ps = true ->
  h = action_history (gs ps) ++ [x] ->
  a_act (decode x) = Act.CHECK -> a_street (decode x) = street (gs ps) ->
  two_checks h (street (gs ps)) = true.
Proof.
  intros Hst Hc -> Hact Hstr. unfold checked_once in Hc.
  destruct (rev (action_history (gs ps))) as [|y r] eqn:Hrev; [discriminate|].
  apply andb_prop in Hc. destruct Hc as [Hy1 Hy2].
  apply Z.eqb_eq in Hy1, Hy2.
  assert (Hh : action_history (gs ps) = rev r ++ [y]).
  { rewrite <- (rev_involutive (action_history (gs ps))), Hrev. reflexivity. }
  rewrite Hh, <- app_assoc. cbn [app].
  unfold two_checks.
  replace (2 <=? length (rev r ++ [y; x]))%nat with true
    by (symmetry; apply Nat.leb_le; rewrite length_app; cbn [length]; lia).
  unfold from_end. rewrite rev_app_distr. cbn [rev app nth Nat.sub].
  rewrite Hact, Hy1, Hstr, Hy2, !Z.eqb_refl. reflexivity.
Qed.

Ltac crush_cmp :=
  crush_ifs;
  repeat match goal with
         | H : (_ <? _) = true |- _ => apply Z.ltb_lt in H
         | H : (_ <? _) = false |- _ => apply Z.ltb_ge in H
         | H : (_ =? _) = true |- _ => apply Z.eqb_eq in H
         | H : (_ =? _) = false |- _ => apply Z.eqb_neq in H
         end.

Ltac case_terminal :=
  match goal with
  | |- context [if is_terminal ?s then _ else _] => destruct (is_terminal s)
  end.

Lemma actions_left_decreases B ps a ps' :
  table_state B ps -> apply_action ps a = Ok ps' ->
  0 <= actions_left ps' < actions_left ps.
Proof.
  intros Hts H.
  pose proof (apply_action_table_state B ps a ps' Hts H) as Hts'.
  assert (Hlo : 0 <= actions_left ps').
  { unfold actions_left. destruct (is_terminal ps'); [lia|].
    pose proof (phase_range ps'). destruct Hts' as (_ & _ & _ & _ & _ & Hst' & _).
    unfold Street.RIVER in *. lia. }
  split; [exact Hlo|]. clear Hlo Hts'.
  pose proof Hts as (Hp & Hh & Hv & Hpot & Hbet & Hst & Hr).
  apply apply_action_Ok_kinds in H. destruct H as (Hnt & g2 & amt & Hk).
  pose proof (phase_range ps) as Hph.
  assert (Hmu : actions_left ps = 6 * (Street.RIVER - street (gs ps)) + phase ps).
  { unfold actions_left. rewrite Hnt. reflexivity. }
  assert (Hst3 : street (gs ps) <= 3) by (unfold Street.RIVER in Hst; lia).
  unfold transition_kinds in Hk. cbv zeta in Hk.
  destruct Hk as [Hk|[Hk|[Hk|[Hk|[Hk|Hk]]]]].
  - destruct Hk as (_ & _ & _ & Hput & _ & ->).
    pose proof (actions_left_closing _ _ _ _ _ Hput Hst). lia.
  - destruct Hk as (Hop & _ & _ & Hput & Htc & ->).
    destruct Hput as (_ & _ & _ & _ & Hs2 & _ & _ & _ & x & Hx & Hact & Hstr & _).
    rewrite (land_street _ Hst) in Hstr.
    change (Z.land Act.CHECK 7) with Act.CHECK in Hact.
    assert (Hc : checked_once ps = false).
    { destruct (checked_once ps) eqn:Hc; [|reflexivity].
      rewrite (two_checks_after_check ps x _ Hst Hc Hx Hact Hstr) in Htc. discriminate. }
    assert (Hph0 : phase ps = 6). { unfold phase. rewrite Hop, Hc. reflexivity. }
    unfold actions_left at 1. case_terminal; [unfold Street.RIVER in *; lia|].
    unfold phase, checked_once.
    cbn [street_bet_open gs _replace_to_act action_history street].
    rewrite Hx, rev_app_distr. cbn [rev app].
    rewrite Hact, Hstr, Hs2, !Z.eqb_refl. cbn [andb]. lia.
  - destruct Hk as (Hop & _ & Hamt & ->).
    assert (Hs2 : street g2 = street (gs ps)).
    { destruct Hamt as [(_ & Hput)|(_ & _ & _ & Hput)]; apply Hput. }
    assert (5 <= phase ps). { unfold phase. rewrite Hop. destruct (checked_once ps); lia. }
    unfold actions_left at 1. case_terminal; [unfold Street.RIVER in *; lia|].
    unfold phase. cbn [street_bet_open raises_this_street gs _replace_to_act street].
    rewrite Hs2. cbn [Z.eqb]. lia.
  - destruct Hk as (_ & _ & _ & _ & ->).
    destruct (with_terminal_ends g2 (swap_player (to_act (gs ps))) true (bet_by ps)
                (bet_amount ps) (raises_this_street ps)) as [Ht _].
    cbv zeta in Ht. unfold actions_left at 1. rewrite Ht. unfold Street.RIVER in *. lia.
  - destruct Hk as (_ & _ & _ & _ & Hput & ->).
    pose proof (actions_left_closing _ _ _ _ _ Hput Hst). lia.
  - destruct Hk as (Hop & _ & Hamt & ->).
    unfold actions_left at 1. case_terminal; [unfold Street.RIVER in *; lia|].
    rewrite Hmu. unfold phase.
    cbn [street_bet_open raises_this_street gs _replace_to_act hero_stack villain_stack
         street].
    rewrite Hop. cbn [Z.eqb].
    destruct Hamt as [(-> & Hgt & Hput)|(_ & -> & _ & Hr0 & Hput)];
      destruct Hput as (_ & _ & Hh2 & Hv2 & Hs2 & _); rewrite Hs2, Hh2, Hv2.
    + unfold actor_stack, stack_of in *. split_player Hp; crush_cmp; lia.
    + rewrite Hr0. cbn [Z.eqb]. crush_cmp; lia.
Qed.

Lemma play_actions_left B acts : forall ps ps',
  table_state B ps -> play ps acts = Ok ps' ->
  Z.of_nat (length acts) + actions_left ps' <= actions_left ps.
Proof.
  induction acts as [|a rest IH]; intros ps ps' Hts H; cbn [play] in H.
  - apply Ok_inj in H. subst ps'. cbn [length]. lia.
  - apply bind_Ok_inv in H. destruct H as (ps1 & H1 & Hrest).
    pose proof (actions_left_decreases B ps a ps1 Hts H1).
    pose proof (IH ps1 ps' (apply_action_table_state B ps a ps1 Hts H1) Hrest).
    cbn [length]. lia.
Qed.

(** X6. No hand takes more than 18 actions (six per street): the betting on a
    street cannot go on for ever, since only one raise is counted and an
    all-in over the top empties the stack of the player who makes it. *)
Theorem hand_length_bound (flop : list Z) (pot0 S ta : Z) (acts : list Z)
    (ps0 ps : PublicState) :
  0 <= pot0 -> valid_player ta ->
  start_postflop_state flop pot0 S ta = Ok ps0 ->
  play ps0 acts = Ok ps ->
  (length acts <= 18)%nat.
Proof.
  intros Hpot Hta Hstart Hplay.
  pose proof (start_table_state _ _ _ _ _ Hpot Hta Hstart) as Hts.
  pose proof (play_actions_left S acts ps0 ps Hts Hplay) as Hle.
  assert (Hlo : 0 <= actions_left ps).
  { unfold actions_left. destruct (is_terminal ps); [lia|].
    pose proof (phase_range ps).
    assert (Hts' : table_state S ps).
    { eapply (play_preserves (table_state S)); [|exact Hts|exact Hplay].
      intros ? ? ?. apply apply_action_table_state. }
    destruct Hts' as (_ & _ & _ & _ & _ & Hst' & _). unfold Street.RIVER in *. lia. }
  assert (Hhi : actions_left ps0 <= 18).
  { pose proof (phase_range ps0). unfold actions_left.
    destruct (is_terminal ps0); [lia|].
    apply start_postflop_state_Ok in Hstart. destruct Hstart as (_ & _ & Hg & _).
    rewrite Hg. cbn [street]. unfold Street.RIVER, Street.FLOP. lia. }
  lia.
Qed.

Lemma hand_length_bound_witness : (length [Act.BET; Act.RAISE] <= 18)%nat.
Proof.
  apply (hand_length_bound [45; 22; 1] 3 100 Player.HERO [Act.BET; Act.RAISE]
           sample_start sample_raised).
  - lia.
  - left. reflexivity.
  - exact sample_start_ok.
  - exact sample_raised_ok.
Defined.

(** ** Hero's chip result *)

(** poker/ai/ismcts.py, [ISMCTS._hero_terminal_ev]: a recorded winner
    decides; otherwise the showdown comparison [cmp] does (the result of
    [showdown_result] on the sampled cards: positive, negative or 0). *)
Definition _hero_terminal_ev (g : GameState) (cmp : Z) : option Z :=
  match (if meta_flag (meta g) "terminal" then meta_get (meta g) "winner" else None) with
  | Some w => _hero_chip_ev_terminal g (Some (py_int w =? Player.HERO))
  | None =>
      if 0 <? cmp then _hero_chip_ev_terminal g (Some true)
      else if cmp <? 0 then _hero_chip_ev_terminal g (Some false)
      else _hero_chip_ev_terminal g None
  end.

Lemma chip_ev_bounds S ps hw :
  hand_invariant S ps -> table_state S ps ->
  exists ev,
    _hero_chip_ev_terminal (gs ps) hw = Some ev
    /\ - S <= ev <= S
    /\ (hw = Some true -> ev = S - villain_stack (gs ps))
    /\ (hw = Some false -> ev = hero_stack (gs ps) - S).
Proof.
  intros (_ & Hc & Hh & _) (_ & Hhs & Hvs & Hpot & _).
  unfold _hero_chip_ev_terminal, meta_get. rewrite Hh. cbn [py_int].
  unfold chips in Hc.
  assert (0 <= pot (gs ps) / 2 <= pot (gs ps)).
  { split; [apply Z.div_pos; lia|]. apply Z.div_le_upper_bound; lia. }
  eexists. split; [reflexivity|].
  destruct hw as [[|]|]; (split; [lia|]); split; intros Heq;
    try discriminate; lia.
Qed.

Lemma meta_get_winner_key g : meta_get (meta g) "winner" = winner_key g.
Proof.
  unfold meta_get, winner_key. destruct (meta g); cbn [meta_copy]; [reflexivity|].
  rewrite lookup_empty. reflexivity.
Qed.

(** X7. Whatever the showdown comparison, hero's chip result of a hand exists
    (the starting stack is always found in the side-channel) and lies
    between minus and plus the starting stack.  When the hand ended by a
    fold the cards play no role: if hero is the recorded winner the result
    is what villain has put in, if villain is, it is minus what hero has
    put in. *)
Theorem hero_terminal_ev_bounds (flop : list Z) (pot0 S ta : Z) (acts : list Z)
    (ps0 ps : PublicState) (cmp : Z) :
  0 <= pot0 -> valid_player ta ->
  start_postflop_state flop pot0 S ta = Ok ps0 ->
  play ps0 acts = Ok ps ->
  exists ev,
    _hero_terminal_ev (gs ps) cmp = Some ev
    /\ - S <= ev <= S
    /\ (terminal_winner ps = Some Player.HERO -> ev = S - villain_stack (gs ps))
    /\ (terminal_winner ps = Some Player.VILLAIN -> ev = hero_stack (gs ps) - S).
Proof.
  intros Hpot Hta Hstart Hplay.
  pose proof (play_invariant S acts ps0 ps (start_invariant _ _ _ _ _ Hta Hstart) Hplay)
    as Hinv.
  assert (Hts : table_state S ps).
  { eapply (play_preserves (table_state S)); [|eapply start_table_state; eauto|exact Hplay].
    intros ? ? ?. apply apply_action_table_state. }
  unfold _hero_terminal_ev. rewrite meta_get_winner_key, terminal_winner_key.
  fold (is_terminal ps).
  destruct (is_terminal ps).
  - destruct (winner_key (gs ps)) as [v|]; cbn [option_map].
    + destruct (chip_ev_bounds S ps (Some (py_int v =? Player.HERO)) Hinv Hts)
        as (ev & He & Hb & Hw & Hl).
      exists ev. split; [exact He|]. split; [exact Hb|].
      split; intros Heq; apply (f_equal (fun o => match o with Some x => x | None => 0 end))
        in Heq; cbn in Heq; rewrite Heq in *; [apply Hw|apply Hl]; reflexivity.
    + destruct (0 <? cmp); [|destruct (cmp <? 0)];
        match goal with
        | |- context [_hero_chip_ev_terminal _ ?hw] =>
            destruct (chip_ev_bounds S ps hw Hinv Hts) as (ev & He & Hb & _)
        end; exists ev; (split; [exact He|]); (split; [exact Hb|]);
        split; discriminate.
  - destruct (0 <? cmp); [|destruct (cmp <? 0)];
      match goal with
      | |- context [_hero_chip_ev_terminal _ ?hw] =>
          destruct (chip_ev_bounds S ps hw Hinv Hts) as (ev & He & Hb & _)
      end; exists ev; (split; [exact He|]); (split; [exact Hb|]);
      split; discriminate.
Qed.

Lemma hero_terminal_ev_bounds_witness :
  exists ev, _hero_terminal_ev (gs sample_showdown) 0 = Some ev /\ - 100 <= ev <= 100.
Proof.
  destruct (hero_terminal_ev_bounds [45; 22; 1] 3 100 Player.HERO
              [Act.CHECK; Act.CHECK; Act.CHECK; Act.CHECK; Act.CHECK; Act.CHECK]
              sample_start sample_showdown 0) as (ev & He & Hb & _).
  - lia.
  - left. reflexivity.
  - exact sample_start_ok.
  - exact sample_showdown_ok.
  - exists ev. split; [exact He|exact Hb].
Defined.

(** * Further properties of the codec and the card abstraction *)

(** ** Decoding any integer *)

Lemma decode_div_mod x :
  decode x = mkAction ((x / 2 ^ 30) mod 4) ((x / 2 ^ 24) mod 64)
               ((x / 2 ^ 21) mod 8) (x mod 2 ^ 21).
Proof.
  unfold decode.
  change 3 with (Z.ones 2). change 63 with (Z.ones 6). change 7 with (Z.ones 3).
  change (Z.shiftl 1 21 - 1) with (Z.ones 21).
  rewrite !Z.land_ones, !Z.shiftr_div_pow2 by lia. reflexivity.
Qed.

Lemma word_fields x :
  x mod 2 ^ 32
  = (x / 2 ^ 30) mod 4 * 2 ^ 30 + (x / 2 ^ 24) mod 64 * 2 ^ 24
    + (x / 2 ^ 21) mod 8 * 2 ^ 21 + x mod 2 ^ 21.
Proof.
  pose proof (Z.div_mod x (2 ^ 21) ltac:(lia)) as H1.
  pose proof (Z.div_mod (x / 2 ^ 21) 8 ltac:(lia)) as H2.
  pose proof (Z.div_mod (x / 2 ^ 24) 64 ltac:(lia)) as H3.
  pose proof (Z.div_mod (x / 2 ^ 30) 4 ltac:(lia)) as H4.
  assert (E2 : x / 2 ^ 21 / 8 = x / 2 ^ 24) by (rewrite Z.div_div by lia; reflexivity).
  assert (E3 : x / 2 ^ 24 / 64 = x / 2 ^ 30) by (rewrite Z.div_div by lia; reflexivity).
  rewrite E2 in H2. rewrite E3 in H3.
  pose proof (Z.mod_pos_bound x (2 ^ 21) ltac:(lia)).
  pose proof (Z.mod_pos_bound (x / 2 ^ 21) 8 ltac:(lia)).
  pose proof (Z.mod_pos_bound (x / 2 ^ 24) 64 ltac:(lia)).
  pose proof (Z.mod_pos_bound (x / 2 ^ 30) 4 ltac:(lia)).
  symmetry. apply (Z.mod_unique x (2 ^ 32) (x / 2 ^ 30 / 4)); [left; lia|lia].
Qed.

Lemma encode_decode_mod x : encode (decode x) = Ok (x mod 2 ^ 32).
Proof.
  rewrite decode_div_mod, word_fields.
  apply encode_in_range_sum; apply Z.mod_pos_bound; lia.
Qed.

Lemma encode_Ok_word a x : encode a = Ok x -> 0 <= x < 2 ^ 32.
Proof.
  intros He. pose proof (encode_Ok_range _ _ He) as Hm.
  assert (Hs : 0 <= Z.land (a_street a) 3 < 4).
  { change 3 with (Z.ones 2). rewrite Z.land_ones by lia.
    apply Z.mod_pos_bound. reflexivity. }
  assert (Hp : 0 <= Z.land (a_player a) 63 < 64).
  { change 63 with (Z.ones 6). rewrite Z.land_ones by lia.
    apply Z.mod_pos_bound. reflexivity. }
  assert (Ha : 0 <= Z.land (a_act a) 7 < 8).
  { change 7 with (Z.ones 3). rewrite Z.land_ones by lia.
    apply Z.mod_pos_bound. reflexivity. }
  pose proof (encode_in_range_sum _ _ _ _ Hs Hp Ha Hm) as Hsum.
  assert (Heq : encode a
                = encode (mkAction (Z.land (a_street a) 3) (Z.land (a_player a) 63)
                            (Z.land (a_act a) 7) (a_amount a))).
  { unfold encode. cbn [a_street a_player a_act a_amount].
    rewrite <- !Z.land_assoc, !Z.land_diag. reflexivity. }
  rewrite Heq, Hsum in He. apply Ok_inj in He. subst x. lia.
Qed.

(** X8. Decoding is total and re-encoding normalises: for every integer [x],
    also a negative one, the decoded fields lie in their widths and
    re-encoding gives [x] reduced modulo 2^32; so a 32-bit word, and in
    particular every word [encode] has produced, is a fixed point of
    decode-then-encode. *)
Theorem encode_decode_word :
  (forall x, 0 <= a_street (decode x) <= 3 /\ 0 <= a_player (decode x) <= 63
             /\ 0 <= a_act (decode x) <= 7 /\ 0 <= a_amount (decode x) <= 2097151)
  /\ (forall x, encode (decode x) = Ok (x mod 2 ^ 32))
  /\ (forall x, 0 <= x < 2 ^ 32 -> encode (decode x) = Ok x)
  /\ (forall a x, encode a = Ok x -> 0 <= x < 2 ^ 32 /\ encode (decode x) = Ok x).
Proof.
  split; [|split; [|split]].
  - intros x. rewrite decode_div_mod. cbn [a_street a_player a_act a_amount].
    pose proof (Z.mod_pos_bound x (2 ^ 21) ltac:(lia)).
    pose proof (Z.mod_pos_bound (x / 2 ^ 21) 8 ltac:(lia)).
    pose proof (Z.mod_pos_bound (x / 2 ^ 24) 64 ltac:(lia)).
    pose proof (Z.mod_pos_bound (x / 2 ^ 30) 4 ltac:(lia)).
    lia.
  - exact encode_decode_mod.
  - intros x Hx. rewrite encode_decode_mod, Z.mod_small by lia. reflexivity.
  - intros a x He. pose proof (encode_Ok_word a x He) as Hx.
    split; [exact Hx|]. rewrite encode_decode_mod, Z.mod_small by lia. reflexivity.
Qed.

Lemma encode_decode_word_witness : encode (decode 1080033281) = Ok 1080033281.
Proof. apply (proj1 (proj2 (proj2 encode_decode_word)) 1080033281). lia. Defined.

(** ** poker/helpers/cards.py and the card ids of abstraction.py *)

(** A card is a value 2..14 with a suit character.  Strings are sequences
    of ASCII characters here; [Card.from_str] is modelled on such strings. *)
Record Card : Type := mkCard {
  card_val : Z;
  card_suit : Ascii.ascii
}.

Definition RANKS : list Ascii.ascii := String.list_ascii_of_string "23456789TJQKA".
Definition SUITS : list Ascii.ascii := String.list_ascii_of_string "shdc".

(** [seq.index(c)], [None] when [c] does not occur. *)
Fixpoint index_of (c : Ascii.ascii) (l : list Ascii.ascii) : option Z :=
  match l with
  | [] => None
  | x :: rest => if Ascii.eqb x c then Some 0 else option_map Z.succ (index_of c rest)
  end.

(** [RANK_TO_VAL = {r: i + 2 for i, r in enumerate(RANKS)}] *)
Definition RANK_TO_VAL (r : Ascii.ascii) : option Z :=
  option_map (fun i => i + 2) (index_of r RANKS).

(** [VAL_TO_RANK = {v: r for r, v in RANK_TO_VAL.items()}] *)
Definition VAL_TO_RANK (v : Z) : option Ascii.ascii :=
  if (2 <=? v) && (v <=? 14) then nth_error RANKS (Z.to_nat (v - 2)) else None.

(** [Card.__str__]; a value outside 2..14 raises KeyError ([None]). *)
Definition Card_str (c : Card) : option string :=
  match VAL_TO_RANK (card_val c) with
  | Some r => Some (String.String r (String.String (card_suit c) String.EmptyString))
  | None => None
  end.

(** ASCII whitespace, as removed by [str.strip()]. *)
Definition is_space (c : Ascii.ascii) : bool :=
  let n := Z.of_nat (Ascii.nat_of_ascii c) in
  ((9 <=? n) && (n <=? 13)) || ((28 <=? n) && (n <=? 32)).

Fixpoint lstrip (l : list Ascii.ascii) : list Ascii.ascii :=
  match l with
  | c :: rest => if is_space c then lstrip rest else l
  | [] => []
  end.

Definition strip (l : list Ascii.ascii) : list Ascii.ascii := rev (lstrip (rev (lstrip l))).

(** [str.upper()] and [str.lower()] on one ASCII character. *)
Definition upper (c : Ascii.ascii) : Ascii.ascii :=
  let n := Ascii.nat_of_ascii c in
  if (97 <=? n)%nat && (n <=? 122)%nat then Ascii.ascii_of_nat (n - 32) else c.

Definition lower (c : Ascii.ascii) : Ascii.ascii :=
  let n := Ascii.nat_of_ascii c in
  if (65 <=? n)%nat && (n <=? 90)%nat then Ascii.ascii_of_nat (n + 32) else c.

Definition card_eqb (c1 c2 : Card) : bool :=
  (card_val c1 =? card_val c2) && Ascii.eqb (card_suit c1) (card_suit c2).

(** [Card.from_str]; a bad card string raises ValueError ([None]). *)
Definition from_str (s : string) : option Card :=
  match strip (String.list_ascii_of_string s) with
  | [c0; c1] =>
      let r := upper c0 in
      let su := lower c1 in
      match RANK_TO_VAL r with
      | Some v => if existsb (Ascii.eqb su) SUITS then Some (mkCard v su) else None
      | None => None
      end
  | _ => None
  end.

(** [make_deck(exclude)]: rank by rank, suit by suit, minus the dead cards. *)
Definition full_deck : list Card :=
  flat_map (fun r => match RANK_TO_VAL r with
                     | Some v => map (mkCard v) SUITS
                     | None => []
                     end) RANKS.

Definition make_deck (exclude : list Card) : list Card :=
  List.filter (fun c => negb (existsb (card_eqb c) exclude)) full_deck.

(** [card_to_id] on a [Card]: [_VAL_TO_RANKI[c.val] * 4 + _SUIT_TO_I[c.suit]];
    a missing key raises KeyError ([None]). *)
Definition card_to_id (c : Card) : option Z :=
  if (2 <=? card_val c) && (card_val c <=? 14) then
    match index_of (card_suit c) SUITS with
    | Some s_i => Some ((card_val c - 2) * 4 + s_i)
    | None => None
    end
  else None.

(** [card_to_id] on a string: parse, then as above. *)
Definition card_to_id_str (s : string) : option Z :=
  match from_str s with
  | Some c => card_to_id c
  | None => None
  end.

(** [id_to_card]; an id outside 0..51 raises ValueError ([None]). *)
Definition id_to_card (cid : Z) : option Card :=
  if (0 <=? cid) && (cid <? 52) then
    match nth_error SUITS (Z.to_nat (cid mod 4)) with
    | Some su => Some (mkCard (cid / 4 + 2) su)
    | None => None
    end
  else None.

(** [[f(x) for x in l]] where [f] may raise. *)
Fixpoint map_opt {A B} (f : A -> option B) (l : list A) : option (list B) :=
  match l with
  | [] => Some []
  | x :: rest =>
      match f x with
      | Some y => match map_opt f rest with
                  | Some ys => Some (y :: ys)
                  | None => None
                  end
      | None => None
      end
  end.

(** [_remaining_deck_ids] as the source computes it, through cards and
    their strings:
      exclude_cards = [id_to_card(x) for x in exclude_ids]
      deck_cards = make_deck(exclude=exclude_cards)
      return [card_to_id(str(c)) for c in deck_cards] *)
Definition remaining_deck_ids_via_cards (exclude_ids : list Z) : option (list Z) :=
  match map_opt id_to_card exclude_ids with
  | Some exclude_cards =>
      map_opt (fun c => match Card_str c with
                        | Some s => card_to_id_str s
                        | None => None
                        end)
        (make_deck exclude_cards)
  | None => None
  end.

(** The ids 0..51 in increasing order, and the card of an id. *)
Definition deck_ids : list Z := map Z.of_nat (seq 0 52).

Definition card_of_id (cid : Z) : Card :=
  mkCard (cid / 4 + 2) (nth (Z.to_nat (cid mod 4)) SUITS Ascii.zero).

Lemma In_deck_ids i : In i deck_ids <-> 0 <= i < 52.
Proof.
  unfold deck_ids. rewrite in_map_iff. split.
  - intros (n & <- & Hn). apply in_seq in Hn. lia.
  - intros Hi. exists (Z.to_nat i). split; [lia|]. apply in_seq. lia.
Qed.

Lemma valid_card_id_spec i : valid_card_id i = true <-> 0 <= i < 52.
Proof.
  unfold valid_card_id. rewrite andb_true_iff, Z.leb_le, Z.ltb_lt. reflexivity.
Qed.

Lemma card_eqb_eq c1 c2 : card_eqb c1 c2 = true <-> c1 = c2.
Proof.
  unfold card_eqb. rewrite andb_true_iff, Z.eqb_eq, Ascii.eqb_eq.
  destruct c1, c2; cbn [card_val card_suit]. split.
  - intros [-> ->]. reflexivity.
  - intros Heq. injection Heq as -> ->. auto.
Qed.

Lemma id_to_card_valid i : 0 <= i < 52 -> id_to_card i = Some (card_of_id i).
Proof.
  intros Hi. unfold id_to_card, card_of_id.
  destruct (Z.leb_spec 0 i); [|lia]. destruct (Z.ltb_spec i 52); [|lia]. cbn [andb].
  assert (Hm : 0 <= i mod 4 < 4) by (apply Z.mod_pos_bound; lia).
  assert (Hc : i mod 4 = 0 \/ i mod 4 = 1 \/ i mod 4 = 2 \/ i mod 4 = 3) by lia.
  destruct Hc as [-> | [-> | [-> | ->]]]; reflexivity.
Qed.

Lemma id_to_card_invalid i : ~ 0 <= i < 52 -> id_to_card i = None.
Proof.
  intros Hi. unfold id_to_card.
  destruct (Z.leb_spec 0 i); destruct (Z.ltb_spec i 52); cbn [andb]; try reflexivity. lia.
Qed.

Lemma full_deck_cards : full_deck = map card_of_id deck_ids.
Proof. vm_compute. reflexivity. Qed.

(** Checked on each of the 52 ids: the card of the id has that id, its
    string parses back to the card, and the string has that id. *)
Definition id_roundtrip_check (i : Z) : bool :=
  let c := card_of_id i in
  match card_to_id c, Card_str c with
  | Some j, Some s =>
      (j =? i)
      && match from_str s, card_to_id_str s with
         | Some c', Some k => card_eqb c' c && (k =? i)
         | _, _ => false
         end
  | _, _ => false
  end.

Lemma id_roundtrip_all : forallb id_roundtrip_check deck_ids = true.
Proof. vm_compute. reflexivity. Qed.

Lemma id_roundtrip i :
  0 <= i < 52 ->
  card_to_id (card_of_id i) = Some i
  /\ exists s, Card_str (card_of_id i) = Some s
               /\ from_str s = Some (card_of_id i) /\ card_to_id_str s = Some i.
Proof.
  intros Hi. apply In_deck_ids in Hi.
  pose proof (proj1 (forallb_forall _ _) id_roundtrip_all i Hi) as Hc.
  unfold id_roundtrip_check in Hc. cbv zeta in Hc.
  destruct (card_to_id (card_of_id i)) as [j|]; [|discriminate].
  destruct (Card_str (card_of_id i)) as [s|]; [|discriminate].
  apply andb_prop in Hc. destruct Hc as [Hj Hc]. apply Z.eqb_eq in Hj. subst j.
  split; [reflexivity|]. exists s. split; [reflexivity|].
  destruct (from_str s) as [c'|]; [|discriminate].
  destruct (card_to_id_str s) as [k|]; [|discriminate].
  apply andb_prop in Hc. destruct Hc as [Hc Hk].
  apply card_eqb_eq in Hc. apply Z.eqb_eq in Hk. subst. auto.
Qed.

Lemma index_of_spec c l k :
  index_of c l = Some k ->
  0 <= k < Z.of_nat (length l) /\ nth_error l (Z.to_nat k) = Some c.
Proof.
  revert k. induction l as [|x rest IH]; intros k H; cbn [index_of] in H; [discriminate|].
  destruct (Ascii.eqb x c) eqn:E.
  - apply Ascii.eqb_eq in E. injection H as <-. subst x. cbn [length]. split; [lia|reflexivity].
  - destruct (index_of c rest) as [k'|]; [|discriminate]. injection H as <-.
    destruct (IH k' eq_refl) as [Hr Hn]. cbn [length]. split; [lia|].
    replace (Z.to_nat (Z.succ k')) with (Datatypes.S (Z.to_nat k')) by lia. exact Hn.
Qed.

Lemma card_to_id_inv c i :
  card_to_id c = Some i -> 0 <= i < 52 /\ id_to_card i = Some c.
Proof.
  unfold card_to_id. intros H.
  destruct (Z.leb_spec 2 (card_val c)); [|discriminate].
  destruct (Z.leb_spec (card_val c) 14); [|discriminate]. cbn [andb] in H.
  destruct (index_of (card_suit c) SUITS) as [s_i|] eqn:Hs; [|discriminate].
  injection H as <-. apply index_of_spec in Hs. destruct Hs as [Hr Hn].
  change (Z.of_nat (length SUITS)) with 4 in Hr.
  split; [lia|]. unfold id_to_card.
  destruct (Z.leb_spec 0 ((card_val c - 2) * 4 + s_i)); [|lia].
  destruct (Z.ltb_spec ((card_val c - 2) * 4 + s_i) 52); [|lia]. cbn [andb].
  replace (((card_val c - 2) * 4 + s_i) mod 4) with s_i
    by (rewrite Z.add_comm, Z.mod_add by lia; symmetry; apply Z.mod_small; lia).
  replace (((card_val c - 2) * 4 + s_i) / 4) with (card_val c - 2)
    by (rewrite Z.div_add_l by lia; rewrite (Z.div_small s_i) by lia; lia).
  rewrite Hn. destruct c as [v su]. cbn [card_val card_suit]. f_equal. f_equal. lia.
Qed.

(** X9. Card ids and cards correspond one to one.  Every id 0..51 names a card
    whose id it is, and the printed form of that card parses back to the
    card and to the id; ids outside 0..51 are refused; and whenever a card
    has an id, that id lies in 0..51 and names the card. *)
Theorem card_id_roundtrip :
  (forall i, 0 <= i < 52 ->
     exists c s, id_to_card i = Some c /\ card_to_id c = Some i
                 /\ Card_str c = Some s /\ from_str s = Some c
                 /\ card_to_id_str s = Some i)
  /\ (forall i, id_to_card i = None <-> ~ 0 <= i < 52)
  /\ (forall c i, card_to_id c = Some i -> 0 <= i < 52 /\ id_to_card i = Some c).
Proof.
  split; [|split].
  - intros i Hi. destruct (id_roundtrip i Hi) as (Hc & s & Hs & Hf & Hk).
    exists (card_of_id i), s. rewrite (id_to_card_valid i Hi). auto.
  - intros i. split.
    + intros Hn Hi. rewrite (id_to_card_valid i Hi) in Hn. discriminate.
    + apply id_to_card_invalid.
  - apply card_to_id_inv.
Qed.

Lemma card_id_roundtrip_witness :
  exists c s, id_to_card 45 = Some c /\ card_to_id c = Some 45
              /\ Card_str c = Some s /\ from_str s = Some c
              /\ card_to_id_str s = Some 45.
Proof. apply (proj1 card_id_roundtrip 45). lia. Defined.

(** *** The remaining deck, through cards and through ids *)

Lemma card_of_id_eqb_all :
  forallb (fun i => forallb (fun j => Bool.eqb (card_eqb (card_of_id i) (card_of_id j))
                                        (i =? j)) deck_ids) deck_ids = true.
Proof. vm_compute. reflexivity. Qed.

Lemma card_of_id_eqb i j :
  0 <= i < 52 -> 0 <= j < 52 -> card_eqb (card_of_id i) (card_of_id j) = (i =? j).
Proof.
  intros Hi Hj. apply In_deck_ids in Hi, Hj.
  pose proof (proj1 (forallb_forall _ _) card_of_id_eqb_all i Hi) as H1.
  pose proof (proj1 (forallb_forall _ _) H1 j Hj) as H2.
  apply Bool.eqb_prop in H2. exact H2.
Qed.

Lemma map_opt_id_to_card ids :
  forallb valid_card_id ids = true -> map_opt id_to_card ids = Some (map card_of_id ids).
Proof.
  induction ids as [|i rest IH]; cbn [forallb map_opt map]; [reflexivity|].
  intros H. apply andb_prop in H. destruct H as [Hi Hrest].
  apply valid_card_id_spec in Hi.
  rewrite (id_to_card_valid i Hi), (IH Hrest). reflexivity.
Qed.

Lemma map_opt_id_to_card_invalid ids :
  forallb valid_card_id ids = false -> map_opt id_to_card ids = None.
Proof.
  induction ids as [|i rest IH]; cbn [forallb map_opt]; [discriminate|].
  intros H. destruct (valid_card_id i) eqn:Hi.
  - cbn [andb] in H. rewrite (IH H). destruct (id_to_card i); reflexivity.
  - rewrite id_to_card_invalid; [reflexivity|].
    intros Hr. apply valid_card_id_spec in Hr. congruence.
Qed.

Lemma dead_card_iff i ids :
  0 <= i < 52 -> forallb valid_card_id ids = true ->
  existsb (card_eqb (card_of_id i)) (map card_of_id ids) = is_member i ids.
Proof.
  intros Hi. unfold is_member.
  induction ids as [|j rest IH]; cbn [forallb map existsb]; [reflexivity|].
  intros H. apply andb_prop in H. destruct H as [Hj Hrest].
  apply valid_card_id_spec in Hj.
  rewrite (card_of_id_eqb i j Hi Hj), (IH Hrest). reflexivity.
Qed.

Lemma filter_map_comm {A B} (f : A -> B) (P : B -> bool) (l : list A) :
  List.filter P (map f l) = map f (List.filter (fun x => P (f x)) l).
Proof.
  induction l as [|x rest IH]; cbn [map List.filter]; [reflexivity|].
  destruct (P (f x)); cbn [map]; rewrite IH; reflexivity.
Qed.

Lemma map_opt_str_ids l :
  (forall i, In i l -> 0 <= i < 52) ->
  map_opt (fun c => match Card_str c with
                    | Some s => card_to_id_str s
                    | None => None
                    end) (map card_of_id l) = Some l.
Proof.
  induction l as [|i rest IH]; intros Hl; cbn [map map_opt]; [reflexivity|].
  destruct (id_roundtrip i (Hl i (or_introl eq_refl))) as (_ & s & Hs & _ & Hk).
  rewrite Hs, Hk, IH; [reflexivity|].
  intros j Hj. apply Hl. right. exact Hj.
Qed.

(** X10. The list of remaining card ids computed directly on ids (the model used
    for the belief code) is exactly what the source computes by turning the
    excluded ids into cards, filtering the deck of cards, printing each card
    and parsing it back to an id; both fail exactly when an excluded id is
    not a card id. *)
Theorem remaining_deck_ids_refines (exclude_ids : list Z) :
  remaining_deck_ids_via_cards exclude_ids
  = match _remaining_deck_ids exclude_ids with
    | Ok ids => Some ids
    | Err _ => None
    end.
Proof.
  unfold remaining_deck_ids_via_cards, _remaining_deck_ids.
  destruct (forallb valid_card_id exclude_ids) eqn:Hv.
  - rewrite (map_opt_id_to_card _ Hv). unfold make_deck.
    rewrite full_deck_cards, filter_map_comm.
    change (map Z.of_nat (seq 0 52)) with deck_ids.
    rewrite (filter_ext_in
               (fun x => negb (existsb (card_eqb (card_of_id x)) (map card_of_id exclude_ids)))
               (fun c => negb (is_member c exclude_ids))).
    + apply map_opt_str_ids. intros i Hi. apply filter_In in Hi.
      apply In_deck_ids. apply Hi.
    + intros i Hi. apply In_deck_ids in Hi. rewrite (dead_card_iff i _ Hi Hv). reflexivity.
  - rewrite (map_opt_id_to_card_invalid _ Hv). reflexivity.
Qed.

(** ** The visible board: padding and revealing *)

(** [[cid for cid in board if cid != -1]] *)
Definition board_cards (b : list Z) : list Z :=
  List.filter (fun cid => negb (cid =? -1)) b.

(** poker/ai/ismcts.py, [_replace_board_ids]: the board is replaced by the
    padded prefix, everything else is kept; [pad_board] raises ValueError
    ([None]) for more than five ids. *)
Definition _replace_board_ids (ps : PublicState) (board_ids_prefix : list Z)
    : option PublicState :=
  if (5 <? length board_ids_prefix)%nat then None
  else
    let g := gs ps in
    Some (mkPublicState
            (mkGameState (pad_board board_ids_prefix) (street g) (pot g) (hero_stack g)
               (villain_stack g) (to_act g) (action_history g) (meta g))
            (street_bet_open ps) (bet_by ps) (bet_amount ps) (raises_this_street ps)).

(** poker/ai/ismcts.py, [_reveal_board_for_street] *)
Definition _reveal_board_for_street (ps : PublicState) (full_board : list Z)
    : option PublicState :=
  let st := street (gs ps) in
  if st <=? 0 then Some ps
  else
    let target_len := if st =? Street.FLOP then 3%nat
                      else if st =? Street.TURN then 4%nat else 5%nat in
    let current := board_cards (board (gs ps)) in
    if (target_len <=? length current)%nat then Some ps
    else _replace_board_ids ps (take target_len (board_cards full_board)).

Lemma board_cards_id l : (forall c, In c l -> c <> -1) -> board_cards l = l.
Proof.
  unfold board_cards. induction l as [|c rest IH]; intros Hl; cbn [List.filter]; [reflexivity|].
  destruct (Z.eqb_spec c (-1)) as [E|_]; [exfalso; exact (Hl c (or_introl eq_refl) E)|].
  cbn [negb]. f_equal. apply IH. intros d Hd. apply Hl. right. exact Hd.
Qed.

Lemma board_cards_padding n : board_cards (List.repeat (-1) n) = [].
Proof. unfold board_cards. induction n as [|n IH]; cbn; [reflexivity|exact IH]. Qed.

Lemma board_cards_pad l : (forall c, In c l -> c <> -1) -> board_cards (pad_board l) = l.
Proof.
  intros Hl. unfold pad_board, board_cards. rewrite List.filter_app.
  fold (board_cards l). fold (board_cards (List.repeat (-1) (5 - length l))).
  rewrite board_cards_padding, app_nil_r. apply board_cards_id. exact Hl.
Qed.

Lemma pad_board_length l : (length l <= 5)%nat -> length (pad_board l) = 5%nat.
Proof. intros Hl. unfold pad_board. rewrite length_app, repeat_length. lia. Qed.

Lemma In_take {A} n (l : list A) x : In x (take n l) -> In x l.
Proof.
  revert l. induction n as [|n IH]; intros [|y l] H; cbn [take] in H; try contradiction.
  destruct H as [->|H]; [left; reflexivity|right; apply IH; exact H].
Qed.

(** X11. Revealing the board for the current street never fails and touches
    nothing but the board.  With a full board of five card ids and a street
    from FLOP to RIVER, a state showing fewer cards than the street calls
    for (3, 4, 5) comes back padded to five entries and showing exactly
    the first [street + 2] cards of the full board; a state already showing
    enough cards comes back unchanged. *)
Theorem reveal_board_for_street_spec (ps : PublicState) (full_board : list Z) :
  length full_board = 5%nat -> (forall c, In c full_board -> c <> -1) ->
  Street.FLOP <= street (gs ps) <= Street.RIVER ->
  exists ps',
    _reveal_board_for_street ps full_board = Some ps'
    /\ street (gs ps') = street (gs ps) /\ pot (gs ps') = pot (gs ps)
    /\ hero_stack (gs ps') = hero_stack (gs ps)
    /\ villain_stack (gs ps') = villain_stack (gs ps)
    /\ to_act (gs ps') = to_act (gs ps)
    /\ action_history (gs ps') = action_history (gs ps)
    /\ meta (gs ps') = meta (gs ps)
    /\ street_bet_open ps' = street_bet_open ps /\ bet_by ps' = bet_by ps
    /\ bet_amount ps' = bet_amount ps
    /\ raises_this_street ps' = raises_this_street ps
    /\ ((Z.of_nat (length (board_cards (board (gs ps)))) < street (gs ps) + 2 ->
         length (board (gs ps')) = 5%nat
         /\ board_cards (board (gs ps')) = take (Z.to_nat (street (gs ps) + 2)) full_board)
        /\ (street (gs ps) + 2 <= Z.of_nat (length (board_cards (board (gs ps)))) ->
            ps' = ps)).
Proof.
  intros Hlen Hfull Hst. unfold Street.FLOP, Street.RIVER in Hst.
  unfold _reveal_board_for_street. cbv zeta.
  destruct (Z.leb_spec (street (gs ps)) 0) as [|_]; [lia|].
  set (target := if street (gs ps) =? Street.FLOP then 3%nat
                 else if street (gs ps) =? Street.TURN then 4%nat else 5%nat).
  assert (Ht : target = Z.to_nat (street (gs ps) + 2)).
  { subst target. unfold Street.FLOP, Street.TURN.
    assert (Hc : street (gs ps) = 1 \/ street (gs ps) = 2 \/ street (gs ps) = 3) by lia.
    destruct Hc as [-> | [-> | ->]]; reflexivity. }
  destruct (Nat.leb_spec target (length (board_cards (board (gs ps))))) as [Hge|Hlt].
  - exists ps. split; [reflexivity|]. repeat (split; [reflexivity|]).
    split; [lia|reflexivity].
  - rewrite (board_cards_id full_board Hfull). unfold _replace_board_ids.
    assert (Hl : length (take target full_board) = target).
    { rewrite length_take. lia. }
    destruct (Nat.ltb_spec 5 (length (take target full_board))) as [|_]; [lia|].
    eexists. split; [reflexivity|]. cbn [gs street pot hero_stack villain_stack to_act
      action_history meta street_bet_open bet_by bet_amount raises_this_street board].
    repeat (split; [reflexivity|]).
    split; [|lia]. intros _. split.
    + apply pad_board_length. lia.
    + rewrite <- Ht. apply board_cards_pad.
      intros c Hc. apply Hfull. eapply In_take. exact Hc.
Qed.

Lemma reveal_board_for_street_spec_witness :
  exists ps',
    _reveal_board_for_street
      (mkPublicState (mkGameState [45; 22; 1; -1; -1] Street.TURN 3 99 98 Player.HERO []
                        None) false Player.HERO 0 0)
      [45; 22; 1; 30; 7] = Some ps'
    /\ board_cards (board (gs ps')) = [45; 22; 1; 30].
Proof.
  destruct (reveal_board_for_street_spec
              (mkPublicState (mkGameState [45; 22; 1; -1; -1] Street.TURN 3 99 98
                                Player.HERO [] None) false Player.HERO 0 0)
              [45; 22; 1; 30; 7]) as (ps' & H & _ & _ & _ & _ & _ & _ & _ & _ & _ & _ & _ & Hb & _).
  - reflexivity.
  - intros c Hc. cbn in Hc. intuition lia.
  - cbn. unfold Street.FLOP, Street.TURN, Street.RIVER. lia.
  - exists ps'. split; [exact H|]. apply Hb. cbn. unfold Street.TURN. lia.
Defined.

(** * Further properties of the rollout cache *)

Section LRU_counters.
Context {K : Type} `{EqDecision K}.
Implicit Types (t : @LRUTranspoTable K).

Definition is_get (o : @cache_op K) : bool :=
  match o with
  | OpGet _ => true
  | _ => false
  end.

(** Entries ever created: those still stored plus those evicted. *)
Definition created t : Z := table_len t + evictions t.

Lemma cache_step_counters t o :
  table_ok t ->
  let t' := cache_step t o in
  hits t' + misses t' = hits t + misses t + 1
  /\ hits t <= hits t' /\ misses t <= misses t' /\ evictions t <= evictions t'
  /\ created t' - misses t' <= created t - misses t
  /\ (is_get o = false -> created t' - misses t' = created t - misses t).
Proof.
  intros Hok. pose proof Hok as (Hcap & Hnd & Hlen). cbv zeta.
  destruct (od_get (op_key o) (_od t)) as [v|] eqn:Hg.
  - rewrite (cache_step_hit t o v Hg). unfold created, table_len.
    cbn [_od hits misses evictions].
    pose proof (od_get_Some_In _ _ _ Hg) as Hin.
    pose proof (length_remove_present _ _ Hnd Hin) as Hl.
    rewrite <- od_keys_remove in Hl. unfold od_keys in Hl. rewrite !length_map in Hl.
    rewrite length_app. cbn [length].
    split; [lia|]. split; [lia|]. split; [lia|]. split; [lia|]. split; [lia|intros _; lia].
  - destruct (op_get_or_not o) as [[k ->]|Hno'].
    + rewrite cache_step_get_miss by exact Hg. unfold created, table_len.
      cbn [_od hits misses evictions is_get].
      split; [lia|]. split; [lia|]. split; [lia|]. split; [lia|]. split; [lia|discriminate].
    + rewrite cache_step_create by assumption.
      unfold created, evicted_count, table_len in *. cbn [_od hits misses evictions].
      rewrite length_app, length_drop. cbn [length].
      destruct (Z.ltb_spec (Z.of_nat (length (_od t))) (capacity t));
        (split; [lia|]; split; [lia|]; split; [lia|]; split; [lia|];
         split; [lia|intros _; lia]).
Qed.

Lemma cache_run_counters ops : forall t,
  table_ok t ->
  let t' := cache_run t ops in
  hits t' + misses t' = hits t + misses t + Z.of_nat (length ops)
  /\ hits t <= hits t' /\ misses t <= misses t' /\ evictions t <= evictions t'
  /\ created t' - misses t' <= created t - misses t
  /\ (forallb (fun o => negb (is_get o)) ops = true ->
      created t' - misses t' = created t - misses t).
Proof.
  induction ops as [|o ops IH]; intros t Hok; cbv zeta; cbn [cache_run fold_left length].
  - split; [lia|]. split; [lia|]. split; [lia|]. split; [lia|]. split; [lia|intros _; lia].
  - destruct (cache_step_counters t o Hok) as (H1 & H2 & H3 & H4 & H5 & H6).
    destruct (cache_step_ok t o Hok) as [Hok1 _].
    destruct (IH _ Hok1) as (I1 & I2 & I3 & I4 & I5 & I6).
    cbv zeta in *. unfold cache_run in *.
    split; [lia|]. split; [lia|]. split; [lia|]. split; [lia|]. split; [lia|].
    cbn [forallb]. intros Hall. apply andb_prop in Hall. destruct Hall as [Ho Hall].
    apply negb_true_iff in Ho. specialize (H6 Ho). specialize (I6 Hall). lia.
Qed.

End LRU_counters.

(** X12. The instrumentation counters of a table built by the constructor and
    driven by any operations: every operation makes exactly one lookup, so
    hits + misses is the number of operations; the entries stored plus the
    entries evicted never exceed the misses, and equal the misses when no
    plain [get] was issued (every miss of [get_or_create] or [update]
    creates one entry); the capacity never changes. *)
Theorem cache_counters_spec {K : Type} `{EqDecision K} (cap : Z)
    (t0 : @LRUTranspoTable K) (ops : list (@cache_op K)) :
  LRUTranspoTable_init cap = Some t0 ->
  hits (cache_run t0 ops) + misses (cache_run t0 ops) = Z.of_nat (length ops)
  /\ 0 <= hits (cache_run t0 ops)
  /\ 0 <= misses (cache_run t0 ops)
  /\ 0 <= evictions (cache_run t0 ops)
  /\ table_len (cache_run t0 ops) + evictions (cache_run t0 ops)
     <= misses (cache_run t0 ops)
  /\ (forallb (fun o => negb (is_get o)) ops = true ->
      table_len (cache_run t0 ops) + evictions (cache_run t0 ops)
      = misses (cache_run t0 ops))
  /\ capacity (cache_run t0 ops) = cap.
Proof.
  intros Hinit. pose proof (init_table_ok _ _ Hinit) as Hok.
  destruct (cache_run_counters ops t0 Hok) as (H1 & H2 & H3 & H4 & H5 & H6).
  destruct (cache_run_ok ops t0 Hok) as [_ Hc].
  unfold LRUTranspoTable_init in Hinit. destruct (cap <=? 0); [discriminate|].
  apply (f_equal (fun o => match o with Some t => t | None => t0 end)) in Hinit.
  subst t0. cbv zeta in *. unfold created, table_len in *.
  cbn [hits misses evictions _od length capacity] in *.
  split; [lia|]. split; [lia|]. split; [lia|]. split; [lia|]. split; [lia|].
  split; [|exact Hc]. intros Hall. specialize (H6 Hall). lia.
Qed.

Lemma cache_counters_spec_witness :
  hits sample_table + misses sample_table = 3
  /\ table_len sample_table + evictions sample_table <= misses sample_table.
Proof.
  destruct (cache_counters_spec (K:=Z) 2 (mkTable 2 [] 0 0 0)
              [OpUpdate 1 3%Q; OpUpdate 2 5%Q; OpGet 1] eq_refl)
    as (H1 & _ & _ & _ & H5 & _).
  split; [exact H1|exact H5].
Defined.

(** * Further properties of the bandit statistics *)

(** ** poker/ai/infoset.py: [best_action_by_ev] *)

Inductive ev_outcome : Type :=
| EvBest (best : Z) (q : gmap Z R) (n : gmap Z Z)
| EvKeyError        (* node.wa[a] on a missing key *)
| EvValueError.     (* max() of an empty sequence *)

(** [0.0 if node.na[a] == 0 else node.wa[a] / node.na[a]] *)
Definition ev_mean (node : InfoNode) (a : Z) : option R :=
  if visits node a =? 0 then Some 0%R
  else match wa node !! a with
       | Some w => Some (w / IZR (visits node a))%R
       | None => None
       end.

(** The loop filling the dictionaries [q] and [n]. *)
Fixpoint ev_tables (node : InfoNode) (acts : list Z) (q : gmap Z R) (n : gmap Z Z)
    : option (gmap Z R * gmap Z Z) :=
  match acts with
  | [] => Some (q, n)
  | a :: rest =>
      match ev_mean node a with
      | Some m => ev_tables node rest (<[a := m]> q) (<[a := visits node a]> n)
      | None => None
      end
  end.

(** The sort key [(q.get(a, 0.0), n.get(a, 0))]. *)
Definition ev_key (q : gmap Z R) (n : gmap Z Z) (a : Z) : R * Z :=
  (match q !! a with Some x => x | None => 0%R end,
   match n !! a with Some k => k | None => 0 end).

(** Tuple comparison [k1 < k2]: first components first. *)
Definition key_lt (k1 k2 : R * Z) : Prop :=
  (fst k1 < fst k2)%R \/ (fst k1 = fst k2 /\ snd k1 < snd k2).

Definition key_ltb (k1 k2 : R * Z) : bool :=
  if Rlt_dec (fst k1) (fst k2) then true
  else if Rlt_dec (fst k2) (fst k1) then false
  else snd k1 <? snd k2.

(** [max(seq, key=...)]: the first element is the candidate, a later one
    replaces it only when its key is strictly greater. *)
Fixpoint max_by (key : Z -> R * Z) (best : Z) (rest : list Z) : Z :=
  match rest with
  | [] => best
  | a :: r => if key_ltb (key best) (key a) then max_by key a r else max_by key best r
  end.

Definition best_action_by_ev (node : InfoNode) (acts : list Z) : ev_outcome * InfoNode :=
  let node1 := ensure_actions node acts in
  match ev_tables node1 acts ∅ ∅ with
  | None => (EvKeyError, node1)
  | Some (q, n) =>
      match acts with
      | [] => (EvValueError, node1)
      | a :: rest => (EvBest (max_by (ev_key q n) a rest) q n, node1)
      end
  end.

Lemma key_ltb_spec k1 k2 : key_ltb k1 k2 = true <-> key_lt k1 k2.
Proof.
  unfold key_ltb, key_lt.
  destruct (Rlt_dec (fst k1) (fst k2)) as [Hlt|Hnlt].
  - split; auto.
  - destruct (Rlt_dec (fst k2) (fst k1)) as [Hgt|Hngt].
    + split; [discriminate|]. intros [H|[H _]]; lra.
    + rewrite Z.ltb_lt. split.
      * intros H. right. split; [lra|exact H].
      * intros [H|[_ H]]; [lra|exact H].
Qed.

Lemma key_lt_trans k1 k2 k3 : key_lt k1 k2 -> key_lt k2 k3 -> key_lt k1 k3.
Proof.
  unfold key_lt. intros [H1|[H1 H1']] [H2|[H2 H2']].
  - left. lra.
  - left. lra.
  - left. lra.
  - right. split; [congruence|lia].
Qed.

Lemma key_lt_le_trans k1 k2 k3 : key_lt k1 k2 -> ~ key_lt k3 k2 -> key_lt k1 k3.
Proof.
  unfold key_lt. intros [H1|[H1 H1']] Hn.
  - destruct (Rtotal_order (fst k1) (fst k3)) as [H|[H|H]]; [left; exact H| |].
    + exfalso. apply Hn. left. lra.
    + exfalso. apply Hn. left. lra.
  - destruct (Rtotal_order (fst k1) (fst k3)) as [H|[H|H]]; [left; exact H| |].
    + right. split; [exact H|].
      destruct (Z_lt_le_dec (snd k1) (snd k3)) as [Hz|Hz]; [exact Hz|].
      exfalso. apply Hn. right. split; [lra|lia].
    + exfalso. apply Hn. left. lra.
Qed.

Lemma key_le_lt_trans k1 k2 k3 : ~ key_lt k2 k1 -> key_lt k2 k3 -> key_lt k1 k3.
Proof.
  unfold key_lt. intros Hn [H2|[H2 H2']].
  - destruct (Rtotal_order (fst k1) (fst k2)) as [H|[H|H]].
    + left. lra.
    + left. lra.
    + exfalso. apply Hn. left. exact H.
  - destruct (Rtotal_order (fst k1) (fst k2)) as [H|[H|H]].
    + left. lra.
    + right. split; [congruence|].
      destruct (Z_lt_le_dec (snd k2) (snd k1)) as [Hz|Hz]; [|lia].
      exfalso. apply Hn. right. split; [lra|exact Hz].
    + exfalso. apply Hn. left. exact H.
Qed.

(** [max_by] returns the first element whose key is maximal. *)
Lemma max_by_spec key rest : forall best0,
  exists pre post,
    best0 :: rest = pre ++ max_by key best0 rest :: post
    /\ (forall x, In x pre -> key_lt (key x) (key (max_by key best0 rest)))
    /\ (forall x, In x post -> ~ key_lt (key (max_by key best0 rest)) (key x)).
Proof.
  induction rest as [|a r IH]; intros best0; cbn [max_by].
  - exists [], []. split; [reflexivity|]. split; intros x [].
  - destruct (key_ltb (key best0) (key a)) eqn:Hlt.
    + apply key_ltb_spec in Hlt.
      destruct (IH a) as (pre & post & Heq & Hpre & Hpost).
      exists (best0 :: pre), post. split; [cbn [app]; rewrite <- Heq; reflexivity|].
      split; [|exact Hpost].
      intros x [<-|Hx]; [|apply Hpre; exact Hx].
      destruct pre as [|y pre'].
      * cbn [app] in Heq. injection Heq as Ha _. rewrite <- Ha. exact Hlt.
      * cbn [app] in Heq. injection Heq as Ha _. subst y.
        eapply key_lt_trans; [exact Hlt|]. apply Hpre. left. reflexivity.
    + assert (Hn : ~ key_lt (key best0) (key a)).
      { intros H. apply key_ltb_spec in H. congruence. }
      destruct (IH best0) as (pre & post & Heq & Hpre & Hpost).
      destruct pre as [|y pre'].
      * cbn [app] in Heq. injection Heq as Hb Hr.
        exists [], (a :: post).
        split; [cbn [app]; f_equal; [exact Hb|f_equal; exact Hr]|].
        split; [intros x []|].
        intros x [<-|Hx]; [rewrite <- Hb; exact Hn|apply Hpost; exact Hx].
      * cbn [app] in Heq. injection Heq as Hy Hr. subst y.
        exists (best0 :: a :: pre'), post.
        split; [cbn [app]; f_equal; f_equal; exact Hr|]. split; [|exact Hpost].
        assert (Hb : key_lt (key best0) (key (max_by key best0 r))).
        { apply Hpre. left. reflexivity. }
        intros x [<-|[<-|Hx]].
        -- exact Hb.
        -- eapply key_le_lt_trans; [exact Hn|exact Hb].
        -- apply Hpre. right. exact Hx.
Qed.

Lemma ev_tables_spec node acts : forall q0 n0 q n,
  ev_tables node acts q0 n0 = Some (q, n) ->
  forall a,
    (In a acts -> ev_mean node a = q !! a /\ n !! a = Some (visits node a))
    /\ (~ In a acts -> q !! a = q0 !! a /\ n !! a = n0 !! a).
Proof.
  induction acts as [|x acts IH]; intros q0 n0 q n H a; cbn [ev_tables] in H.
  - injection H as <- <-. split; [intros []|auto].
  - destruct (ev_mean node x) as [m|] eqn:Hm; [|discriminate].
    destruct (IH _ _ _ _ H a) as [Hin Hout].
    destruct (in_dec Z.eq_dec a acts) as [Ha|Ha].
    + split; [intros _; apply Hin; exact Ha|]. intros Hn. exfalso. apply Hn. right. exact Ha.
    + destruct (Hout Ha) as [Hq Hn]. destruct (Z.eq_dec x a) as [->|Hne].
      * split; [|intros Hn'; exfalso; apply Hn'; left; reflexivity].
        intros _. rewrite Hq, Hn, !lookup_insert_eq. auto.
      * split; [intros [Hx|Hx]; [congruence|contradiction]|].
        intros _. rewrite Hq, Hn, !lookup_insert_ne by exact Hne. auto.
Qed.

Lemma ev_tables_total node acts : forall q0 n0,
  (forall a, In a acts -> visits node a <> 0 -> is_Some (wa node !! a)) ->
  exists q n, ev_tables node acts q0 n0 = Some (q, n).
Proof.
  induction acts as [|x acts IH]; intros q0 n0 Hwf; cbn [ev_tables]; [eauto|].
  assert (Hm : exists m, ev_mean node x = Some m).
  { unfold ev_mean. destruct (Z.eqb_spec (visits node x) 0) as [|Hne]; [eauto|].
    destruct (Hwf x (or_introl eq_refl) Hne) as [w ->]. eauto. }
  destruct Hm as [m ->]. apply IH. intros a Ha. apply Hwf. right. exact Ha.
Qed.

Lemma ensure_actions_wa acts a : forall node,
  is_Some (wa node !! a) -> is_Some (wa (ensure_actions node acts) !! a).
Proof.
  induction acts as [|x acts IH]; intros node Hw; cbn [ensure_actions fold_left];
    [exact Hw|].
  apply IH. destruct (na node !! x); [exact Hw|]. cbn [wa].
  destruct (decide (x = a)) as [->|Hxa].
  - rewrite lookup_insert_eq. eexists. reflexivity.
  - rewrite lookup_insert_ne by exact Hxa. exact Hw.
Qed.

(** X13. [best_action_by_ev] returns an argmax of the empirical means with ties
    broken by the visit count and then by position: the returned action
    occurs in [acts], every action before it has a strictly smaller key
    (mean, visits) and no action after it has a greater one; the two
    returned dictionaries hold, for every action of [acts], its mean (0 for
    an unvisited action) and its visit count; the node comes back with the
    missing actions added.  The call fails only for an empty [acts] or for
    a visited action without a stored return. *)
Theorem best_action_by_ev_spec (node : InfoNode) (acts : list Z) :
  snd (best_action_by_ev node acts) = ensure_actions node acts
  /\ (acts = [] -> fst (best_action_by_ev node acts) = EvValueError)
  /\ (acts <> [] ->
      (forall a, In a acts -> visits node a <> 0 -> is_Some (wa node !! a)) ->
      exists best q n,
        fst (best_action_by_ev node acts) = EvBest best q n)
  /\ (forall best q n,
        fst (best_action_by_ev node acts) = EvBest best q n ->
        (forall a, In a acts ->
           n !! a = Some (visits node a)
           /\ q !! a = ev_mean (ensure_actions node acts) a
           /\ (visits node a = 0 -> q !! a = Some 0%R))
        /\ exists pre post,
             acts = pre ++ best :: post
             /\ (forall x, In x pre -> key_lt (ev_key q n x) (ev_key q n best))
             /\ (forall x, In x post -> ~ key_lt (ev_key q n best) (ev_key q n x))).
Proof.
  unfold best_action_by_ev. cbv zeta.
  set (node1 := ensure_actions node acts).
  split; [|split; [|split]].
  - destruct (ev_tables node1 acts ∅ ∅) as [[q n]|]; [|reflexivity].
    destruct acts; reflexivity.
  - intros ->. cbn [ev_tables]. reflexivity.
  - intros Hne Hwf.
    destruct (ev_tables_total node1 acts ∅ ∅) as (q & n & Ht).
    { intros a Ha Hv. subst node1. rewrite ensure_actions_visits in Hv.
      apply ensure_actions_wa. apply Hwf; assumption. }
    rewrite Ht. destruct acts as [|a rest]; [congruence|]. cbn [fst]. eauto.
  - intros best q n H.
    destruct (ev_tables node1 acts ∅ ∅) as [[q' n']|] eqn:Ht; [|discriminate].
    destruct acts as [|a0 rest]; [discriminate|]. cbn [fst] in H.
    injection H as <- <- <-. split.
    + intros a Ha. destruct (ev_tables_spec _ _ _ _ _ _ Ht a) as [Hin _].
      destruct (Hin Ha) as [Hm Hn]. subst node1.
      rewrite ensure_actions_visits in Hn. split; [exact Hn|]. split; [auto|].
      intros Hz. rewrite <- Hm. unfold ev_mean.
      rewrite ensure_actions_visits, Hz. reflexivity.
    + apply max_by_spec.
Qed.

Lemma best_action_by_ev_spec_witness :
  exists best q n,
    fst (best_action_by_ev (mkInfoNode 0 ∅ ∅) [Act.CHECK; Act.BET]) = EvBest best q n.
Proof.
  apply (proj1 (proj2 (proj2 (best_action_by_ev_spec (mkInfoNode 0 ∅ ∅)
                                 [Act.CHECK; Act.BET])))).
  - discriminate.
  - intros a _ Hv. exfalso. apply Hv. unfold visits. cbn [na].
    rewrite lookup_empty. reflexivity.
Defined.

(** ** Bookkeeping of the visit counts *)

Definition total_visits (node : InfoNode) (acts : list Z) : Z :=
  fold_right Z.add 0 (map (visits node) acts).

(** The actions selected in a run of rounds (errors dropped). *)
Definition selections (rs : list (result Z)) : list Z :=
  flat_map (fun r => match r with Ok a => [a] | Err _ => [] end) rs.

Lemma ucb_loop_In node c logN acts : forall best_a best_s a,
  ucb_loop node c logN acts best_a best_s = Ok (Some a) ->
  In a acts \/ best_a = Some a.
Proof.
  induction acts as [|x acts IH]; intros best_a best_s a H; cbn [ucb_loop] in H.
  - right. apply Ok_inj in H. exact H.
  - destruct (wa node !! x); [|discriminate].
    destruct (Rlt_dec _ _); [discriminate|].
    destruct (Rgt_dec _ _).
    + apply IH in H. destruct H as [H|H]; [left; right; exact H|].
      left. left. congruence.
    + apply IH in H. destruct H as [H|H]; [left; right; exact H|right; exact H].
Qed.

Lemma ucb_select_action_In node acts c a node1 :
  ucb_select_action node acts c = (Ok a, node1) ->
  In a acts /\ node1 = ensure_actions node acts.
Proof.
  unfold ucb_select_action. cbv zeta. intros H.
  destruct (List.find _ acts) as [b|] eqn:Hf.
  - injection H as -> <-. apply List.find_some in Hf. split; [apply Hf|reflexivity].
  - destruct (Rle_dec _ _); [discriminate|].
    destruct (ucb_loop _ _ _ _ _ _) as [[b|]|e] eqn:Hl; try discriminate.
    injection H as -> <-. apply ucb_loop_In in Hl.
    destruct Hl as [Hl|Hl]; [|discriminate]. split; [exact Hl|reflexivity].
Qed.

Lemma ucb_select_action_node node acts c :
  snd (ucb_select_action node acts c) = ensure_actions node acts.
Proof.
  unfold ucb_select_action. cbv zeta.
  destruct (List.find _ acts); [reflexivity|].
  destruct (Rle_dec _ _); [reflexivity|].
  destruct (ucb_loop _ _ _ _ _ _) as [[b|]|e]; reflexivity.
Qed.

Lemma total_visits_update node acts a v :
  List.NoDup acts -> In a acts ->
  total_visits (node_update node a v) acts = total_visits node acts + 1.
Proof.
  unfold total_visits. induction 1 as [|x acts Hx Hnd IH]; cbn [In map fold_right];
    [intros []|].
  rewrite visits_update. intros [->|Hin].
  - destruct (decide (a = a)); [|congruence].
    assert (Hrest : map (visits (node_update node a v)) acts = map (visits node) acts).
    { apply map_ext_in. intros b Hb. rewrite visits_update.
      destruct (decide (a = b)) as [->|_]; [contradiction|reflexivity]. }
    rewrite Hrest. lia.
  - destruct (decide (a = x)) as [->|_]; [contradiction|].
    rewrite IH by exact Hin. lia.
Qed.

Lemma total_visits_ensure node acts acts' :
  total_visits (ensure_actions node acts') acts = total_visits node acts.
Proof.
  unfold total_visits. f_equal. apply map_ext. intros a. apply ensure_actions_visits.
Qed.

(** X14. Selection rounds keep the books: every action selected is one of
    [acts]; the node's visit count N(I) grows by one per selection, and so
    does the sum of the per-action counts N(I,a) over the (distinct)
    actions, so the difference between the two never changes; a freshly
    created node therefore always has N(I) equal to that sum. *)
Theorem select_rounds_bookkeeping (acts : list Z) (c : R) : forall (vs : list R)
    (node : InfoNode),
  List.NoDup acts ->
  (forall a, In a (selections (fst (select_rounds node acts c vs))) -> In a acts)
  /\ node_n (snd (select_rounds node acts c vs))
     = node_n node + Z.of_nat (length (selections (fst (select_rounds node acts c vs))))
  /\ total_visits (snd (select_rounds node acts c vs)) acts
     = total_visits node acts
       + Z.of_nat (length (selections (fst (select_rounds node acts c vs))))
  /\ (length (selections (fst (select_rounds node acts c vs))) <= length vs)%nat.
Proof.
  induction vs as [|v vs IH]; intros node Hnd; cbn [select_rounds].
  - cbn. split; [intros a []|]. split; [lia|]. split; lia.
  - destruct (ucb_select_action node acts c) as [[a|e] node1] eqn:Hsel.
    + apply ucb_select_action_In in Hsel. destruct Hsel as [Hin ->].
      specialize (IH (node_update (ensure_actions node acts) a v) Hnd).
      destruct (select_rounds (node_update (ensure_actions node acts) a v) acts c vs)
        as [rs node'] eqn:Hrec.
      cbn [fst snd] in *. destruct IH as (I1 & I2 & I3 & I4).
      rewrite total_visits_update, total_visits_ensure in I3 by assumption.
      cbn [node_update node_n] in I2. rewrite ensure_actions_n in I2.
      unfold selections in *. cbn [flat_map app length In].
      split; [intros b [<-|Hb]; [exact Hin|apply I1; exact Hb]|].
      split; [lia|]. split; lia.
    + pose proof (ucb_select_action_node node acts c) as Hn. rewrite Hsel in Hn.
      cbn [fst snd] in *. subst node1. cbn.
      rewrite ensure_actions_n, total_visits_ensure.
      split; [intros a []|]. split; [lia|]. split; lia.
Qed.

Lemma select_rounds_bookkeeping_witness :
  node_n (snd (select_rounds InfoNode_new [Act.CHECK; Act.BET] 1%R [1%R; 2%R; 3%R]))
  = total_visits (snd (select_rounds InfoNode_new [Act.CHECK; Act.BET] 1%R [1%R; 2%R; 3%R]))
      [Act.CHECK; Act.BET].
Proof.
  destruct (select_rounds_bookkeeping [Act.CHECK; Act.BET] 1%R [1%R; 2%R; 3%R] InfoNode_new)
    as (_ & H2 & H3 & _).
  - constructor; [cbn; intros [H|[]]; discriminate H|].
    constructor; [intros []|constructor].
  - rewrite H2, H3. reflexivity.
Defined.

(** * Further properties of the belief code *)

(** ** The uniform range *)

Lemma seq_sorted s n : StronglySorted Z.lt (map Z.of_nat (seq s n)).
Proof.
  revert s. induction n as [|n IH]; intros s; cbn [seq map]; constructor.
  - apply IH.
  - apply Forall_forall. intros x Hx. apply list_elem_of_In in Hx.
    apply in_map_iff in Hx. destruct Hx as (k & <- & Hk). apply in_seq in Hk. lia.
Qed.

Lemma filter_sorted (P : Z -> bool) l :
  StronglySorted Z.lt l -> StronglySorted Z.lt (List.filter P l).
Proof.
  induction 1 as [|x l Hs IH Hx]; cbn [List.filter]; [constructor|].
  destruct (P x); [|exact IH]. constructor; [exact IH|].
  apply Forall_forall. intros y Hy. apply list_elem_of_In in Hy.
  apply List.filter_In in Hy. destruct Hy as [Hy _].
  rewrite Forall_forall in Hx. apply Hx. apply list_elem_of_In. exact Hy.
Qed.

Lemma all_pairs_sorted deck a b :
  StronglySorted Z.lt deck ->
  In (a, b) (all_pairs deck) <-> In a deck /\ In b deck /\ a < b.
Proof.
  induction 1 as [|c rest Hs IH Hc]; cbn [all_pairs In]; [tauto|].
  rewrite Forall_forall in Hc.
  assert (Hlt : forall y, In y rest -> c < y).
  { intros y Hy. apply Hc. apply list_elem_of_In. exact Hy. }
  rewrite in_app_iff, in_map_iff, IH. split.
  - intros [(d & Heq & Hd)|(Ha & Hb & Hab)].
    + injection Heq as <- <-. split; [left; reflexivity|]. split; [right; exact Hd|].
      apply Hlt. exact Hd.
    + auto.
  - intros ([<-|Ha] & [<-|Hb] & Hab).
    + lia.
    + left. exists b. auto.
    + specialize (Hlt a Ha). lia.
    + right. auto.
Qed.

Lemma all_pairs_length deck :
  2 * Z.of_nat (length (all_pairs deck))
  = Z.of_nat (length deck) * (Z.of_nat (length deck) - 1).
Proof.
  induction deck as [|c rest IH]; cbn [all_pairs length]; [reflexivity|].
  rewrite length_app, length_map, Nat2Z.inj_add, Nat2Z.inj_succ.
  unfold Hand in *.
  set (n := Z.of_nat (length rest)) in *.
  set (m := Z.of_nat (length (all_pairs rest))) in *. nia.
Qed.

Lemma remaining_deck_In exclude deck c :
  _remaining_deck_ids exclude = Ok deck ->
  In c deck <-> 0 <= c < 52 /\ ~ In c exclude.
Proof.
  unfold _remaining_deck_ids. destruct (forallb _ _); [|discriminate].
  intros Heq. apply Ok_inj in Heq. rewrite <- Heq.
  rewrite List.filter_In. fold deck_ids. rewrite In_deck_ids.
  rewrite negb_true_iff. split.
  - intros [Hc Hm]. split; [exact Hc|]. intros Hin. apply is_member_In in Hin. congruence.
  - intros [Hc Hn]. split; [exact Hc|].
    destruct (is_member c exclude) eqn:Hm; [|reflexivity].
    apply is_member_In in Hm. contradiction.
Qed.

Lemma remaining_deck_sorted exclude deck :
  _remaining_deck_ids exclude = Ok deck -> StronglySorted Z.lt deck.
Proof.
  unfold _remaining_deck_ids. destruct (forallb _ _); [|discriminate].
  intros Heq. apply Ok_inj in Heq. rewrite <- Heq.
  apply filter_sorted. apply seq_sorted.
Qed.

Lemma filter_split_length {A} (P : A -> bool) (l : list A) :
  (length (List.filter P l) + length (List.filter (fun x => negb (P x)) l))%nat = length l.
Proof.
  induction l as [|x l IH]; cbn [List.filter length]; [reflexivity|].
  destruct (P x); cbn [negb length]; lia.
Qed.

Lemma remaining_deck_length exclude deck :
  _remaining_deck_ids exclude = Ok deck -> List.NoDup exclude ->
  (length deck + length exclude = 52)%nat.
Proof.
  unfold _remaining_deck_ids. destruct (forallb _ _) eqn:Hv; [|discriminate].
  intros Heq Hnd. apply Ok_inj in Heq. rewrite <- Heq. fold deck_ids.
  pose proof (filter_split_length (fun c => is_member c exclude) deck_ids) as Hsplit.
  assert (Hperm : Permutation (List.filter (fun c => is_member c exclude) deck_ids) exclude).
  { apply Permutation.NoDup_Permutation.
    - apply List.NoDup_filter. unfold deck_ids.
      apply NoDup_map_NoDup_ForallPairs; [|apply seq_NoDup].
      intros x y _ _ Hxy. apply Nat2Z.inj. exact Hxy.
    - exact Hnd.
    - intros c. rewrite List.filter_In, In_deck_ids, is_member_In. split; [tauto|].
      intros Hin. split; [|exact Hin].
      rewrite forallb_forall in Hv. apply valid_card_id_spec. apply Hv. exact Hin. }
  apply Permutation_length in Hperm.
  assert (Hd : length deck_ids = 52%nat) by reflexivity.
  lia.
Qed.

(** X15. The uniform range holds exactly the two-card combinations of unseen
    cards: a hand (a, b) is in it, with weight 1, if and only if a < b are
    card ids that are neither hero's hole cards nor on the board.  Each
    hand occurs once.  When the known cards are distinct there are
    (52 - k)(51 - k)/2 hands for k known cards (1081 on the flop). *)
Theorem build_uniform_range_spec (g : GameState) (my_hand : Hand) (r0 : Range) :
  build_uniform_range g my_hand = Ok r0 ->
  let known := [fst my_hand; snd my_hand] ++ board_cards (board g) in
  (forall a b w,
      In ((a, b), w) r0
      <-> w = 1%Q /\ 0 <= a /\ a < b /\ b < 52 /\ ~ In a known /\ ~ In b known)
  /\ List.NoDup (map fst r0)
  /\ (List.NoDup known ->
      2 * Z.of_nat (length r0)
      = (52 - Z.of_nat (length known)) * (51 - Z.of_nat (length known))).
Proof.
  unfold build_uniform_range. cbv zeta. intros Hb.
  apply bind_Ok_inv in Hb. destruct Hb as (deck & Hdeck & Hr).
  apply Ok_inj in Hr. fold (board_cards (board g)) in Hdeck.
  pose proof (remaining_deck_sorted _ _ Hdeck) as Hsorted.
  split; [|split].
  - intros a b w. rewrite <- Hr, in_map_iff. split.
    + intros ([a' b'] & Heq & Hin). injection Heq as -> -> <-.
      apply (all_pairs_sorted deck a b Hsorted) in Hin. destruct Hin as (Ha & Hb' & Hab).
      apply (remaining_deck_In _ _ _ Hdeck) in Ha, Hb'.
      split; [reflexivity|]. tauto.
    + intros (-> & Ha0 & Hab & Hb52 & Ha & Hb').
      exists (a, b). split; [reflexivity|].
      apply (all_pairs_sorted deck a b Hsorted).
      split; [|split; [|exact Hab]]; apply (remaining_deck_In _ _ _ Hdeck);
        (split; [lia|assumption]).
  - rewrite <- Hr, map_map. cbn [fst]. rewrite map_id.
    apply all_pairs_NoDup. eapply remaining_deck_NoDup. exact Hdeck.
  - intros Hnd. pose proof (remaining_deck_length _ _ Hdeck Hnd) as Hlen.
    rewrite <- Hr, length_map. rewrite all_pairs_length.
    replace (Z.of_nat (length deck))
      with (52 - Z.of_nat (length ([fst my_hand; snd my_hand] ++ board_cards (board g))))
      by lia.
    lia.
Qed.

Lemma build_uniform_range_spec_witness :
  exists r0,
    build_uniform_range (gs sample_start) (49, 41) = Ok r0
    /\ 2 * Z.of_nat (length r0) = 47 * 46
    /\ In ((0, 2), 1%Q) r0.
Proof.
  destruct (build_uniform_range (gs sample_start) (49, 41)) as [r0|e] eqn:Hb.
  - destruct (build_uniform_range_spec (gs sample_start) (49, 41) r0 Hb) as (Hin & _ & Hlen).
    exists r0. split; [reflexivity|]. split.
    + rewrite Hlen; [reflexivity|].
      repeat (constructor; [cbn; intuition lia|]). constructor.
    + apply Hin. split; [reflexivity|]. cbn. intuition lia.
  - apply (f_equal (fun x => match x with Ok _ => true | Err _ => false end)) in Hb.
    vm_compute in Hb. discriminate.
Defined.

(** ** Sampling a hand from a weighted range *)

Inductive sample_error : Type :=
| EmptyRange      (* ValueError("Empty range") *)
| ZeroWeights.    (* ValueError("Range weights sum to 0") *)

(** The loop [acc += w; if acc >= x: return h]. *)
Fixpoint pick_weighted (r : Range) (acc x : Q) : option Hand :=
  match r with
  | [] => None
  | (h, w) :: rest =>
      let acc' := (acc + w)%Q in
      if Qle_bool x acc' then Some h else pick_weighted rest acc' x
  end.

(** [sample_opponent_hand_weighted(r, rng)], where [u] is the value drawn
    by [rng.random()]; weights and sums are exact rationals. *)
Definition sample_opponent_hand_weighted (r : Range) (u : Q) : sample_error + Hand :=
  match r with
  | [] => inl EmptyRange
  | (h0, _) :: _ =>
      let total := range_sum r in
      if Qle_bool total 0 then inl ZeroWeights
      else match pick_weighted r 0 (u * total) with
           | Some h => inr h
           | None => inr h0
           end
  end.

Lemma pick_weighted_spec r : forall acc x,
  Forall (fun e => (0 <= snd e)%Q) r ->
  (acc < x)%Q -> (x <= acc + range_sum r)%Q ->
  exists pre h w post,
    r = pre ++ (h, w) :: post
    /\ pick_weighted r acc x = Some h
    /\ (acc + range_sum pre < x)%Q
    /\ (x <= acc + range_sum pre + w)%Q.
Proof.
  induction r as [|[h w] rest IH]; intros acc x Hpos Hlo Hhi; cbn [pick_weighted range_sum] in *.
  - exfalso. Lqa.lra.
  - apply Forall_cons in Hpos. destruct Hpos as [Hw Hpos]. cbn [snd] in Hw.
    destruct (Qle_bool x (acc + w)) eqn:Hle.
    + apply Qle_bool_iff in Hle. exists [], h, w, rest.
      split; [reflexivity|]. split; [reflexivity|]. cbn [range_sum]. split; Lqa.lra.
    + assert (Hgt : (acc + w < x)%Q).
      { apply Qnot_le_lt. intros Hc. apply Qle_bool_iff in Hc. congruence. }
      destruct (IH (acc + w)%Q x Hpos Hgt) as (pre & h' & w' & post & Heq & Hp & H1 & H2).
      { Lqa.lra. }
      exists ((h, w) :: pre), h', w', post.
      split; [cbn [app]; rewrite Heq; reflexivity|]. split; [exact Hp|].
      cbn [range_sum]. split; Lqa.lra.
Qed.

(** X16. Sampling by inverse cumulative weights.  An empty range and a range of
    total weight at most 0 are refused.  Otherwise, for non-negative
    weights and a draw 0 < u <= 1, the hand returned is the first one at
    which the running sum of weights reaches u * total: it belongs to the
    range, its weight is positive, and the draws that select it form an
    interval of length weight / total -- so hands are drawn in proportion
    to their weights, and the fallback after the loop is never used. *)
Theorem sample_opponent_hand_weighted_spec (r : Range) (u : Q) :
  (r = [] -> sample_opponent_hand_weighted r u = inl EmptyRange)
  /\ (r <> [] -> (range_sum r <= 0)%Q ->
      sample_opponent_hand_weighted r u = inl ZeroWeights)
  /\ (Forall (fun e => (0 <= snd e)%Q) r -> (0 < range_sum r)%Q ->
      (0 < u)%Q -> (u <= 1)%Q ->
      exists pre h w post,
        r = pre ++ (h, w) :: post
        /\ sample_opponent_hand_weighted r u = inr h
        /\ (range_sum pre < u * range_sum r)%Q
        /\ (u * range_sum r <= range_sum pre + w)%Q
        /\ (0 < w)%Q).
Proof.
  split; [|split].
  - intros ->. reflexivity.
  - intros Hne Hle. destruct r as [|[h0 w0] rest]; [congruence|].
    unfold sample_opponent_hand_weighted. cbv zeta.
    apply Qle_bool_iff in Hle. rewrite Hle. reflexivity.
  - intros Hpos Htot Hu0 Hu1.
    assert (Hx0 : (0 < u * range_sum r)%Q).
    { apply Qmult_lt_0_compat; assumption. }
    assert (Hx1 : (u * range_sum r <= 0 + range_sum r)%Q).
    { rewrite Qplus_0_l. rewrite <- (Qmult_1_l (range_sum r)) at 2.
      apply Qmult_le_compat_r; [exact Hu1|]. apply Qlt_le_weak. exact Htot. }
    destruct (pick_weighted_spec r 0 (u * range_sum r) Hpos Hx0 Hx1)
      as (pre & h & w & post & Heq & Hp & H1 & H2).
    exists pre, h, w, post. split; [exact Heq|].
    split; [|split; [Lqa.lra|split; Lqa.lra]].
    destruct r as [|[h0 w0] rest]; [destruct pre; discriminate|].
    unfold sample_opponent_hand_weighted. cbv zeta.
    destruct (Qle_bool (range_sum ((h0, w0) :: rest)) 0) eqn:Hle.
    + apply Qle_bool_iff in Hle. exfalso. Lqa.lra.
    + rewrite Hp. reflexivity.
Qed.

Definition sample_range : Range := [((0, 1), (1 # 4)%Q); ((0, 2), (3 # 4)%Q)].

Lemma sample_opponent_hand_weighted_spec_witness :
  exists pre h w post,
    sample_range = pre ++ (h, w) :: post
    /\ sample_opponent_hand_weighted sample_range (1 # 2)%Q = inr h
    /\ (0 < w)%Q.
Proof.
  destruct (proj2 (proj2 (sample_opponent_hand_weighted_spec sample_range (1 # 2)%Q)))
    as (pre & h & w & post & H1 & H2 & _ & _ & H5).
  - repeat constructor; cbn; discriminate.
  - reflexivity.
  - reflexivity.
  - discriminate.
  - exists pre, h, w, post. split; [exact H1|]. split; [exact H2|exact H5].
Defined.

(** ** Strength summaries of a feature mask *)

(** poker/ai/belief.py, [hand_tier_from_score] *)
Definition hand_tier_from_score (s : Z) : Z :=
  if 500 <=? s then 4
  else if 350 <=? s then 3
  else if 180 <=? s then 2
  else if 70 <=? s then 1
  else 0.

(** poker/helpers/abstraction.py, [private_strength_bucket(mask)] *)
Definition private_strength_bucket (mask : Z) : Z :=
  if _has mask "made_trips_or_better" then 6
  else if _has mask "made_two_pair_or_better" then 5
  else if _has mask "top_pair" || _has mask "overpair" then 4
  else if _has mask "middle_pair" || _has mask "bottom_pair" || _has mask "underpair"
  then 3
  else if _has mask "combo_draw" then 2
  else if _has mask "has_flush_draw" || _has mask "has_straight_draw" then 1
  else 0.

(** poker/ai/ismcts.py, [_is_air] *)
Definition _is_air (mask : Z) : bool :=
  let pairish_or_better :=
    _has mask "made_trips_or_better" || _has mask "made_two_pair_or_better"
    || _has mask "top_pair" || _has mask "middle_pair" || _has mask "bottom_pair"
    || _has mask "overpair" || _has mask "underpair" in
  let drawish :=
    _has mask "combo_draw" || _has mask "has_flush_draw" || _has mask "has_straight_draw"
    || _has mask "is_oesd" || _has mask "is_gutshot" in
  let overcards := _has mask "two_overcards" || _has mask "one_overcard" in
  negb (pairish_or_better || drawish || overcards).

Lemma hand_tier_spec s :
  0 <= hand_tier_from_score s <= 4
  /\ (500 <= s -> hand_tier_from_score s = 4)
  /\ (350 <= s -> 3 <= hand_tier_from_score s)
  /\ (180 <= s -> 2 <= hand_tier_from_score s)
  /\ (70 <= s -> 1 <= hand_tier_from_score s)
  /\ (s < 70 -> hand_tier_from_score s = 0).
Proof.
  unfold hand_tier_from_score.
  destruct (Z.leb_spec 500 s); [repeat split; intros; lia|].
  destruct (Z.leb_spec 350 s); [repeat split; intros; lia|].
  destruct (Z.leb_spec 180 s); [repeat split; intros; lia|].
  destruct (Z.leb_spec 70 s); repeat split; intros; lia.
Qed.

Lemma hand_tier_mono s1 s2 :
  s1 <= s2 -> hand_tier_from_score s1 <= hand_tier_from_score s2.
Proof.
  intros Hle. unfold hand_tier_from_score.
  destruct (Z.leb_spec 500 s1), (Z.leb_spec 500 s2),
    (Z.leb_spec 350 s1), (Z.leb_spec 350 s2),
    (Z.leb_spec 180 s1), (Z.leb_spec 180 s2),
    (Z.leb_spec 70 s1), (Z.leb_spec 70 s2); lia.
Qed.

(** Replaces each [if b then k else 0] with a bounded unknown. *)
Ltac bound_flags :=
  repeat match goal with
         | |- context [if ?b then ?k else 0] =>
             is_var b;
             let H := fresh "Hb" in
             assert (H : 0 <= (if b then k else 0) <= k) by (destruct b; lia);
             revert H; generalize (if b then k else 0); intros ? ?
         end.

(** X17. The score, the tier, the private bucket and the air test are computed
    from the same feature mask by different modules; they agree at the
    ends.  The score lies in 0..1940, the tier in 0..4, the bucket in 0..6
    and the tier is monotone in the score.  A mask that is "air" scores 0,
    has bucket 0 and tier 0.  Bucket 6 (trips or better) forces a score of
    at least 500 and tier 4; bucket 5 a score of at least 350 and tier 3 or
    4; bucket 4 a score of at least 200 and a tier of at least 2; bucket 0
    a score of at most 60 and tier 0. *)
Theorem strength_summaries_agree (compute_feature_mask : Hand -> list Z -> Z)
    (g : GameState) (hand : Hand) :
  let mask := compute_feature_mask hand (board g) in
  let s := bucket_score compute_feature_mask g hand in
  0 <= s <= 1940
  /\ 0 <= private_strength_bucket mask <= 6
  /\ 0 <= hand_tier_from_score s <= 4
  /\ (forall s', s <= s' -> hand_tier_from_score s <= hand_tier_from_score s')
  /\ (_is_air mask = true ->
      s = 0 /\ private_strength_bucket mask = 0 /\ hand_tier_from_score s = 0)
  /\ (private_strength_bucket mask = 6 -> 500 <= s /\ hand_tier_from_score s = 4)
  /\ (private_strength_bucket mask = 5 -> 350 <= s /\ 3 <= hand_tier_from_score s)
  /\ (private_strength_bucket mask = 4 -> 200 <= s /\ 2 <= hand_tier_from_score s)
  /\ (private_strength_bucket mask = 0 -> s <= 60 /\ hand_tier_from_score s = 0).
Proof.
  cbv zeta. unfold bucket_score. cbv zeta.
  set (mask := compute_feature_mask hand (board g)).
  set (s := _ + _).
  pose proof (hand_tier_spec s) as (Ht0 & Ht4 & Ht3 & Ht2 & Ht1 & Htz).
  split; [|split; [|split; [exact Ht0|split; [intros s'; apply hand_tier_mono|]]]].
  - subst s.
    generalize (_has mask "made_trips_or_better") (_has mask "made_two_pair_or_better")
      (_has mask "overpair") (_has mask "top_pair") (_has mask "middle_pair")
      (_has mask "bottom_pair") (_has mask "underpair") (_has mask "combo_draw")
      (_has mask "has_flush_draw") (_has mask "has_straight_draw")
      (_has mask "two_overcards") (_has mask "one_overcard").
    intros b1 b2 b3 b4 b5 b6 b7 b8 b9 b10 b11 b12. bound_flags. lia.
  - unfold private_strength_bucket.
    repeat match goal with
           | |- context [if ?c then _ else _] => destruct c
           end; lia.
  - assert (Hcases :
      (_is_air mask = true -> s = 0 /\ private_strength_bucket mask = 0)
      /\ (private_strength_bucket mask = 6 -> 500 <= s)
      /\ (private_strength_bucket mask = 5 -> 350 <= s)
      /\ (private_strength_bucket mask = 4 -> 200 <= s)
      /\ (private_strength_bucket mask = 0 -> s <= 60)).
    { subst s. unfold _is_air, private_strength_bucket. cbv zeta.
      generalize (_has mask "made_trips_or_better") (_has mask "made_two_pair_or_better")
        (_has mask "overpair") (_has mask "top_pair") (_has mask "middle_pair")
        (_has mask "bottom_pair") (_has mask "underpair") (_has mask "combo_draw")
        (_has mask "has_flush_draw") (_has mask "has_straight_draw")
        (_has mask "two_overcards") (_has mask "one_overcard")
        (_has mask "is_oesd") (_has mask "is_gutshot").
      intros b1 b2 b3 b4 b5 b6 b7 b8 b9 b10 b11 b12 b13 b14.
      split; [|split; [|split; [|split]]].
      - intros Hair. apply negb_true_iff in Hair.
        repeat match goal with
               | H : (_ || _) = false |- _ => apply orb_false_iff in H; destruct H
               end.
        subst. split; reflexivity.
      - destruct b1; [intros _; bound_flags; lia|].
        destruct b2; [discriminate|]. destruct (b4 || b3); [discriminate|].
        destruct (b5 || b6 || b7); [discriminate|]. destruct b8; [discriminate|].
        destruct (b9 || b10); discriminate.
      - destruct b1; [discriminate|].
        destruct b2; [intros _; bound_flags; lia|].
        destruct (b4 || b3); [discriminate|].
        destruct (b5 || b6 || b7); [discriminate|]. destruct b8; [discriminate|].
        destruct (b9 || b10); discriminate.
      - destruct b1; [discriminate|]. destruct b2; [discriminate|].
        destruct b4; [intros _; bound_flags; lia|].
        destruct b3; [intros _; bound_flags; lia|]. cbn [orb].
        destruct (b5 || b6 || b7); [discriminate|]. destruct b8; [discriminate|].
        destruct (b9 || b10); discriminate.
      - destruct b1; [discriminate|]. destruct b2; [discriminate|].
        destruct b4; [discriminate|]. destruct b3; [discriminate|]. cbn [orb].
        destruct b5; [discriminate|]. destruct b6; [discriminate|].
        destruct b7; [discriminate|]. cbn [orb]. destruct b8; [discriminate|].
        destruct b9; [discriminate|]. destruct b10; [discriminate|]. cbn [orb].
        intros _. bound_flags. lia. }
    destruct Hcases as (Hair & H6 & H5 & H4 & H0).
    split; [intros Ha; destruct (Hair Ha) as [Hs0 Hp0]; repeat split; try assumption;
            apply Htz; lia|].
    split; [intros Hp; specialize (H6 Hp); split; [lia|apply Ht4; lia]|].
    split; [intros Hp; specialize (H5 Hp); split; [lia|apply Ht3; lia]|].
    split; [intros Hp; specialize (H4 Hp); split; [lia|apply Ht2; lia]|].
    intros Hp. specialize (H0 Hp). split; [lia|apply Htz; lia].
Qed.

Lemma strength_summaries_agree_witness :
  500 <= bucket_score (fun _ _ => 2 ^ 24) (gs sample_start) (49, 41)
  /\ hand_tier_from_score (bucket_score (fun _ _ => 2 ^ 24) (gs sample_start) (49, 41)) = 4.
Proof.
  apply (proj1 (proj2 (proj2 (proj2 (proj2 (proj2
           (strength_summaries_agree (fun _ _ => 2 ^ 24) (gs sample_start) (49, 41)))))))).
  reflexivity.
Defined.

(** ** Uniform sampling of hidden cards *)

Section Sampling.
(** [rng.shuffle] rearranges the list it is given; which rearrangement
    depends on the state of the generator. *)
Variable shuffle : list Z -> list Z.
Hypothesis shuffle_perm : forall l, Permutation l (shuffle l).

(** [sample_opponent_hand_uniform]: the last two cards of the shuffled
    deck, [(deck_ids.pop(), deck_ids.pop())]; [None] stands for an
    exception (card id out of range, pop from an empty list). *)
Definition sample_opponent_hand_uniform (g : GameState) (my_hand_ids : Hand)
    : option Hand :=
  let known := [fst my_hand_ids; snd my_hand_ids] ++ board_cards (board g) in
  match _remaining_deck_ids known with
  | Err _ => None
  | Ok deck =>
      match rev (shuffle deck) with
      | a :: b :: _ => Some (a, b)
      | _ => None
      end
  end.

(** [sample_runout_uniform]: the visible board completed to five cards by
    popping from the shuffled deck. *)
Definition sample_runout_uniform (g : GameState) (my_hand_ids opp_hand_ids : Hand)
    : option (list Z) :=
  let known := [fst my_hand_ids; snd my_hand_ids; fst opp_hand_ids; snd opp_hand_ids]
               ++ board_cards (board g) in
  match _remaining_deck_ids known with
  | Err _ => None
  | Ok deck =>
      let board_ids := board_cards (board g) in
      let need := (5 - length board_ids)%nat in
      let popped := rev (shuffle deck) in
      if (length popped <? need)%nat then None
      else Some (take 5 (board_ids ++ take need popped))
  end.

Lemma shuffled_In deck c : In c (rev (shuffle deck)) <-> In c deck.
Proof.
  rewrite <- in_rev. split; intros H.
  - eapply Permutation_in; [apply Permutation_sym; apply shuffle_perm|exact H].
  - eapply Permutation_in; [apply shuffle_perm|exact H].
Qed.

Lemma shuffled_NoDup deck : List.NoDup deck -> List.NoDup (rev (shuffle deck)).
Proof.
  intros Hnd. apply List.NoDup_rev.
  eapply Permutation_NoDup; [apply shuffle_perm|exact Hnd].
Qed.

Lemma shuffled_length deck : length (rev (shuffle deck)) = length deck.
Proof.
  rewrite length_rev. symmetry. apply Permutation_length. apply shuffle_perm.
Qed.

Lemma remaining_deck_large exclude deck :
  _remaining_deck_ids exclude = Ok deck -> (52 <= length deck + length exclude)%nat.
Proof.
  unfold _remaining_deck_ids. destruct (forallb _ _) eqn:Hv; [|discriminate].
  intros Heq. apply Ok_inj in Heq. rewrite <- Heq. fold deck_ids.
  pose proof (filter_split_length (fun c => is_member c exclude) deck_ids) as Hsplit.
  assert (Hle : (length (List.filter (fun c => is_member c exclude) deck_ids)
                 <= length exclude)%nat).
  { apply List.NoDup_incl_length.
    - apply List.NoDup_filter. unfold deck_ids.
      apply NoDup_map_NoDup_ForallPairs; [|apply seq_NoDup].
      intros x y _ _ Hxy. apply Nat2Z.inj. exact Hxy.
    - intros c Hc. apply List.filter_In in Hc. apply is_member_In. apply Hc. }
  assert (Hd : length deck_ids = 52%nat) by reflexivity.
  lia.
Qed.

Lemma remaining_deck_Ok exclude :
  (forall c, In c exclude -> 0 <= c < 52) -> exists deck, _remaining_deck_ids exclude = Ok deck.
Proof.
  intros Hv. unfold _remaining_deck_ids.
  replace (forallb valid_card_id exclude) with true; [eauto|].
  symmetry. apply forallb_forall. intros c Hc. apply valid_card_id_spec. apply Hv. exact Hc.
Qed.

(** X18. Sampled cards never collide with known cards.  The sampled opponent
    hand consists of two different card ids, neither of them one of hero's
    hole cards or a board card.  The sampled runout has five cards, starts
    with the visible board, and the cards added are card ids that are
    pairwise different and differ from both players' hole cards and from
    the board.  Both samplers succeed whenever the known ids are card ids
    and the board shows at most five cards. *)
Theorem uniform_samplers_spec (g : GameState) (my_hand opp_hand : Hand) :
  (forall a b,
      sample_opponent_hand_uniform g my_hand = Some (a, b) ->
      a <> b /\ 0 <= a < 52 /\ 0 <= b < 52
      /\ ~ In a ([fst my_hand; snd my_hand] ++ board_cards (board g))
      /\ ~ In b ([fst my_hand; snd my_hand] ++ board_cards (board g)))
  /\ (forall out,
        sample_runout_uniform g my_hand opp_hand = Some out ->
        (length (board_cards (board g)) <= 5)%nat ->
        length out = 5%nat
        /\ exists added,
             out = board_cards (board g) ++ added
             /\ List.NoDup added
             /\ forall c, In c added ->
                  0 <= c < 52
                  /\ ~ In c ([fst my_hand; snd my_hand; fst opp_hand; snd opp_hand]
                             ++ board_cards (board g)))
  /\ ((forall c, In c ([fst my_hand; snd my_hand; fst opp_hand; snd opp_hand]
                       ++ board_cards (board g)) -> 0 <= c < 52) ->
      (length (board_cards (board g)) <= 5)%nat ->
      (exists h, sample_opponent_hand_uniform g my_hand = Some h)
      /\ (exists out, sample_runout_uniform g my_hand opp_hand = Some out)).
Proof.
  split; [|split].
  - intros a b. unfold sample_opponent_hand_uniform. cbv zeta.
    destruct (_remaining_deck_ids _) as [deck|e] eqn:Hdeck; [|discriminate].
    pose proof (shuffled_NoDup deck (remaining_deck_NoDup _ _ Hdeck)) as Hnd.
    pose proof (shuffled_In deck) as Hin.
    destruct (rev (shuffle deck)) as [|a' [|b' rest]]; try discriminate.
    intros Heq. injection Heq as -> ->.
    assert (Ha : In a deck) by (apply (proj1 (Hin a)); left; reflexivity).
    assert (Hb : In b deck) by (apply (proj1 (Hin b)); right; left; reflexivity).
    apply (proj1 (remaining_deck_In _ _ _ Hdeck)) in Ha.
    apply (proj1 (remaining_deck_In _ _ _ Hdeck)) in Hb.
    split; [|tauto].
    intros ->. apply List.NoDup_cons_iff in Hnd. apply Hnd. left. reflexivity.
  - intros out. unfold sample_runout_uniform. cbv zeta.
    destruct (_remaining_deck_ids _) as [deck|e] eqn:Hdeck; [|discriminate].
    destruct (Nat.ltb_spec (length (rev (shuffle deck)))
                (5 - length (board_cards (board g)))) as [|Hge]; [discriminate|].
    intros Heq Hb5. injection Heq as <-.
    assert (Hlen : length (board_cards (board g)
                           ++ take (5 - length (board_cards (board g)))
                                (rev (shuffle deck))) = 5%nat).
    { rewrite length_app, length_take. lia. }
    rewrite firstn_all2 by lia. split; [exact Hlen|].
    exists (take (5 - length (board_cards (board g))) (rev (shuffle deck))).
    split; [reflexivity|]. split.
    + rewrite <- (take_drop (5 - length (board_cards (board g))) (rev (shuffle deck)))
        in Hge.
      pose proof (shuffled_NoDup deck (remaining_deck_NoDup _ _ Hdeck)) as Hnd.
      rewrite <- (take_drop (5 - length (board_cards (board g))) (rev (shuffle deck)))
        in Hnd.
      apply List.NoDup_app_remove_r in Hnd. exact Hnd.
    + intros c Hc. apply In_take in Hc. apply (proj1 (shuffled_In deck c)) in Hc.
      apply (proj1 (remaining_deck_In _ _ _ Hdeck)) in Hc. exact Hc.
  - intros Hvalid Hb5.
    unfold sample_opponent_hand_uniform, sample_runout_uniform. cbv zeta. split.
    + destruct (remaining_deck_Ok ([fst my_hand; snd my_hand] ++ board_cards (board g)))
        as [deck Hdeck].
      { intros c Hc. apply Hvalid. cbn [app In] in *. tauto. }
      rewrite Hdeck. pose proof (remaining_deck_large _ _ Hdeck) as Hl.
      rewrite length_app in Hl. cbn [length] in Hl.
      pose proof (shuffled_length deck) as Hs.
      destruct (rev (shuffle deck)) as [|a [|b rest]]; cbn [length] in Hs; [lia|lia|eauto].
    + destruct (remaining_deck_Ok ([fst my_hand; snd my_hand; fst opp_hand; snd opp_hand]
                                   ++ board_cards (board g))) as [deck Hdeck];
        [exact Hvalid|].
      rewrite Hdeck. pose proof (remaining_deck_large _ _ Hdeck) as Hl.
      rewrite length_app in Hl. cbn [length] in Hl.
      pose proof (shuffled_length deck) as Hs.
      destruct (Nat.ltb_spec (length (rev (shuffle deck)))
                  (5 - length (board_cards (board g)))) as [Hlt|_]; [lia|eauto].
Qed.

End Sampling.

Lemma uniform_samplers_spec_witness :
  exists out,
    sample_runout_uniform (fun l => l) (gs sample_start) (49, 41) (0, 2) = Some out
    /\ length out = 5%nat.
Proof.
  destruct (uniform_samplers_spec (fun l => l) (fun l => Permutation_refl l)
              (gs sample_start) (49, 41) (0, 2)) as (_ & Hrun & Htot).
  destruct Htot as [_ [out Hout]].
  - intros c Hc. cbn in Hc. intuition lia.
  - cbn. lia.
  - exists out. split; [exact Hout|]. apply (Hrun out Hout). cbn. lia.
Defined.

(** * The betting pressure in the information-set key *)

(** poker/ai/infoset.py, [bet_bucket_from_amount]: the ratio
    [bet_amount / float(pot)] against 1/4, 1/3, 1/2, 3/4 and 1.  The ratio
    is an exact rational here; for chip counts below 2^53 the float quotient
    falls on the same side of each threshold as the exact one (a quotient
    above a threshold exceeds it by at least 1/(4 pot), more than half the
    float spacing there). *)
Definition bet_bucket_from_amount (pot_now bet : Z) : Z :=
  if (pot_now <=? 0) || (bet <=? 0) then 0
  else
    let frac := (inject_Z bet / inject_Z pot_now)%Q in
    if Qle_bool frac (1 # 4) then 1
    else if Qle_bool frac (1 # 3) then 2
    else if Qle_bool frac (1 # 2) then 3
    else if Qle_bool frac (3 # 4) then 4
    else if Qle_bool frac 1 then 5
    else 6.

(** poker/ai/ismcts.py, [_facing_bet], [_call_price], [_pot_size] *)
Definition _facing_bet (ps : PublicState) : bool :=
  street_bet_open ps && (0 <? bet_amount ps).

Definition _call_price (ps : PublicState) : Z := bet_amount ps.

Definition _pot_size (ps : PublicState) : Z := pot (gs ps).

(** The two pressure components [ISMCTS._infoset_key_for_ps] passes to
    [infoset_key]: [fb] and [bb]. *)
Definition pressure_key (ps : PublicState) : Z * Z :=
  let fb := if _facing_bet ps then 1 else 0 in
  let bb := if fb =? 1 then bet_bucket_from_amount (_pot_size ps) (_call_price ps) else 0 in
  (fb, bb).

Lemma frac_le_iff (bet pot_now a : Z) (p : positive) :
  0 < pot_now ->
  Qle_bool (inject_Z bet / inject_Z pot_now) (a # p) = true
  <-> Z.pos p * bet <= a * pot_now.
Proof.
  intros Hpot. rewrite Qle_bool_iff.
  assert (Hp : (0 < inject_Z pot_now)%Q).
  { unfold Qlt, inject_Z. cbn. lia. }
  assert (Hiff : (inject_Z bet <= (a # p) * inject_Z pot_now)%Q
                 <-> Z.pos p * bet <= a * pot_now).
  { unfold Qle, Qmult, inject_Z. cbn [Qnum Qden].
    rewrite Pos.mul_1_r, Z.mul_1_r. split; lia. }
  rewrite <- Hiff. split.
  - intros H.
    pose proof (Qmult_le_compat_r _ _ (inject_Z pot_now) H (Qlt_le_weak _ _ Hp)) as Hm.
    rewrite (Qmult_comm (inject_Z bet / inject_Z pot_now)) in Hm.
    rewrite Qmult_div_r in Hm; [exact Hm|].
    intros Hz. rewrite Hz in Hp. exact (Qlt_irrefl 0 Hp).
  - intros H. apply Qle_shift_div_r; [exact Hp|exact H].
Qed.

Lemma bet_bucket_cases pot_now bet :
  0 < pot_now -> 0 < bet ->
  bet_bucket_from_amount pot_now bet
  = if 4 * bet <=? pot_now then 1
    else if 3 * bet <=? pot_now then 2
    else if 2 * bet <=? pot_now then 3
    else if 4 * bet <=? 3 * pot_now then 4
    else if bet <=? pot_now then 5
    else 6.
Proof.
  intros Hpot Hbet. unfold bet_bucket_from_amount. cbv zeta.
  destruct (Z.leb_spec pot_now 0); [lia|]. destruct (Z.leb_spec bet 0); [lia|].
  cbn [orb].
  pose proof (frac_le_iff bet pot_now 1 4 Hpot) as H14.
  pose proof (frac_le_iff bet pot_now 1 3 Hpot) as H13.
  pose proof (frac_le_iff bet pot_now 1 2 Hpot) as H12.
  pose proof (frac_le_iff bet pot_now 3 4 Hpot) as H34.
  pose proof (frac_le_iff bet pot_now 1 1 Hpot) as H11.
  change (1 # 1) with 1%Q in H11.
  repeat match goal with
         | |- context [Qle_bool ?x ?y] => destruct (Qle_bool x y)
         end;
    repeat match goal with
           | |- context [?x <=? ?y] => destruct (Z.leb_spec x y)
           end;
    try reflexivity; exfalso;
    repeat match goal with
           | H : true = true <-> _ |- _ => pose proof (proj1 H eq_refl); clear H
           | H : false = true <-> _ |- _ =>
               assert (~ _) by (intros Hc; apply (proj2 H) in Hc; discriminate Hc); clear H
           end; lia.
Qed.

(** X19. The bet bucket is 0 exactly without a positive pot and bet, otherwise
    it lies in 1..6, grows with the bet, and depends only on the ratio
    (scaling pot and bet by the same factor does not change it).  In a hand
    played from a start state the amount owed never exceeds the pot, so
    the key component [bb] stays in 0..5 -- bucket 6 (more than the pot)
    never occurs -- and it is at least 1 exactly when a bet is faced. *)
Theorem bet_bucket_spec :
  (forall pot_now bet,
      0 <= bet_bucket_from_amount pot_now bet <= 6
      /\ (bet_bucket_from_amount pot_now bet = 0 <-> pot_now <= 0 \/ bet <= 0))
  /\ (forall pot_now b1 b2,
        b1 <= b2 -> bet_bucket_from_amount pot_now b1 <= bet_bucket_from_amount pot_now b2)
  /\ (forall pot_now bet k,
        0 < k ->
        bet_bucket_from_amount (k * pot_now) (k * bet) = bet_bucket_from_amount pot_now bet)
  /\ (forall flop pot0 S ta acts ps0 ps,
        0 <= pot0 -> valid_player ta ->
        start_postflop_state flop pot0 S ta = Ok ps0 ->
        play ps0 acts = Ok ps ->
        0 <= snd (pressure_key ps) <= 5
        /\ (fst (pressure_key ps) = 1 <-> 1 <= snd (pressure_key ps))
        /\ (fst (pressure_key ps) = 1
            <-> street_bet_open ps = true /\ 0 < bet_amount ps)).
Proof.
  assert (Hrange : forall pot_now bet,
             0 < pot_now -> 0 < bet -> 1 <= bet_bucket_from_amount pot_now bet <= 6).
  { intros pot_now bet Hp Hb. rewrite bet_bucket_cases by assumption.
    repeat match goal with
           | |- context [?x <=? ?y] => destruct (Z.leb_spec x y)
           end; lia. }
  assert (Hzero : forall pot_now bet,
             pot_now <= 0 \/ bet <= 0 -> bet_bucket_from_amount pot_now bet = 0).
  { intros pot_now bet H. unfold bet_bucket_from_amount.
    destruct (Z.leb_spec pot_now 0); [reflexivity|].
    destruct (Z.leb_spec bet 0); [reflexivity|lia]. }
  split; [|split; [|split]].
  - intros pot_now bet.
    destruct (Z_lt_le_dec 0 pot_now) as [Hp|Hp];
      [destruct (Z_lt_le_dec 0 bet) as [Hb|Hb]|].
    + pose proof (Hrange pot_now bet Hp Hb). split; [lia|]. split; lia.
    + rewrite Hzero by lia. split; [lia|]. split; [lia|reflexivity].
    + rewrite Hzero by lia. split; [lia|]. split; [lia|reflexivity].
  - intros pot_now b1 b2 Hle.
    destruct (Z_lt_le_dec 0 pot_now) as [Hp|Hp]; [|rewrite !Hzero by lia; lia].
    destruct (Z_lt_le_dec 0 b1) as [Hb1|Hb1].
    + rewrite !bet_bucket_cases by lia.
      repeat match goal with
             | |- context [?x <=? ?y] => destruct (Z.leb_spec x y)
             end; lia.
    + rewrite (Hzero pot_now b1) by lia.
      destruct (Z_lt_le_dec 0 b2) as [Hb2|Hb2]; [|rewrite Hzero by lia; lia].
      pose proof (Hrange pot_now b2 Hp Hb2). lia.
  - intros pot_now bet k Hk.
    destruct (Z_lt_le_dec 0 pot_now) as [Hp|Hp];
      [destruct (Z_lt_le_dec 0 bet) as [Hb|Hb]|].
    + rewrite !bet_bucket_cases by nia.
      repeat match goal with
             | |- context [?x <=? ?y] => destruct (Z.leb_spec x y)
             end; try reflexivity; exfalso; nia.
    + rewrite !Hzero by nia. reflexivity.
    + rewrite !Hzero by nia. reflexivity.
  - intros flop pot0 S ta acts ps0 ps Hpot Hta Hstart Hplay.
    assert (Hts : table_state S ps).
    { eapply (play_preserves (table_state S)); [|eapply start_table_state; eauto|exact Hplay].
      intros ? ? ?. apply apply_action_table_state. }
    destruct Hts as (_ & _ & _ & Hp & Hb & _).
    unfold pressure_key, _facing_bet, _call_price, _pot_size. cbv zeta. cbn [fst snd].
    destruct (street_bet_open ps); cbn [andb];
      [destruct (Z.ltb_spec 0 (bet_amount ps)) as [Hpos|Hnp]|].
    + cbn [Z.eqb Pos.eqb].
      assert (Hpp : 0 < pot (gs ps)) by lia.
      pose proof (Hrange _ _ Hpp Hpos) as Hr.
      assert (Hle5 : bet_bucket_from_amount (pot (gs ps)) (bet_amount ps) <= 5).
      { rewrite bet_bucket_cases by assumption.
        repeat match goal with
               | |- context [?x <=? ?y] => destruct (Z.leb_spec x y)
               end; lia. }
      split; [lia|]. split; [split; [lia|reflexivity]|]. split; [auto|reflexivity].
    + cbn [Z.eqb Pos.eqb]. split; [lia|]. split; [split; [discriminate|lia]|].
      split; [discriminate|]. intros [_ H]. lia.
    + cbn [Z.eqb Pos.eqb]. split; [lia|]. split; [split; [discriminate|lia]|].
      split; [discriminate|]. intros [H _]. discriminate.
Qed.

Lemma bet_bucket_spec_witness :
  0 <= snd (pressure_key sample_raised) <= 5
  /\ (fst (pressure_key sample_raised) = 1 <-> 1 <= snd (pressure_key sample_raised)).
Proof.
  destruct (proj2 (proj2 (proj2 bet_bucket_spec)) [45; 22; 1] 3 100 Player.HERO
              [Act.BET; Act.RAISE] sample_start sample_raised) as (H1 & H2 & _).
  - lia.
  - left. reflexivity.
  - exact sample_start_ok.
  - exact sample_raised_ok.
  - split; [exact H1|exact H2].
Defined.

(** * The actions offered to the bandit *)

(** poker/ai/ismcts.py, [ISMCTS._strip_illegal_or_disabled] *)
Definition _strip_illegal_or_disabled (disable_allin : bool) (acts : list Z) : list Z :=
  if negb disable_allin then acts
  else List.filter (fun a => negb (a =? Act.ALLIN)) acts.

(** The action list [ISMCTS._iterate] builds before it consults the node:
    the legal actions, minus ALLIN when disabled, minus FOLD when the mask
    shows two pair or better. *)
Definition offered_actions (disable_allin : bool) (mask : Z) (ps : PublicState) : list Z :=
  let acts := _strip_illegal_or_disabled disable_allin (legal_actions ps) in
  if is_member Act.FOLD acts
     && (_has mask "made_two_pair_or_better" || _has mask "made_trips_or_better")
  then List.filter (fun a => negb (a =? Act.FOLD)) acts
  else acts.

(** X20. In a state that is not terminal the bandit is never left without an
    action: the list offered always contains CHECK or CALL, whatever is
    disabled or filtered, so the empty-list fallback of [_iterate] is never
    taken; everything offered is legal; a disabled ALLIN and a FOLD with two
    pair or better are never offered. *)
Theorem offered_actions_spec (disable_allin : bool) (mask : Z) (ps : PublicState) :
  (is_terminal ps = false ->
     (In Act.CHECK (offered_actions disable_allin mask ps)
      \/ In Act.CALL (offered_actions disable_allin mask ps))
     /\ offered_actions disable_allin mask ps <> [])
  /\ (is_terminal ps = true -> offered_actions disable_allin mask ps = [])
  /\ (forall a, In a (offered_actions disable_allin mask ps) -> In a (legal_actions ps))
  /\ (disable_allin = true -> ~ In Act.ALLIN (offered_actions disable_allin mask ps))
  /\ (_has mask "made_two_pair_or_better" || _has mask "made_trips_or_better" = true ->
      ~ In Act.FOLD (offered_actions disable_allin mask ps)).
Proof.
  unfold offered_actions, _strip_illegal_or_disabled, legal_actions. cbv zeta.
  generalize (_has mask "made_two_pair_or_better" || _has mask "made_trips_or_better").
  intros monster.
  destruct (is_terminal ps).
  - split; [discriminate|]. split; [intros _; destruct disable_allin; reflexivity|].
    split; [destruct disable_allin; intros a []|].
    split; [intros _; destruct disable_allin; intros []|].
    intros _. destruct disable_allin; intros [].
  - destruct (street_bet_open ps); cbn [negb];
      [destruct (raises_this_street ps =? 0)|];
      destruct disable_allin, monster; vm_compute;
      (split; [intros _; split; [tauto|discriminate]|]);
      (split; [discriminate|]);
      (split; [intros a; tauto|]);
      split; intros Hd; try discriminate Hd; intros Hin;
      repeat (destruct Hin as [Hin|Hin]; [discriminate Hin|]); exact Hin.
Qed.

Lemma offered_actions_spec_witness :
  In Act.CHECK (offered_actions true 0 sample_start)
  \/ In Act.CALL (offered_actions true 0 sample_start).
Proof.
  apply (proj1 (offered_actions_spec true 0 sample_start)). reflexivity.
Defined.

(** * The feature bitset *)

(** [abstraction.BIT], all of it, in the order of the dictionary. *)
Definition BIT_items : list (string * Z) :=
  [("paired_board", 0); ("trips_on_board", 1); ("flush_available", 2);
   ("flush_draw_available", 3); ("straight_available", 4);
   ("straight_draw_available", 5); ("ace_high_board", 6); ("king_high_board", 7);
   ("queen_high_board", 8); ("ten_high_or_lower_board", 9); ("monotone_flop", 10);
   ("two_tone_flop", 11);
   ("top_pair", 16); ("middle_pair", 17); ("bottom_pair", 18); ("overpair", 19);
   ("underpair", 20); ("two_overcards", 21); ("one_overcard", 22);
   ("made_two_pair_or_better", 23); ("made_trips_or_better", 24);
   ("has_flush_draw", 28); ("has_straight_draw", 29); ("is_oesd", 30);
   ("is_gutshot", 31); ("combo_draw", 32)].

(** [v = feats.get(k, False); isinstance(v, bool) and v]: only the boolean
    True counts; a number (or any other non-boolean value, which [PInt]
    stands for here) never does. *)
Definition is_true_bool (v : option pyval) : bool :=
  match v with
  | Some (PBool true) => true
  | _ => false
  end.

(** [features_to_bitmask] *)
Definition features_to_bitmask (feats : gmap string pyval) : Z :=
  fold_left (fun mask '(k, b) =>
               if is_true_bool (feats !! k) then Z.lor mask (Z.shiftl 1 b) else mask)
    BIT_items 0.

Lemma bitmask_fold_testbit (flag : string -> bool) (items : list (string * Z)) :
  forall m0 n,
    0 <= n -> Forall (fun kb => 0 <= snd kb) items ->
    Z.testbit
      (fold_left (fun mask '(k, b) => if flag k then Z.lor mask (Z.shiftl 1 b) else mask)
         items m0) n
    = Z.testbit m0 n || existsb (fun '(k, b) => flag k && (b =? n)) items.
Proof.
  induction items as [|[k b] items IH]; intros m0 n Hn Hpos; cbn [fold_left existsb].
  - rewrite orb_false_r. reflexivity.
  - apply Forall_cons in Hpos. destruct Hpos as [Hb Hpos]. cbn [snd] in Hb.
    rewrite IH by assumption. destruct (flag k); cbn [andb].
    + rewrite Z.lor_spec, Z.shiftl_spec by lia.
      rewrite <- orb_assoc. f_equal. f_equal.
      destruct (Z.eqb_spec b n) as [->|Hne].
      * rewrite Z.sub_diag. reflexivity.
      * destruct (Z_lt_le_dec n b).
        -- rewrite Z.testbit_neg_r by lia. reflexivity.
        -- change 1 with (Z.ones 1). rewrite Z.testbit_ones_nonneg by lia.
           apply Z.ltb_ge. lia.
    + reflexivity.
Qed.

Lemma existsb_unique_bit (flag : string -> bool) (items : list (string * Z)) k b :
  List.NoDup (map snd items) -> In (k, b) items ->
  existsb (fun '(k', b') => flag k' && (b' =? b)) items = flag k.
Proof.
  induction items as [|[k0 b0] items IH]; cbn [map In existsb]; [intros _ []|].
  intros Hnd Hin. apply List.NoDup_cons_iff in Hnd. destruct Hnd as [Hnotin Hnd].
  destruct Hin as [Heq|Hin].
  - injection Heq as -> ->. rewrite Z.eqb_refl, andb_true_r.
    assert (Hrest : existsb (fun '(k', b') => flag k' && (b' =? b)) items = false).
    { apply not_true_is_false. intros Hex. apply existsb_exists in Hex.
      destruct Hex as ([k' b'] & Hin' & Hc). apply andb_prop in Hc. destruct Hc as [_ Hc].
      apply Z.eqb_eq in Hc. subst b'. apply Hnotin.
      apply in_map_iff. exists (k', b). auto. }
    rewrite Hrest, orb_false_r. reflexivity.
  - rewrite (IH Hnd Hin).
    destruct (Z.eqb_spec b0 b) as [->|_]; [|rewrite andb_false_r; reflexivity].
    exfalso. apply Hnotin. apply in_map_iff. exists (k, b). auto.
Qed.

Lemma BIT_items_bits : List.NoDup (map snd BIT_items) /\ Forall (fun kb => 0 <= snd kb) BIT_items.
Proof.
  split.
  - cbn [map snd BIT_items].
    repeat (apply List.NoDup_cons; [cbn [In]; intros H;
              repeat (destruct H as [H|H]; [discriminate H|]); exact H|]).
    apply List.NoDup_nil.
  - apply Forall_forall. intros [k b] Hin. apply list_elem_of_In in Hin.
    cbn [snd]. cbn [BIT_items In] in Hin.
    repeat (destruct Hin as [Hin|Hin]; [injection Hin as <- <-; lia|]). destruct Hin.
Qed.

Lemma BIT_in_items name b : BIT name = Some b -> In (name, b) BIT_items.
Proof.
  unfold BIT.
  repeat match goal with
         | |- context [String.eqb name ?s] =>
             destruct (String.eqb_spec name s) as [->|_];
             [intros Heq; injection Heq as <-; cbn [BIT_items In]; auto 40|]
         end.
  discriminate.
Qed.

Lemma BIT_of_items name b : In (name, b) BIT_items -> BIT name = Some b.
Proof.
  cbn [BIT_items In]. intros Hin.
  repeat (destruct Hin as [Hin|Hin]; [injection Hin as <- <-; reflexivity|]).
  destruct Hin.
Qed.

Lemma has_testbit mask b : 0 <= b -> (Z.land (Z.shiftr mask b) 1 =? 1) = Z.testbit mask b.
Proof.
  intros Hb. change 1 with (Z.ones 1) at 1. rewrite Z.land_ones by lia.
  change (2 ^ 1) with 2.
  replace (Z.testbit mask b) with (Z.testbit (Z.shiftr mask b) 0)
    by (rewrite Z.shiftr_spec by lia; f_equal; lia).
  pose proof (Z.bit0_mod (Z.shiftr mask b)) as Hm.
  destruct (Z.testbit (Z.shiftr mask b) 0); cbn [Z.b2z] in Hm; rewrite <- Hm; reflexivity.
Qed.

(** X21. The bitset round trip: bit [b] of [features_to_bitmask feats] is set
    exactly when the feature named at position [b] of [BIT] is the boolean
    True in [feats] (a truthy number does not count); bits that [BIT] does
    not name are never set; and [_has], as used by the scorer, the air test
    and the private bucket, reads back the feature it is asked for, for
    each of the 26 names of the dictionary (board texture included), and
    gives False for every other name. *)
Theorem features_bitmask_roundtrip (feats : gmap string pyval) :
  (forall k b, In (k, b) BIT_items ->
     Z.testbit (features_to_bitmask feats) b = is_true_bool (feats !! k))
  /\ (forall n, 0 <= n -> (forall k, ~ In (k, n) BIT_items) ->
        Z.testbit (features_to_bitmask feats) n = false)
  /\ (forall name b, BIT name = Some b ->
        _has (features_to_bitmask feats) name = is_true_bool (feats !! name))
  /\ (forall name, BIT name = None -> _has (features_to_bitmask feats) name = false)
  /\ (forall name b, BIT name = Some b <-> In (name, b) BIT_items)
  /\ length BIT_items = 26%nat.
Proof.
  destruct BIT_items_bits as [Hnd Hpos].
  assert (Hbit : forall k b, In (k, b) BIT_items ->
            Z.testbit (features_to_bitmask feats) b = is_true_bool (feats !! k)).
  { intros k b Hin. unfold features_to_bitmask.
    assert (Hb : 0 <= b).
    { rewrite Forall_forall in Hpos. apply (Hpos (k, b)). apply list_elem_of_In. exact Hin. }
    rewrite (bitmask_fold_testbit (fun k => is_true_bool (feats !! k))) by assumption.
    rewrite Z.bits_0, orb_false_l.
    apply (existsb_unique_bit (fun k => is_true_bool (feats !! k))); assumption. }
  split; [exact Hbit|]. split; [|split; [|split; [|split]]].
  - intros n Hn Hnone. unfold features_to_bitmask.
    rewrite (bitmask_fold_testbit (fun k => is_true_bool (feats !! k))) by assumption.
    rewrite Z.bits_0, orb_false_l. apply not_true_is_false. intros Hex.
    apply existsb_exists in Hex. destruct Hex as ([k b] & Hin & Hc).
    apply andb_prop in Hc. destruct Hc as [_ Hc]. apply Z.eqb_eq in Hc. subst b.
    exact (Hnone k Hin).
  - intros name b HB. unfold _has. rewrite HB.
    pose proof (BIT_in_items name b HB) as Hin.
    assert (Hb : 0 <= b).
    { rewrite Forall_forall in Hpos. apply (Hpos (name, b)). apply list_elem_of_In. exact Hin. }
    rewrite has_testbit by exact Hb. apply Hbit. exact Hin.
  - intros name HB. unfold _has. rewrite HB. reflexivity.
  - intros name b. split; [apply BIT_in_items|apply BIT_of_items].
  - reflexivity.
Qed.

(** A feature dictionary with a hand flag and a board flag set, and one
    number. *)
Definition sample_feats : gmap string pyval :=
  <["top_pair" := PBool true]>
    (<["paired_board" := PBool true]> (<["made_hand_rank" := PInt 1]> ∅)).

Lemma features_bitmask_roundtrip_witness :
  features_to_bitmask sample_feats = 65537
  /\ _has (features_to_bitmask sample_feats) "top_pair" = true
  /\ _has (features_to_bitmask sample_feats) "paired_board" = true
  /\ _has (features_to_bitmask sample_feats) "made_hand_rank" = false.
Proof.
  pose proof (features_bitmask_roundtrip sample_feats) as (_ & _ & Hhas & Hnone & _).
  split; [reflexivity|]. split; [|split].
  - rewrite (Hhas "top_pair" 16); reflexivity.
  - rewrite (Hhas "paired_board" 0); reflexivity.
  - apply Hnone. reflexivity.
Defined.

(** * The straight detector of the hand evaluator *)

(** ** poker/helpers/evaluator.py: [straight_high] *)

(** [sorted(set(values), reverse=True)]: the distinct values in strictly
    decreasing order, built by insertion. *)
Fixpoint insert_uniq (x : Z) (l : list Z) : list Z :=
  match l with
  | [] => [x]
  | y :: rest =>
      if y <? x then x :: l
      else if y =? x then l
      else y :: insert_uniq x rest
  end.

Definition sorted_set_desc (values : list Z) : list Z := fold_right insert_uniq [] values.

(** Python indexing [l[k]], a negative [k] counting from the end. *)
Definition py_index (l : list Z) (k : Z) : Z :=
  nth (Z.to_nat (if k <? 0 then Z.of_nat (length l) + k else k)) l 0.

(** The loop [for i in range(len(uniq) - 1)], [n] iterations left. *)
Fixpoint straight_loop (uniq : list Z) (n : nat) (i run : Z) (best : option Z)
    : option Z :=
  match n with
  | O => best
  | Datatypes.S n' =>
      if py_index uniq i - 1 =? py_index uniq (i + 1) then
        let run' := run + 1 in
        if 5 <=? run' then
          let high := py_index uniq (i - (run' - 2)) in
          straight_loop uniq n' (i + 1) run'
            (Some (Z.max (match best with Some b => b | None => 0 end) high))
        else straight_loop uniq n' (i + 1) run' best
      else straight_loop uniq n' (i + 1) 1 best
  end.

(** What [straight_high] does once [uniq] is sorted. *)
Definition straight_from_uniq (uniq0 : list Z) : option Z :=
  let uniq := if is_member 14 uniq0 then uniq0 ++ [1] else uniq0 in
  let best := straight_loop uniq (length uniq - 1) 0 1 None in
  match best with
  | Some 1 => Some 5
  | _ => best
  end.

Definition straight_high (values : list Z) : option Z :=
  straight_from_uniq (sorted_set_desc values).

(** The specification: a value is present if it occurs, the ace (14) also
    counting as 1; [h] heads a straight if [h], ..., [h - 4] are present. *)
Definition present (values : list Z) (x : Z) : bool :=
  is_member x values || ((x =? 1) && is_member 14 values).

Definition has_run (values : list Z) (h : Z) : bool :=
  forallb (fun k => present values (h - k)) [0; 1; 2; 3; 4].

Definition straight_tops : list Z := [14; 13; 12; 11; 10; 9; 8; 7; 6; 5].

(** The card values, highest first, and all their sub-lists. *)
Definition card_values : list Z := [14; 13; 12; 11; 10; 9; 8; 7; 6; 5; 4; 3; 2].

Fixpoint sublists (l : list Z) : list (list Z) :=
  match l with
  | [] => [[]]
  | x :: rest => map (cons x) (sublists rest) ++ sublists rest
  end.

Definition option_Z_eqb (o1 o2 : option Z) : bool :=
  match o1, o2 with
  | Some a, Some b => a =? b
  | None, None => true
  | _, _ => false
  end.

Lemma option_Z_eqb_eq o1 o2 : option_Z_eqb o1 o2 = true -> o1 = o2.
Proof.
  destruct o1, o2; cbn [option_Z_eqb]; try discriminate; [|reflexivity].
  intros H. apply Z.eqb_eq in H. congruence.
Qed.

(** Checked on each of the 8192 sets of card values. *)
Lemma straight_from_uniq_all :
  forallb (fun l => option_Z_eqb (straight_from_uniq l)
                      (List.find (has_run l) straight_tops))
    (sublists card_values) = true.
Proof. vm_compute. reflexivity. Qed.

Lemma filter_in_sublists (P : Z -> bool) l : In (List.filter P l) (sublists l).
Proof.
  induction l as [|x l IH]; cbn [List.filter sublists]; [left; reflexivity|].
  apply in_app_iff. destruct (P x); [left; apply in_map; exact IH|right; exact IH].
Qed.

Lemma insert_uniq_In x l z : In z (insert_uniq x l) <-> z = x \/ In z l.
Proof.
  induction l as [|y l IH]; cbn [insert_uniq In]; [intuition|].
  destruct (Z.ltb_spec y x); [cbn [In]; intuition|].
  destruct (Z.eqb_spec y x) as [->|Hne]; cbn [In]; [intuition|].
  rewrite IH. intuition.
Qed.

Lemma insert_uniq_sorted x l :
  StronglySorted Z.gt l -> StronglySorted Z.gt (insert_uniq x l).
Proof.
  induction 1 as [|y l Hs IH Hy]; cbn [insert_uniq].
  - constructor; [constructor|constructor].
  - rewrite Forall_forall in Hy.
    destruct (Z.ltb_spec y x) as [Hlt|Hge].
    + constructor; [constructor; [exact Hs|apply Forall_forall; exact Hy]|].
      apply Forall_forall. intros z Hz. apply list_elem_of_In in Hz.
      destruct Hz as [<-|Hz]; [lia|].
      specialize (Hy z (proj2 (list_elem_of_In _ _) Hz)). lia.
    + destruct (Z.eqb_spec y x) as [->|Hne].
      * constructor; [exact Hs|apply Forall_forall; exact Hy].
      * constructor; [exact IH|]. apply Forall_forall. intros z Hz.
        apply list_elem_of_In in Hz. apply insert_uniq_In in Hz.
        destruct Hz as [->|Hz]; [lia|].
        apply Hy. apply list_elem_of_In. exact Hz.
Qed.

Lemma sorted_set_desc_spec values :
  StronglySorted Z.gt (sorted_set_desc values)
  /\ forall z, In z (sorted_set_desc values) <-> In z values.
Proof.
  induction values as [|x values [IHs IHin]]; cbn [sorted_set_desc fold_right].
  - split; [constructor|reflexivity].
  - fold (sorted_set_desc values). split; [apply insert_uniq_sorted; exact IHs|].
    intros z. rewrite insert_uniq_In, IHin. cbn [In]. intuition.
Qed.

Lemma filter_sorted_gt (P : Z -> bool) l :
  StronglySorted Z.gt l -> StronglySorted Z.gt (List.filter P l).
Proof.
  induction 1 as [|x l Hs IH Hx]; cbn [List.filter]; [constructor|].
  destruct (P x); [|exact IH]. constructor; [exact IH|].
  apply Forall_forall. intros y Hy. apply list_elem_of_In in Hy.
  apply List.filter_In in Hy. destruct Hy as [Hy _].
  rewrite Forall_forall in Hx. apply Hx. apply list_elem_of_In. exact Hy.
Qed.

Lemma desc_unique l1 : forall l2,
  StronglySorted Z.gt l1 -> StronglySorted Z.gt l2 ->
  (forall x, In x l1 <-> In x l2) -> l1 = l2.
Proof.
  induction l1 as [|x l1 IH]; intros [|y l2] H1 H2 Hmem.
  - reflexivity.
  - exfalso. apply (proj2 (Hmem y)). left. reflexivity.
  - exfalso. apply (proj1 (Hmem x)). left. reflexivity.
  - apply StronglySorted_inv in H1. destruct H1 as [H1 Hx].
    apply StronglySorted_inv in H2. destruct H2 as [H2 Hy].
    rewrite Forall_forall in Hx. rewrite Forall_forall in Hy.
    assert (Hxgt : forall z, In z l1 -> x > z).
    { intros z Hz. apply Hx. apply list_elem_of_In. exact Hz. }
    assert (Hygt : forall z, In z l2 -> y > z).
    { intros z Hz. apply Hy. apply list_elem_of_In. exact Hz. }
    assert (Hxy : x = y).
    { destruct (proj1 (Hmem x) (or_introl eq_refl)) as [Heq|Hin]; [congruence|].
      destruct (proj2 (Hmem y) (or_introl eq_refl)) as [Heq|Hin']; [congruence|].
      specialize (Hygt x Hin). specialize (Hxgt y Hin'). lia. }
    subst y. f_equal. apply IH; [exact H1|exact H2|].
    intros z. split; intros Hz.
    + destruct (proj1 (Hmem z) (or_intror Hz)) as [Heq|Hin]; [|exact Hin].
      specialize (Hxgt z Hz). lia.
    + destruct (proj2 (Hmem z) (or_intror Hz)) as [Heq|Hin]; [|exact Hin].
      specialize (Hygt z Hz). lia.
Qed.

Lemma card_values_In x : In x card_values <-> 2 <= x <= 14.
Proof.
  unfold card_values. cbn [In]. split; [intuition lia|].
  intros Hx.
  assert (Hc : x = 14 \/ x = 13 \/ x = 12 \/ x = 11 \/ x = 10 \/ x = 9 \/ x = 8 \/ x = 7
               \/ x = 6 \/ x = 5 \/ x = 4 \/ x = 3 \/ x = 2) by lia.
  intuition.
Qed.

Lemma card_values_sorted : StronglySorted Z.gt card_values.
Proof.
  unfold card_values.
  repeat (constructor; [|apply Forall_forall; intros z Hz; apply list_elem_of_In in Hz;
                         cbn [In] in Hz; intuition lia]).
  constructor.
Qed.

Lemma sorted_set_desc_filter values :
  (forall v, In v values -> 2 <= v <= 14) ->
  sorted_set_desc values = List.filter (fun v => is_member v values) card_values.
Proof.
  intros Hv. destruct (sorted_set_desc_spec values) as [Hs Hin].
  apply desc_unique; [exact Hs|apply filter_sorted_gt; apply card_values_sorted|].
  intros x. rewrite Hin, List.filter_In, card_values_In, is_member_In. split.
  - intros Hx. split; [apply Hv; exact Hx|exact Hx].
  - tauto.
Qed.

Lemma present_filter values x :
  (forall v, In v values -> 2 <= v <= 14) ->
  present (List.filter (fun v => is_member v values) card_values) x = present values x.
Proof.
  intros Hv.
  assert (Hm : forall y, is_member y (List.filter (fun v => is_member v values) card_values)
                         = is_member y values).
  { intros y. apply eq_true_iff_eq.
    rewrite !is_member_In, List.filter_In, card_values_In, is_member_In. split; [tauto|].
    intros Hy. split; [apply Hv; exact Hy|exact Hy]. }
  unfold present. rewrite !Hm. reflexivity.
Qed.

(** X22. [straight_high] is correct on card values: it returns the highest value
    [h] in 5..14 such that [h], [h-1], ..., [h-4] all occur among the
    values, the ace (14) also counting as 1 (so A-2-3-4-5 gives 5), and
    [None] when there is no such [h]. *)
Theorem straight_high_spec (values : list Z) :
  (forall v, In v values -> 2 <= v <= 14) ->
  straight_high values = List.find (has_run values) straight_tops
  /\ (forall h, straight_high values = Some h ->
        5 <= h <= 14
        /\ (forall k, 0 <= k <= 4 -> present values (h - k) = true)
        /\ (forall h', h < h' -> 5 <= h' <= 14 -> has_run values h' = false))
  /\ (straight_high values = None ->
        forall h, 5 <= h <= 14 -> has_run values h = false).
Proof.
  intros Hv.
  assert (Hfind : straight_high values = List.find (has_run values) straight_tops).
  { unfold straight_high. rewrite (sorted_set_desc_filter values Hv).
    pose proof (proj1 (forallb_forall _ _) straight_from_uniq_all
                  (List.filter (fun v => is_member v values) card_values)
                  (filter_in_sublists _ _)) as Hc.
    apply option_Z_eqb_eq in Hc. rewrite Hc.
    assert (Hext : forall h, has_run (List.filter (fun v => is_member v values) card_values) h
                             = has_run values h).
    { intros h. unfold has_run. cbn [forallb].
      rewrite !present_filter by exact Hv. reflexivity. }
    clear Hc. unfold straight_tops.
    cbn [List.find]. rewrite !Hext. reflexivity. }
  split; [exact Hfind|]. rewrite Hfind. clear Hfind.
  assert (Htops : forall h, 5 <= h <= 14 -> In h straight_tops).
  { intros h Hh. unfold straight_tops. cbn [In].
    assert (Hc : h = 14 \/ h = 13 \/ h = 12 \/ h = 11 \/ h = 10 \/ h = 9 \/ h = 8
                 \/ h = 7 \/ h = 6 \/ h = 5) by lia.
    intuition. }
  split.
  - intros h Hh.
    assert (Hpre : forall l, StronglySorted Z.gt l -> List.find (has_run values) l = Some h ->
              In h l /\ has_run values h = true
              /\ forall h', In h' l -> h < h' -> has_run values h' = false).
    { induction 1 as [|x l Hs IH Hx]; cbn [List.find]; [discriminate|].
      destruct (has_run values x) eqn:Hrun.
      - intros Heq. injection Heq as <-. split; [left; reflexivity|]. split; [exact Hrun|].
        intros h' [<-|Hin] Hlt; [lia|].
        rewrite Forall_forall in Hx. specialize (Hx h' (proj2 (list_elem_of_In _ _) Hin)).
        lia.
      - intros Hf. destruct (IH Hf) as (Hin & Hr & Hmax).
        split; [right; exact Hin|]. split; [exact Hr|].
        intros h' [<-|Hin'] Hlt; [exact Hrun|apply Hmax; assumption]. }
    assert (Hsorted : StronglySorted Z.gt straight_tops).
    { unfold straight_tops.
      repeat (constructor; [|apply Forall_forall; intros z Hz; apply list_elem_of_In in Hz;
                             cbn [In] in Hz; intuition lia]).
      constructor. }
    destruct (Hpre straight_tops Hsorted Hh) as (Hin & Hrun & Hmax).
    split; [unfold straight_tops in Hin; cbn [In] in Hin; intuition lia|].
    split.
    + intros k Hk. unfold has_run in Hrun. rewrite forallb_forall in Hrun.
      apply Hrun. cbn [In].
      assert (Hc : k = 0 \/ k = 1 \/ k = 2 \/ k = 3 \/ k = 4) by lia. intuition.
    + intros h' Hlt Hr. apply Hmax; [apply Htops; exact Hr|exact Hlt].
  - intros Hnone h Hh.
    pose proof (List.find_none _ _ Hnone h (Htops h Hh)) as Hf. exact Hf.
Qed.

Lemma straight_high_spec_witness :
  straight_high [14; 3; 2; 5; 4; 9; 9] = Some 5.
Proof.
  destruct (straight_high_spec [14; 3; 2; 5; 4; 9; 9]) as [H _].
  - intros v Hv. cbn [In] in Hv. intuition lia.
  - rewrite H. reflexivity.
Defined.

(** * Bucketing by cutoffs *)

(** poker/helpers/abstraction.py and poker/ai/infoset.py, [_bucketize_int]:
    the index of the first cutoff [c] with [x <= c], or the number of
    cutoffs when there is none. *)
Fixpoint _bucketize_int (x : Z) (cutoffs : list Z) : Z :=
  match cutoffs with
  | [] => 0
  | c :: rest => if x <=? c then 0 else 1 + _bucketize_int x rest
  end.

(** The pot component of [public_key] and [compute_public_bucket_key]. *)
Definition pot_bucket (pot_now : Z) : Z :=
  _bucketize_int pot_now [10; 25; 50; 100; 200; 400; 800; 1600; 3200].

(** X23. The bucket lies between 0 and the number of cutoffs and never goes down
    when [x] goes up; for cutoffs in increasing order it is the number of
    cutoffs strictly below [x].  The pot bucket of the key is therefore in
    0..9, is 0 exactly for pots up to 10 and 9 exactly for pots above 3200. *)
Theorem bucketize_int_spec :
  (forall x cutoffs, 0 <= _bucketize_int x cutoffs <= Z.of_nat (length cutoffs))
  /\ (forall x y cutoffs, x <= y -> _bucketize_int x cutoffs <= _bucketize_int y cutoffs)
  /\ (forall x cutoffs,
        StronglySorted Z.le cutoffs ->
        _bucketize_int x cutoffs
        = Z.of_nat (length (List.filter (fun c => c <? x) cutoffs)))
  /\ (forall p, 0 <= pot_bucket p <= 9
                /\ (pot_bucket p = 0 <-> p <= 10) /\ (pot_bucket p = 9 <-> 3200 < p)).
Proof.
  assert (Hrange : forall x cutoffs, 0 <= _bucketize_int x cutoffs <= Z.of_nat (length cutoffs)).
  { intros x cutoffs. induction cutoffs as [|c rest IH]; cbn [_bucketize_int length]; [lia|].
    destruct (x <=? c); lia. }
  split; [exact Hrange|]. split; [|split].
  - intros x y cutoffs Hxy. induction cutoffs as [|c rest IH]; cbn [_bucketize_int]; [lia|].
    destruct (Z.leb_spec x c), (Z.leb_spec y c); try lia.
    pose proof (Hrange y rest). lia.
  - intros x cutoffs Hs. induction Hs as [|c rest Hs IH Hc];
      cbn [_bucketize_int List.filter]; [reflexivity|].
    destruct (Z.leb_spec x c) as [Hle|Hgt].
    + destruct (Z.ltb_spec c x); [lia|].
      assert (Hnone : List.filter (fun c0 => c0 <? x) rest = []).
      { assert (Hc' : forall d, In d rest -> c <= d).
        { intros d Hd. rewrite Forall_forall in Hc. apply Hc.
          apply list_elem_of_In. exact Hd. }
        clear IH Hs Hc.
        induction rest as [|d rest IHr]; cbn [List.filter]; [reflexivity|].
        destruct (Z.ltb_spec d x) as [Hdx|_].
        - specialize (Hc' d (or_introl eq_refl)). lia.
        - apply IHr. intros e He. apply Hc'. right. exact He. }
      rewrite Hnone. reflexivity.
    + destruct (Z.ltb_spec c x); [|lia]. cbn [length]. rewrite IH. lia.
  - intros p. unfold pot_bucket. cbn [_bucketize_int].
    repeat match goal with
           | |- context [?a <=? ?b] => destruct (Z.leb_spec a b)
           end; lia.
Qed.

Lemma bucketize_int_spec_witness :
  _bucketize_int 60 [10; 25; 50; 100]
  = Z.of_nat (length (List.filter (fun c => c <? 60) [10; 25; 50; 100])).
Proof.
  apply (proj1 (proj2 (proj2 bucketize_int_spec)) 60 [10; 25; 50; 100]).
  repeat (constructor; [|apply Forall_forall; intros z Hz; apply list_elem_of_In in Hz;
                         cbn [In] in Hz; intuition lia]).
  constructor.
Defined.
